(** * specfmt: extraction of inline response schemas into components/schemas

    A shallow embedding of [internal/specfmt/specfmt.go] (package [specfmt] of
    bilte-co/aeroapi-go) and of the command wrapper [cmd/specfmt/main.go],
    followed by the properties of the rewrite that the specification states.

    Conventions of the embedding.

    - A [*yaml.Node] is a value of the tree type [Node]: the tree reached
      through [Content].  The document decoded by yaml.v3 is such a tree (an
      alias is a node of kind [AliasNode] whose target the code never
      follows), every child is a non-nil node, and a pointer that the code
      tests against [nil] is an [option Node].
    - A function that mutates a node in place returns the new value of that
      node; a caller that reached the node through [getMapValue] writes the
      new value back with [setMapValue], which stands for the pointer the Go
      code holds.
    - An index that runs past a slice panics in Go; the embedding returns
      [Panic].  An [error] return is [Err]; the tree that the caller is left
      with after an error is not described.
    - Go strings are byte strings.  [strconv.Quote], [strings.ToLower] and
      [unicode.ToUpper] are described exactly on ASCII; a byte of a
      multi-byte rune is copied unchanged, which is what Go does for the
      printable caseless runes.
    - The narration printed under [Verbose] goes to standard output and is
      not part of the state that is modelled. *)

From stdpp Require Import base tactics option list gmap strings.
From Stdlib Require Import String Ascii NArith ZArith List Lia Bool.
From Stdlib Require Import DecimalString DecimalN FinFun.
Import ListNotations.

Local Open Scope string_scope.
Local Open Scope N_scope.

(** ** Results of fallible code *)

Inductive res (A : Type) : Type :=
| Val (a : A)
| Err (e : string)
| Panic.
Arguments Val {A} a.
Arguments Err {A} e.
Arguments Panic {A}.

Definition rbind {A B : Type} (m : res A) (k : A -> res B) : res B :=
  match m with
  | Val a => k a
  | Err e => Err e
  | Panic => Panic
  end.

Notation "'let*' x ':=' m 'in' k" := (rbind m (fun x => k))
  (at level 10, x name, m at level 100, k at level 200, only parsing).
Notation "'let*' ' p ':=' m 'in' k" :=
  (rbind m (fun x => match x with p => k end))
  (at level 10, p pattern, m at level 100, k at level 200, only parsing).

(** ** Go strings *)

Module GoString.

Definition dquote : ascii := "034"%char.

Definition isLower (c : ascii) : bool :=
  (97 <=? N_of_ascii c) && (N_of_ascii c <=? 122).
Definition isUpper (c : ascii) : bool :=
  (65 <=? N_of_ascii c) && (N_of_ascii c <=? 90).

(** [unicode.ToUpper] and [unicode.ToLower] on one byte. *)
Definition toUpperByte (c : ascii) : ascii :=
  if isLower c then ascii_of_N (N_of_ascii c - 32) else c.
Definition toLowerByte (c : ascii) : ascii :=
  if isUpper c then ascii_of_N (N_of_ascii c + 32) else c.

Fixpoint mapBytes (f : ascii -> ascii) (s : string) : string :=
  match s with
  | EmptyString => EmptyString
  | String c s' => String (f c) (mapBytes f s')
  end.

(** [strings.ToLower]. *)
Definition ToLower (s : string) : string := mapBytes toLowerByte s.

(** [strings.ReplaceAll] for a one-byte pattern and replacement. *)
Definition ReplaceAll (s : string) (old new : ascii) : string :=
  mapBytes (fun c => if Ascii.eqb c old then new else c) s.

(** [strings.Split] on a one-byte separator. *)
Fixpoint Split (s : string) (sep : ascii) : list string :=
  match s with
  | EmptyString => [EmptyString]
  | String c s' =>
      if Ascii.eqb c sep then EmptyString :: Split s' sep
      else match Split s' sep with
           | x :: xs => String c x :: xs
           | [] => [String c EmptyString]
           end
  end.

(** [strings.Join] with the empty separator. *)
Definition Join (l : list string) : string := String.concat "" l.

Definition HasPrefix (s p : string) : bool := String.prefix p s.

Definition HasSuffix (s p : string) : bool :=
  (Nat.leb (String.length p) (String.length s))
  && String.eqb (substring (String.length s - String.length p) (String.length p) s) p.

(** The slice [s[lo:hi]], for [lo <= hi <= len(s)]. *)
Definition slice (s : string) (lo hi : nat) : string := substring lo (hi - lo) s.

(** The decimal numeral that [%d] prints. *)
Definition itoa (n : N) : string := NilEmpty.string_of_uint (N.to_uint n).

Definition hexDigit (n : N) : ascii :=
  if n <? 10 then ascii_of_N (48 + n) else ascii_of_N (87 + n).

(** One byte of a string under [strconv.Quote]. *)
Definition quoteByte (c : ascii) : string :=
  let n := N_of_ascii c in
  if Ascii.eqb c dquote then String "\" (String dquote EmptyString)
  else if Ascii.eqb c "\" then "\\"
  else if (32 <=? n) && negb (n =? 127) then String c EmptyString
  else match n with
       | 7 => "\a" | 8 => "\b" | 12 => "\f" | 10 => "\n"
       | 13 => "\r" | 9 => "\t" | 11 => "\v"
       | _ => "\x" +:+ String (hexDigit (n / 16)) (String (hexDigit (n mod 16)) EmptyString)
       end.

Fixpoint quoteBody (s : string) : string :=
  match s with
  | EmptyString => EmptyString
  | String c s' => quoteByte c +:+ quoteBody s'
  end.

(** What [%q] prints for a string. *)
Definition Quote (s : string) : string :=
  String dquote (quoteBody s +:+ String dquote EmptyString).

End GoString.
Import GoString.

(** ** The document tree: yaml.v3's [Node] *)

(** The fields of [yaml.Node] that the package copies but never reads. *)
Record NodeMeta : Type := mkMeta {
  Style : N;
  Anchor : string;
  HeadComment : string;
  LineComment : string;
  FootComment : string;
  Line : Z;
  Column : Z
}.

Definition zeroMeta : NodeMeta := mkMeta 0 "" "" "" "" 0%Z 0%Z.

#[warnings="-register-all"]
Inductive Node : Type := mkNode {
  Kind : N;
  Tag : string;
  Value : string;
  Content : list Node;
  Meta : NodeMeta
}.

Definition DocumentNode : N := 1.
Definition SequenceNode : N := 2.
Definition MappingNode : N := 4.
Definition ScalarNode : N := 8.
Definition AliasNode : N := 16.

Definition setContent (n : Node) (c : list Node) : Node :=
  mkNode (Kind n) (Tag n) (Value n) c (Meta n).
Definition setKind (n : Node) (k : N) : Node :=
  mkNode k (Tag n) (Value n) (Content n) (Meta n).

Definition isKind (k : N) (n : Node) : bool := Kind n =? k.

Definition isMapping (n : Node) : bool := isKind MappingNode n.

(** [scalarNode]: a string scalar, every other field zero. *)
Definition scalarNode (value : string) : Node :=
  mkNode ScalarNode "!!str" value [] zeroMeta.

(** The loop of [getMapValue] over [m.Content]: keys at the even indices,
    values at the odd ones; [m.Content[i+1]] is out of range when a key is
    the last element. *)
Fixpoint lookupPairs (key : string) (c : list Node) : res (option Node) :=
  match c with
  | [] => Val None
  | [_] => Panic
  | k :: v :: rest =>
      if String.eqb (Value k) key then Val (Some v) else lookupPairs key rest
  end.

Definition getMapValue (m : option Node) (key : string) : res (option Node) :=
  match m with
  | None => Val None
  | Some m => if isMapping m then lookupPairs key (Content m) else Val None
  end.

Definition getMapValueExists (m : option Node) (key : string) : res (option Node * bool) :=
  let* v := getMapValue m key in
  Val (v, match v with Some _ => true | None => false end).

(** Writing through the pointer that [getMapValue m key] returned: the value
    of the first entry whose key is [key] becomes [v]. *)
Fixpoint updatePairs (key : string) (v' : Node) (c : list Node) : list Node :=
  match c with
  | k :: v :: rest =>
      if String.eqb (Value k) key then k :: v' :: rest
      else k :: v :: updatePairs key v' rest
  | _ => c
  end.

Definition setMapValue (m : Node) (key : string) (v' : Node) : Node :=
  setContent m (updatePairs key v' (Content m)).

(** [ensureMapValue] returns the node [m] as it has been mutated and the
    value found or created under [key]. *)
Definition ensureMapValue (m : Node) (key : string) : res (Node * Node) :=
  let m1 := if isMapping m then m else setContent (setKind m MappingNode) [] in
  let* found := getMapValue (Some m1) key in
  match found with
  | Some v => Val (m1, v)
  | None =>
      let k := scalarNode key in
      let v := mkNode MappingNode "" "" [] zeroMeta in
      Val (setContent m1 (Content m1 ++ [k; v])%list, v)
  end.

Definition appendMapEntry (m : Node) (key : string) (value : Node) : Node :=
  setContent m (Content m ++ [scalarNode key; value])%list.

(** [cloneNode] on a non-nil node: a copy of every field, the children
    cloned in turn. *)
Fixpoint cloneNode (n : Node) : Node :=
  match n with
  | mkNode k t v cs m => mkNode k t v (List.map cloneNode cs) m
  end.

Definition isRefOnlySchema (schema : Node) : bool :=
  if negb (isMapping schema) then false
  else if negb (Nat.eqb (List.length (Content schema)) 2) then false
  else match Content schema with
       | k :: _ => String.eqb (Value k) "$ref"
       | [] => false
       end.

Definition makeRefOnlySchema (schema : Node) (compositeName : string) : Node :=
  let key := scalarNode "$ref" in
  let val := scalarNode ("#/components/schemas/" +:+ compositeName) in
  setContent schema [key; val].

(** ** Fingerprints *)

(** The text that [writeNodeFingerprint] appends to the builder for a
    non-nil node. *)
Fixpoint treeFingerprint (n : Node) : string :=
  match n with
  | mkNode k t v cs _ =>
      "K:" +:+ itoa k +:+ ";T:" +:+ t +:+ ";V:" +:+ Quote v +:+ ";" +:+
      match cs with
      | [] => ""
      | _ :: _ =>
          "[" +:+
          (fix children (l : list Node) : string :=
             match l with
             | [] => ""
             | c :: l' => treeFingerprint c +:+ "|" +:+ children l'
             end) cs +:+ "]"
      end
  end.

Definition writeNodeFingerprint (n : option Node) : string :=
  match n with
  | None => "nil;"
  | Some n => treeFingerprint n
  end.

Definition schemaFingerprint (n : option Node) : string := writeNodeFingerprint n.

(** ** Go maps *)

(** A [map[string]V] as the package uses it: created empty, read and written
    by key, never iterated.  [gm_keys] lists the keys held (a Go map is
    finite); it only bounds the search of [ensureUniqueName]. *)
Class GoMap (V M : Type) : Type := {
  gm_empty : M;
  gm_get : M -> string -> option V;
  gm_set : M -> string -> V -> M;
  gm_keys : M -> list string;
  gm_get_empty : forall k, gm_get gm_empty k = None;
  gm_get_set_eq : forall m k v, gm_get (gm_set m k v) k = Some v;
  gm_get_set_ne : forall m k k' v, k <> k' -> gm_get (gm_set m k v) k' = gm_get m k';
  gm_keys_spec : forall m k v, gm_get m k = Some v -> In k (gm_keys m)
}.

(** Two layouts of a Go map: stdpp's [gmap], and an association list that
    keeps every binding ever written, the newest first. *)
#[export, refine] Instance gmap_GoMap (V : Type) : GoMap V (gmap string V) := {
  gm_empty := ∅;
  gm_get m k := m !! k;
  gm_set m k v := <[k := v]> m;
  gm_keys m := (map_to_list m).*1
}.
Proof.
  - intros k. apply lookup_empty.
  - intros m k v. apply lookup_insert_eq.
  - intros m k k' v Hne. by apply lookup_insert_ne.
  - intros m k v Hk. apply list_elem_of_In, list_elem_of_fmap.
    exists (k, v). split; [done|]. by apply elem_of_map_to_list.
Defined.

Fixpoint assocGet {V : Type} (l : list (string * V)) (k : string) : option V :=
  match l with
  | [] => None
  | (k', v) :: l' => if String.eqb k' k then Some v else assocGet l' k
  end.

#[export, refine] Instance assoc_GoMap (V : Type) : GoMap V (list (string * V)) := {
  gm_empty := [];
  gm_get := assocGet;
  gm_set m k v := (k, v) :: m;
  gm_keys m := List.map fst m
}.
Proof.
  - done.
  - intros m k v. simpl. by rewrite String.eqb_refl.
  - intros m k k' v Hne. simpl. apply String.eqb_neq in Hne. by rewrite Hne.
  - intros m k v. induction m as [|[k' v'] m IH]; simpl; [done|].
    destruct (String.eqb_spec k' k); [auto|]. intros Hk. right. by apply IH.
Defined.

(** ** Name derivation *)

(** [toPascalCase]: the parts between [_] and [-], the empty ones dropped,
    each with its first rune in upper case. *)
Definition upperFirst (part : string) : string :=
  match part with
  | EmptyString => EmptyString
  | String c rest => String (toUpperByte c) rest
  end.

Definition toPascalCase (s : string) : string :=
  let s := ReplaceAll s "-" "_" in
  let parts := Split s "_" in
  Join (List.map upperFirst
          (List.filter (fun part => negb (String.eqb part "")) parts)).

Definition verbPrefixes : list string :=
  ["get_"; "post_"; "put_"; "delete_";
   "patch_"; "options_"; "head_";
   "list_"; "create_"; "update_"; "remove_"].

(** The loop of [deriveSchemaName] over the prefixes: the first one that
    [lower] starts with is cut from [operationID]. *)
Fixpoint stripVerbPrefix (lower operationID : string) (ps : list string) : string :=
  match ps with
  | [] => operationID
  | p :: ps' =>
      if HasPrefix lower p
      then slice operationID (String.length p) (String.length operationID)
      else stripVerbPrefix lower operationID ps'
  end.

Definition deriveSchemaName (operationID : string) : string :=
  if String.eqb operationID "" then ""
  else
    let lower := ToLower operationID in
    let operationID := stripVerbPrefix lower operationID verbPrefixes in
    if String.eqb operationID "" then ""
    else toPascalCase operationID.

Definition deriveNameFromPathAndMethod (path method : string) : string :=
  let parts := Split path "/" in
  let out :=
    List.map (fun p =>
                let p := if HasPrefix p "{" && HasSuffix p "}"
                         then slice p 1 (String.length p - 1) else p in
                toPascalCase p)
             (List.filter (fun p => negb (String.eqb p "")) parts) in
  let out := (out ++ [toPascalCase (ToLower method)])%list in
  Join out.

Definition deriveResponseSchemaNameHint (path method operationID status : string) : string :=
  let base := deriveSchemaName operationID in
  let base := if String.eqb base "" then deriveNameFromPathAndMethod path method else base in
  let base := if String.eqb base "" then "Response" else base in
  let statusSuffix := if String.eqb status "" then "Default" else status in
  base +:+ toPascalCase statusSuffix +:+ "Response".

(** ** The alternatives idiom *)

Definition valueIs (n : option Node) (s : string) : bool :=
  match n with
  | None => false
  | Some n => String.eqb (Value n) s
  end.

Definition isInlineObjectWithAlternatives (baseNode extNode : Node) : res bool :=
  if negb (isMapping baseNode) || negb (isMapping extNode) then Val false else
  let* baseType := getMapValue (Some baseNode) "type" in
  if negb (valueIs baseType "object") then Val false else
  let* extType := getMapValue (Some extNode) "type" in
  if negb (valueIs extType "object") then Val false else
  let* extProps := getMapValue (Some extNode) "properties" in
  match extProps with
  | None => Val false
  | Some extProps =>
  if negb (isMapping extProps) then Val false else
  let* alts := getMapValue (Some extProps) "alternatives" in
  match alts with
  | None => Val false
  | Some alts =>
  if negb (isMapping alts) then Val false else
  let* altType := getMapValue (Some alts) "type" in
  if negb (valueIs altType "array") then Val false else
  let* items := getMapValue (Some alts) "items" in
  match items with
  | None => Val false
  | Some items =>
  if negb (isMapping items) then Val false else
  let* itemsType := getMapValue (Some items) "type" in
  if negb (valueIs itemsType "object") then Val false else
  Val true
  end end end.

Definition mappingOf (c : list Node) : Node := mkNode MappingNode "" "" c zeroMeta.
Definition sequenceOf (c : list Node) : Node := mkNode SequenceNode "" "" c zeroMeta.

Definition buildCompositeSchema (baseName : string) : Node :=
  let refValue := "#/components/schemas/" +:+ baseName in
  mappingOf [
    scalarNode "allOf";
    sequenceOf [
      mappingOf [scalarNode "$ref"; scalarNode refValue];
      mappingOf [
        scalarNode "type"; scalarNode "object";
        scalarNode "properties";
        mappingOf [
          scalarNode "alternatives";
          mappingOf [
            scalarNode "type"; scalarNode "array";
            scalarNode "description"; scalarNode "An array of other possible matches";
            scalarNode "items";
            mappingOf [scalarNode "$ref"; scalarNode refValue]
          ]
        ]
      ]
    ]
  ].

Record Options : Type := mkOptions { DryRun : bool; Verbose : bool }.

(** The loop of [processResponseSchema] over the three spellings of the
    JSON media type: the first spelling that [contentNode] has a value for,
    with that value. *)
Definition jsonContentTypes : list string :=
  ["application/json; charset=UTF-8";
   "application/json";
   "application/json; charset=utf-8"].

Fixpoint selectContentType (contentNode : Node) (types : list string)
  : res (option (string * Node)) :=
  match types with
  | [] => Val None
  | contentType :: types' =>
      let* appJSON := getMapValue (Some contentNode) contentType in
      match appJSON with
      | Some appJSON => Val (Some (contentType, appJSON))
      | None => selectContentType contentNode types'
      end
  end.

(** ** The schema registry *)

Section Registry.
Context {FM NS : Type} `{!GoMap string FM} `{!GoMap unit NS}.

(** [schemasNode] is the live value of the [components.schemas] node: the
    Go struct holds the pointer and every append goes through it. *)
Record schemaRegistry : Type := mkRegistry {
  byFingerprint : FM;
  existingNames : NS;
  schemasNode : Node
}.

Definition registerName (r : schemaRegistry) (name : string) : schemaRegistry :=
  mkRegistry (byFingerprint r) (gm_set (existingNames r) name tt) (schemasNode r).
Definition registerFingerprint (r : schemaRegistry) (fp name : string) : schemaRegistry :=
  mkRegistry (gm_set (byFingerprint r) fp name) (existingNames r) (schemasNode r).
Definition withSchemasNode (r : schemaRegistry) (n : Node) : schemaRegistry :=
  mkRegistry (byFingerprint r) (existingNames r) n.

(** The seeding loop of [newSchemaRegistry] over [schemas.Content]. *)
Fixpoint seedRegistry (c : list Node) (r : schemaRegistry) : res schemaRegistry :=
  match c with
  | [] => Val r
  | [_] => Panic
  | nameNode :: schemaNode :: rest =>
      let name := Value nameNode in
      let r := registerName r name in
      let fp := schemaFingerprint (Some schemaNode) in
      let r := if negb (String.eqb fp "") then registerFingerprint r fp name else r in
      seedRegistry rest r
  end.

Definition newSchemaRegistry (schemas : Node) : res schemaRegistry :=
  let r := mkRegistry gm_empty gm_empty schemas in
  if isMapping schemas then seedRegistry (Content schemas) r else Val r.

(** The [for] loop of [ensureUniqueName]: [name] is tried, then
    [base2], [base3], ...  The recursion is on [fuel];
    [uniqueNameLoop_fuel] shows that one more round than the map has keys
    always reaches a free name, so the loop never runs out. *)
Fixpoint uniqueNameLoop (fuel : nat) (names : NS) (base name : string) (i : N)
  : option string :=
  match fuel with
  | O => None
  | S fuel' =>
      match gm_get names name with
      | None => Some name
      | Some _ => uniqueNameLoop fuel' names base (base +:+ itoa i) (i + 1)
      end
  end.

Definition ensureUniqueName (r : schemaRegistry) (base fp : string) : res string :=
  let* existing := getMapValue (Some (schemasNode r)) base in
  if match existing with
     | Some existing => String.eqb (schemaFingerprint (Some existing)) fp
     | None => false
     end
  then Val base
  else
    match uniqueNameLoop (S (List.length (gm_keys (existingNames r))))
                         (existingNames r) base base 2 with
    | Some name => Val name
    | None => Panic
    end.

(** [componentizeSchema] returns the schema node as it is afterwards, the
    registry as it is afterwards, and the name and flag of the Go return
    (the error returned is always nil). *)
Definition componentizeSchema (r : schemaRegistry) (schemaNode : option Node)
    (nameHint : string) (opts : Options)
  : res (option Node * schemaRegistry * (string * bool)) :=
  match schemaNode with
  | None => Val (None, r, ("", false))
  | Some node =>
      if negb (isMapping node) then Val (Some node, r, ("", false))
      else if isRefOnlySchema node then Val (Some node, r, ("", false))
      else
        let fp := schemaFingerprint (Some node) in
        match gm_get (byFingerprint r) fp with
        | Some existingName =>
            Val (Some (makeRefOnlySchema node existingName), r, (existingName, true))
        | None =>
            let candidate := if String.eqb nameHint "" then "InlineSchema" else nameHint in
            let* name := ensureUniqueName r candidate fp in
            let cloned := cloneNode node in
            let r := withSchemasNode r (appendMapEntry (schemasNode r) name cloned) in
            let r := registerName r name in
            let r := registerFingerprint r fp name in
            Val (Some (makeRefOnlySchema node name), r, (name, true))
        end
  end.

(** [handleAlternativesPattern].  Its [schemasNode] argument is the pointer
    that the registry holds ([RefactorInlineResponseSchemas] builds the
    registry from the node it passes down), so the embedding reads and
    appends through [schemasNode reg]. *)
Definition handleAlternativesPattern (path method operationID status : string)
    (schemaNode baseNode : Node) (reg : schemaRegistry) (opts : Options)
  : res (Node * schemaRegistry * bool) :=
  let baseName := deriveSchemaName operationID in
  if String.eqb baseName "" then
    let nameHint := deriveResponseSchemaNameHint path method operationID status in
    let* '(node, reg, (_, changed)) := componentizeSchema reg (Some schemaNode) nameHint opts in
    Val (default schemaNode node, reg, changed)
  else
    let compositeName := baseName +:+ "WithAlternatives" in
    let* '(_, haveBase) := getMapValueExists (Some (schemasNode reg)) baseName in
    let reg :=
      if negb haveBase then
        let baseSchemaNode := cloneNode baseNode in
        let reg := withSchemasNode reg (appendMapEntry (schemasNode reg) baseName baseSchemaNode) in
        let reg := registerName reg baseName in
        registerFingerprint reg (schemaFingerprint (Some baseSchemaNode)) baseName
      else reg in
    let* '(_, haveComposite) := getMapValueExists (Some (schemasNode reg)) compositeName in
    let reg :=
      if negb haveComposite then
        let compositeSchemaNode := buildCompositeSchema baseName in
        let reg := withSchemasNode reg (appendMapEntry (schemasNode reg) compositeName compositeSchemaNode) in
        let reg := registerName reg compositeName in
        registerFingerprint reg (schemaFingerprint (Some compositeSchemaNode)) compositeName
      else reg in
    Val (makeRefOnlySchema schemaNode compositeName, reg, true).

(** The rewrite of the schema of one response, once the schema has been
    found not to be a bare reference. *)
Definition rewriteSchema (path method operationID status : string)
    (schemaNode : Node) (reg : schemaRegistry) (opts : Options)
  : res (Node * schemaRegistry * bool) :=
  let plain :=
    let nameHint := deriveResponseSchemaNameHint path method operationID status in
    let* '(node, reg, (_, changed)) := componentizeSchema reg (Some schemaNode) nameHint opts in
    Val (default schemaNode node, reg, changed) in
  let* allOfNode := getMapValue (Some schemaNode) "allOf" in
  match allOfNode with
  | Some allOfNode =>
      if isKind SequenceNode allOfNode && Nat.eqb (List.length (Content allOfNode)) 2 then
        match Content allOfNode with
        | baseNode :: extNode :: _ =>
            let* matched := isInlineObjectWithAlternatives baseNode extNode in
            if matched
            then handleAlternativesPattern path method operationID status
                                           schemaNode baseNode reg opts
            else plain
        | _ => plain
        end
      else plain
  | None => plain
  end.

(** [processResponseSchema] returns the response node as it is afterwards,
    the registry, and the flag of the Go return. *)
Definition processResponseSchema (path method operationID status : string)
    (responseNode : Node) (reg : schemaRegistry) (opts : Options)
  : res (Node * schemaRegistry * bool) :=
  let unchanged := Val (responseNode, reg, false) in
  if negb (isMapping responseNode) then unchanged else
  let* contentNode := getMapValue (Some responseNode) "content" in
  match contentNode with
  | None => unchanged
  | Some contentNode =>
  if negb (isMapping contentNode) then unchanged else
  let* selected := selectContentType contentNode jsonContentTypes in
  match selected with
  | None => unchanged
  | Some (contentType, appJSON) =>
  if negb (isMapping appJSON) then unchanged else
  let* schemaNode := getMapValue (Some appJSON) "schema" in
  match schemaNode with
  | None => unchanged
  | Some schemaNode =>
  if negb (isMapping schemaNode) then unchanged else
  if isRefOnlySchema schemaNode then unchanged else
  let* '(schemaNode', reg, changed) :=
    rewriteSchema path method operationID status schemaNode reg opts in
  let appJSON' := setMapValue appJSON "schema" schemaNode' in
  let contentNode' := setMapValue contentNode contentType appJSON' in
  Val (setMapValue responseNode "content" contentNode', reg, changed)
  end end end.

End Registry.

(** ** The document walker *)

(** The shape of every loop of the walker: [for i := 0; i < len(c); i += 2]
    reading the key [c[i]] and the value [c[i+1]], with a body that may
    mutate the value and the state it shares with the other rounds. *)
Fixpoint walkPairs {S : Type} (body : Node -> Node -> S -> res (Node * S))
    (c : list Node) (s : S) : res (list Node * S) :=
  match c with
  | [] => Val ([], s)
  | [_] => Panic
  | k :: v :: rest =>
      let* '(v', s) := body k v s in
      let* '(rest', s) := walkPairs body rest s in
      Val (k :: v' :: rest', s)
  end.

Section Walker.
Context {FM NS : Type} `{!GoMap string FM} `{!GoMap unit NS}.

Local Abbreviation registry := (@schemaRegistry FM NS).

Definition httpMethods : list string :=
  ["get"; "post"; "put"; "delete"; "patch"; "options"; "head"].

Definition isHTTPMethod (method : string) : bool :=
  existsb (String.eqb method) httpMethods.

(** The body of the loop over [respNode.Content]. *)
Definition walkResponse (path method operationID : string) (opts : Options)
    (codeKey codeVal : Node) (st : registry * bool) : res (Node * (registry * bool)) :=
  let '(reg, changed) := st in
  let* '(codeVal, reg, changedHere) :=
    processResponseSchema path method operationID (Value codeKey) codeVal reg opts in
  Val (codeVal, (reg, if changedHere then true else changed)).

(** The body of the loop over [pathVal.Content]. *)
Definition walkOperation (pathKey : Node) (opts : Options)
    (methodKey methodVal : Node) (st : registry * bool) : res (Node * (registry * bool)) :=
  let method := Value methodKey in
  if negb (isHTTPMethod method) then Val (methodVal, st) else
  if negb (isMapping methodVal) then Val (methodVal, st) else
  let* opIDNode := getMapValue (Some methodVal) "operationId" in
  let operationID :=
    match opIDNode with
    | Some opIDNode => if isKind ScalarNode opIDNode then Value opIDNode else ""
    | None => ""
    end in
  let* respNode := getMapValue (Some methodVal) "responses" in
  match respNode with
  | None => Val (methodVal, st)
  | Some respNode =>
      if negb (isMapping respNode) then Val (methodVal, st) else
      let* '(c, st) :=
        walkPairs (walkResponse (Value pathKey) method operationID opts)
                  (Content respNode) st in
      Val (setMapValue methodVal "responses" (setContent respNode c), st)
  end.

(** The body of the loop over [pathsNode.Content]. *)
Definition walkPath (opts : Options)
    (pathKey pathVal : Node) (st : registry * bool) : res (Node * (registry * bool)) :=
  if negb (isMapping pathVal) then Val (pathVal, st) else
  let* '(c, st) := walkPairs (walkOperation pathKey opts) (Content pathVal) st in
  Val (setContent pathVal c, st).

(** [RefactorInlineResponseSchemas] returns the root as it is afterwards
    and the flag; an error is [Err]. *)
Definition RefactorInlineResponseSchemas (root : Node) (opts : Options)
  : res (Node * bool) :=
  if negb (isKind DocumentNode root) || Nat.eqb (List.length (Content root)) 0
  then Err "expected YAML document" else
  match Content root with
  | [] => Err "expected YAML document"
  | top :: others =>
  if negb (isMapping top) then Err "expected top-level mapping" else
  let* '(top, componentsNode) := ensureMapValue top "components" in
  let* '(componentsNode, schemasNode0) := ensureMapValue componentsNode "schemas" in
  let top := setMapValue top "components" componentsNode in
  let* reg := newSchemaRegistry schemasNode0 in
  let* pathsNode := getMapValue (Some top) "paths" in
  match pathsNode with
  | None => Err "missing or invalid 'paths' section"
  | Some pathsNode =>
  if negb (isMapping pathsNode) then Err "missing or invalid 'paths' section" else
  let* '(c, (reg, changed)) :=
    walkPairs (walkPath opts) (Content pathsNode) (reg, false) in
  let componentsNode := setMapValue componentsNode "schemas" (schemasNode reg) in
  let top := setMapValue top "components" componentsNode in
  let top := setMapValue top "paths" (setContent pathsNode c) in
  Val (setContent root (top :: others), changed)
  end end.

End Walker.


(** ** Files: [FormatFile] and the command *)

(** The files of the machine, by path. *)
Abbreviation FS := (gmap string string).

(** What the run depends on outside the package: yaml.v3 and the operating
    system.  [env_decode] is [yaml.NewDecoder(f).Decode] on the bytes of the
    input ([None]: an error).  [env_creatable] tells whether [os.Create]
    succeeds on a path; when it does the file exists and is empty.
    [env_encode] gives the bytes that have reached the file when
    [enc.Encode] and the deferred [enc.Close] are over, and whether
    [Encode] returned nil. *)
Record Env : Type := mkEnv {
  env_decode : string -> option Node;
  env_creatable : FS -> string -> bool;
  env_encode : FS -> string -> Node -> string * bool
}.

Section FormatFile.
Context {FM NS : Type} `{!GoMap string FM} `{!GoMap unit NS}.
Variable env : Env.

Definition parseYAML (input : string) : res Node :=
  match env_decode env input with
  | Some root => Val root
  | None => Err "decode YAML"
  end.

Definition writeYAML (fs : FS) (outPath : string) (root : Node) : FS * res unit :=
  let '(bytes, ok) := env_encode env fs outPath root in
  (<[outPath := bytes]> fs, if ok then Val tt else Err "encode YAML").

(** [FormatFile] returns the files as they are afterwards and the error
    returned ([Val tt] for nil). *)
Definition FormatFile (fs : FS) (inPath outPath : string) (opts : Options) : FS * res unit :=
  match fs !! inPath with
  | None => (fs, Err "open input")
  | Some input =>
      match parseYAML input with
      | Err e => (fs, Err e)
      | Panic => (fs, Panic)
      | Val root =>
          match RefactorInlineResponseSchemas (FM := FM) (NS := NS) root opts with
          | Err e => (fs, Err e)
          | Panic => (fs, Panic)
          | Val (root, changed) =>
              if DryRun opts then (fs, Val tt)
              else if negb changed then (fs, Val tt)
              else if negb (env_creatable env fs outPath) then (fs, Err "create output")
              else writeYAML (<[outPath := ""]> fs) outPath root
          end
      end
  end.

(** [cmd/specfmt]: the arguments of the [format] command and its [Run]. *)
Record FormatCmd : Type := mkFormatCmd {
  Input : string;
  Output : string;
  CmdDryRun : bool;
  CmdVerbose : bool
}.

Definition Run (cmd : FormatCmd) (fs : FS) : FS * res unit :=
  let out := if String.eqb (Output cmd) "" then Input cmd else Output cmd in
  FormatFile fs (Input cmd) out (mkOptions (CmdDryRun cmd) (CmdVerbose cmd)).

End FormatFile.

(** ** Names tried by [ensureUniqueName] *)

(** The names that the loop of [ensureUniqueName] tries, in order: [base],
    then [base2], [base3], ... *)
Definition candidateName (base : string) (j : nat) : string :=
  match j with
  | O => base
  | S _ => base +:+ itoa (N.of_nat j + 1)
  end.

(** ** Reading a document *)

(** The nodes that [processResponseSchema] goes through to reach the schema
    of a response: the [content] mapping, the spelling of the JSON media
    type that was chosen with its value, and the [schema] mapping under it.
    [None] when one of the checks on the way sends the function back. *)
Definition locateSchema (responseNode : Node)
  : res (option (Node * string * Node * Node)) :=
  if negb (isMapping responseNode) then Val None else
  let* contentNode := getMapValue (Some responseNode) "content" in
  match contentNode with
  | None => Val None
  | Some contentNode =>
  if negb (isMapping contentNode) then Val None else
  let* selected := selectContentType contentNode jsonContentTypes in
  match selected with
  | None => Val None
  | Some (contentType, appJSON) =>
  if negb (isMapping appJSON) then Val None else
  let* schemaNode := getMapValue (Some appJSON) "schema" in
  match schemaNode with
  | None => Val None
  | Some schemaNode =>
  if negb (isMapping schemaNode) then Val None
  else Val (Some (contentNode, contentType, appJSON, schemaNode))
  end end end.

(** The response node once the schema reached that way has become
    [schemaNode']. *)
Definition putSchema (responseNode : Node) (loc : Node * string * Node * Node)
    (schemaNode' : Node) : Node :=
  let '(contentNode, contentType, appJSON, _) := loc in
  setMapValue responseNode "content"
    (setMapValue contentNode contentType (setMapValue appJSON "schema" schemaNode')).

(** The schema of the JSON body of a response, when it has one. *)
Definition responseSchema (responseNode : Node) : option Node :=
  match locateSchema responseNode with
  | Val (Some (_, _, _, schemaNode)) => Some schemaNode
  | _ => None
  end.

(** The [components.schemas] node of a document, and the schema stored
    there under a name. *)
Definition schemasOf (root : Node) : res (option Node) :=
  match Content root with
  | top :: _ =>
      let* components := getMapValue (Some top) "components" in
      getMapValue components "schemas"
  | [] => Val None
  end.

Definition component (root : Node) (name : string) : res (option Node) :=
  let* schemas := schemasOf root in
  getMapValue schemas name.

(** The alternatives idiom in the words of the specification: [baseNode] is
    a mapping of type [object]; [extNode] is a mapping of type [object]
    whose [properties.alternatives] is a mapping of type [array] with
    [items] a mapping of type [object]. *)
Definition hasType (n : Node) (ty : string) : Prop :=
  exists t, getMapValue (Some n) "type" = Val (Some t) /\ Value t = ty.

Definition AlternativesShape (baseNode extNode : Node) : Prop :=
  isMapping baseNode = true /\ hasType baseNode "object" /\
  isMapping extNode = true /\ hasType extNode "object" /\
  exists props alts items,
    getMapValue (Some extNode) "properties" = Val (Some props) /\ isMapping props = true /\
    getMapValue (Some props) "alternatives" = Val (Some alts) /\ isMapping alts = true /\
    hasType alts "array" /\
    getMapValue (Some alts) "items" = Val (Some items) /\ isMapping items = true /\
    hasType items "object".

(** ** Relations used in the statements *)

(** Nothing is stored in [c] under the key [t]. *)
Definition absentIn (c : Node) (t : string) : Prop := getMapValue (Some c) t = Val None.

(** The second registry is the first after some entries have been appended
    to [components.schemas]. *)
Definition Appends {FM NS FM' NS' : Type}
    (reg : @schemaRegistry FM NS) (reg' : @schemaRegistry FM' NS') : Prop :=
  exists added,
    Nat.even (List.length added) = true
    /\ schemasNode reg' = setContent (schemasNode reg) (Content (schemasNode reg) ++ added)%list.

(** Two results of the same kind, with related values when there are
    values. *)
Definition resRel {A B : Type} (R : A -> B -> Prop) (r1 : res A) (r2 : res B) : Prop :=
  match r1, r2 with
  | Val a, Val b => R a b
  | Err e1, Err e2 => e1 = e2
  | Panic, Panic => True
  | _, _ => False
  end.

(** Two pairs with the same first component and related states. *)
Definition stateRel {A S1 S2 : Type} (R : S1 -> S2 -> Prop)
    (x : A * S1) (y : A * S2) : Prop :=
  x.1 = y.1 /\ R x.2 y.2.

(** Two registries, over any two layouts of the Go maps, that hold the same
    [components.schemas] node and answer every lookup alike. *)
Definition sameLookups {FM1 NS1 FM2 NS2 : Type}
    `{!GoMap string FM1} `{!GoMap unit NS1} `{!GoMap string FM2} `{!GoMap unit NS2}
    (r1 : @schemaRegistry FM1 NS1) (r2 : @schemaRegistry FM2 NS2) : Prop :=
  schemasNode r1 = schemasNode r2
  /\ (forall k, gm_get (byFingerprint r1) k = gm_get (byFingerprint r2) k)
  /\ (forall k, gm_get (existingNames r1) k = gm_get (existingNames r2) k).

(** The pair of a registry and the flag accumulated by the walker, over two
    layouts. *)
Definition sameState {FM1 NS1 FM2 NS2 : Type}
    `{!GoMap string FM1} `{!GoMap unit NS1} `{!GoMap string FM2} `{!GoMap unit NS2}
    (s1 : @schemaRegistry FM1 NS1 * bool) (s2 : @schemaRegistry FM2 NS2 * bool) : Prop :=
  sameLookups s1.1 s2.1 /\ s1.2 = s2.2.

(** The entries of a mapping, key by key, and their names. *)
Fixpoint entriesOf (c : list Node) : list (string * Node) :=
  match c with
  | k :: v :: rest => (Value k, v) :: entriesOf rest
  | _ => []
  end.

Definition entryNames (c : list Node) : list string := List.map fst (entriesOf c).

(** The entries that [components.schemas] has when the run starts: none when
    the node is missing. *)
Definition initialEntries (root : Node) : list Node :=
  match schemasOf root with
  | Val (Some schemas) => Content schemas
  | _ => []
  end.

(** The [paths] node of a document. *)
Definition pathsOf (root : Node) : res (option Node) :=
  match Content root with
  | top :: _ => getMapValue (Some top) "paths"
  | [] => Val None
  end.

(** The registry describes a [components.schemas] mapping: every name in it
    is in [existingNames] and the fingerprint of every schema in it is in
    [byFingerprint]. *)
Definition RegistryOK {FM NS : Type} `{!GoMap string FM} `{!GoMap unit NS}
    (reg : @schemaRegistry FM NS) : Prop :=
  isMapping (schemasNode reg) = true
  /\ Nat.even (List.length (Content (schemasNode reg))) = true
  /\ forall name schema,
       In (name, schema) (entriesOf (Content (schemasNode reg))) ->
       gm_get (existingNames reg) name <> None
       /\ gm_get (byFingerprint reg) (schemaFingerprint (Some schema)) <> None.

(** [c'] is [c] followed by entries whose names are new: different from the
    names in [c] and from one another. *)
Definition FreshlyExtends (c c' : list Node) : Prop :=
  exists added,
    c' = (c ++ added)%list
    /\ Nat.even (List.length added) = true
    /\ NoDup (entryNames added)
    /\ forall name, In name (entryNames added) -> ~ In name (entryNames c).

(** ** Response schemas by address *)

(** The key and the value that the [i]-th round of a loop over [c] reads. *)
Fixpoint pairAt (c : list Node) (i : nat) : option (Node * Node) :=
  match c with
  | k :: v :: rest =>
      match i with
      | O => Some (k, v)
      | S i' => pairAt rest i'
      end
  | _ => None
  end.

(** What the walker reads in an entry of a path item before it loops over
    the responses: the method, the operation identifier and the
    [responses] mapping.  [None] for an entry that the walker skips. *)
Definition operationResponses (methodKey methodVal : Node)
  : option (string * string * Node) :=
  if isHTTPMethod (Value methodKey) && isMapping methodVal then
    match getMapValue (Some methodVal) "operationId",
          getMapValue (Some methodVal) "responses" with
    | Val opIDNode, Val (Some respNode) =>
        if isMapping respNode then
          Some (Value methodKey,
                match opIDNode with
                | Some opIDNode => if isKind ScalarNode opIDNode then Value opIDNode else ""
                | None => ""
                end,
                respNode)
        else None
    | _, _ => None
    end
  else None.

(** The response that the walker reaches in round [k] of the responses of
    round [j] of the operations of round [i] of the paths, with the
    arguments it passes to [processResponseSchema] for it: path, method,
    operation identifier and status. *)
Definition responseAt (pathsContent : list Node) (addr : nat * nat * nat)
  : option (string * string * string * string * Node) :=
  let '(i, j, k) := addr in
  match pairAt pathsContent i with
  | Some (pathKey, pathVal) =>
      if isMapping pathVal then
        match pairAt (Content pathVal) j with
        | Some (methodKey, methodVal) =>
            match operationResponses methodKey methodVal with
            | Some (method, operationID, respNode) =>
                match pairAt (Content respNode) k with
                | Some (codeKey, codeVal) =>
                    Some (Value pathKey, method, operationID, Value codeKey, codeVal)
                | None => None
                end
            | None => None
            end
        | None => None
        end
      else None
  | None => None
  end.

Definition responseOf (root : Node) (addr : nat * nat * nat)
  : option (string * string * string * string * Node) :=
  match pathsOf root with
  | Val (Some paths) => responseAt (Content paths) addr
  | _ => None
  end.

(** The schema sends [rewriteSchema] to the alternatives rewrite: it has a
    two-element [allOf] of the shape of the idiom and the operation
    identifier gives a base name. *)
Definition takesAlternativesRewrite (operationID : string) (schemaNode : Node) : Prop :=
  deriveSchemaName operationID <> ""
  /\ exists allOfNode baseNode extNode,
       getMapValue (Some schemaNode) "allOf" = Val (Some allOfNode)
       /\ Kind allOfNode = SequenceNode
       /\ Content allOfNode = [baseNode; extNode]
       /\ AlternativesShape baseNode extNode.

(** A document none of whose inline response schemas takes the alternatives
    rewrite. *)
Definition PlainDocument (root : Node) : Prop :=
  forall addr path method operationID status resp schemaNode,
    responseOf root addr = Some (path, method, operationID, status, resp) ->
    responseSchema resp = Some schemaNode ->
    isRefOnlySchema schemaNode = false ->
    ~ takesAlternativesRewrite operationID schemaNode.

(** The fingerprints of the schemas of a list of entries. *)
Definition entryFingerprints (c : list Node) : list string :=
  List.map (fun e => schemaFingerprint (Some e.2)) (entriesOf c).

(** Every fingerprint registered in the first registry is registered under
    the same name in the second. *)
Definition Persists {FM NS : Type} `{!GoMap string FM}
    (reg reg' : @schemaRegistry FM NS) : Prop :=
  forall fp name,
    gm_get (byFingerprint reg) fp = Some name -> gm_get (byFingerprint reg') fp = Some name.

(** The [components.schemas] node of the registry holds [c0] followed by
    entries whose schemas have different fingerprints, all registered. *)
Definition AddedOK {FM NS : Type} `{!GoMap string FM}
    (c0 : list Node) (reg : @schemaRegistry FM NS) : Prop :=
  exists added,
    Content (schemasNode reg) = (c0 ++ added)%list
    /\ Nat.even (List.length added) = true
    /\ NoDup (entryFingerprints added)
    /\ forall fp, In fp (entryFingerprints added) -> gm_get (byFingerprint reg) fp <> None.

(** What a rewrite of a plain response keeps: the registrations, and the
    shape of the entries appended since any earlier state. *)
Definition keeps {FM NS : Type} `{!GoMap string FM}
    (reg reg' : @schemaRegistry FM NS) : Prop :=
  Persists reg reg' /\ forall c0, AddedOK c0 reg -> AddedOK c0 reg'.

(** Every call of [processResponseSchema] on a response among [sites]
    takes the registry to one that is related to it by [R]. *)
Definition stepsRespect {FM NS : Type} `{!GoMap string FM} `{!GoMap unit NS}
    (R : @schemaRegistry FM NS -> @schemaRegistry FM NS -> Prop) (opts : Options)
    (sites : string -> string -> string -> string -> Node -> Prop) : Prop :=
  forall path method operationID status resp reg resp' reg' changed,
    sites path method operationID status resp ->
    processResponseSchema path method operationID status resp reg opts
      = Val (resp', reg', changed) ->
    R reg reg'.

(** [resp'] is what [processResponseSchema] made of [resp] at some point
    between the registries [reg0] and [regF]. *)
Definition siteRun {FM NS : Type} `{!GoMap string FM} `{!GoMap unit NS}
    (R : @schemaRegistry FM NS -> @schemaRegistry FM NS -> Prop) (opts : Options)
    (reg0 regF : @schemaRegistry FM NS) (path method operationID status : string)
    (resp resp' : Node) : Prop :=
  exists reg1 reg2 changed,
    processResponseSchema path method operationID status resp reg1 opts
      = Val (resp', reg2, changed)
    /\ R reg0 reg1 /\ R reg2 regF.

(** ** Sample documents *)

Module Sample.

Definition ymap (c : list Node) : Node := mkNode MappingNode "!!map" "" c zeroMeta.
Definition yseq (c : list Node) : Node := mkNode SequenceNode "!!seq" "" c zeroMeta.
Definition ystr (s : string) : Node := mkNode ScalarNode "!!str" s [] zeroMeta.
Definition ynull : Node := mkNode ScalarNode "!!null" "" [] zeroMeta.
Definition ydoc (top : Node) : Node := mkNode DocumentNode "" "" [top] zeroMeta.

Definition opts0 : Options := mkOptions false false.

(** A response whose JSON body has the schema [schema]. *)
Definition jsonResponse (schema : Node) : Node :=
  ymap [ystr "description"; ystr "OK";
        ystr "content"; ymap [ystr "application/json"; ymap [ystr "schema"; schema]]].

Definition operation (operationID : string) (responses : list Node) : Node :=
  ymap [ystr "operationId"; ystr operationID; ystr "responses"; ymap responses].

Definition objectOf (props : list Node) : Node :=
  ymap [ystr "type"; ystr "object"; ystr "properties"; ymap props].

Definition stringProp : Node := ymap [ystr "type"; ystr "string"].

Definition alternativesOf (base : Node) : Node :=
  ymap [ystr "allOf";
        yseq [base;
              objectOf [ystr "alternatives";
                        ymap [ystr "type"; ystr "array"; ystr "items"; base]]]].

Definition refTo (name : string) : Node :=
  ymap [scalarNode "$ref"; scalarNode ("#/components/schemas/" +:+ name)].

Definition run (root : Node) : res (Node * bool) :=
  RefactorInlineResponseSchemas (FM := gmap string string) (NS := gmap string unit) root opts0.

(** A machine whose decoder yields [root] and whose encoder leaves
    [written] in the file, with or without an error. *)
Definition envOf (root : Node) (written : string * bool) : Env :=
  mkEnv (fun _ => Some root) (fun _ _ => true) (fun _ _ _ => written).

Definition airport : Node := objectOf [ystr "code"; stringProp].
Definition operator : Node := objectOf [ystr "icao"; stringProp].

(** One operation with an inline response schema. *)
Definition inlineDoc : Node :=
  ydoc (ymap [ystr "paths";
              ymap [ystr "/airports/{id}";
                    ymap [ystr "get";
                          operation "get_airport" [ystr "200"; jsonResponse airport]]]]).

(** A document with nothing to rewrite. *)
Definition quietDoc : Node :=
  ydoc (ymap [ystr "paths";
              ymap [ystr "/airports/{id}";
                    ymap [ystr "get";
                          operation "get_airport"
                            [ystr "200"; jsonResponse (refTo "Airport")]]];
              ystr "components";
              ymap [ystr "schemas"; ymap [ystr "Airport"; airport]]]).

(** A response that spells the JSON media type in two ways. *)
Definition twoSpellings : Node :=
  ymap [ystr "content";
        ymap [ystr "application/json; charset=utf-8"; ymap [ystr "schema"; operator];
              ystr "application/json"; ymap [ystr "schema"; airport]]].

(** A registry over association lists, with an empty [components.schemas]. *)
Definition emptyRegistry : @schemaRegistry (list (string * string)) (list (string * unit)) :=
  mkRegistry [] [] (ymap []).

(** A document that already has a component named [Airport]. *)
Definition airportTakenDoc : Node :=
  ydoc (ymap [ystr "paths";
              ymap [ystr "/airports/{id}";
                    ymap [ystr "get";
                          operation "get_airport"
                            [ystr "200"; jsonResponse (alternativesOf airport)]]];
              ystr "components";
              ymap [ystr "schemas"; ymap [ystr "Airport"; stringProp]]]).

(** Two operations whose identifiers give the same base name, each with the
    alternatives idiom over a different object, and an empty
    [schemas:] key, which yaml.v3 decodes as a null scalar. *)
Definition nullSchemasDoc : Node :=
  ydoc (ymap [ystr "paths";
              ymap [ystr "/airports/{id}";
                    ymap [ystr "get";
                          operation "get_airport"
                            [ystr "200"; jsonResponse (alternativesOf airport)];
                          ystr "put";
                          operation "update_airport"
                            [ystr "200"; jsonResponse (alternativesOf operator)]]];
              ystr "components";
              ymap [ystr "schemas"; ynull]]).

(** Two operations with the same inline object as response schema. *)
Definition twoPlainDoc : Node :=
  ydoc (ymap [ystr "paths";
              ymap [ystr "/airports/{id}";
                    ymap [ystr "get";
                          operation "get_airport" [ystr "200"; jsonResponse airport]];
                    ystr "/flights/{id}/track";
                    ymap [ystr "get";
                          operation "" [ystr "200"; jsonResponse airport]]]]).

(** Two operations with the same instance of the alternatives idiom as
    response schema. *)
Definition twoAlternativesDoc : Node :=
  ydoc (ymap [ystr "paths";
              ymap [ystr "/airports/{id}";
                    ymap [ystr "get";
                          operation "get_airport"
                            [ystr "200"; jsonResponse (alternativesOf airport)]];
                    ystr "/operators/{id}";
                    ymap [ystr "get";
                          operation "get_operator"
                            [ystr "200"; jsonResponse (alternativesOf airport)]]]]).

Definition files : FS :=
  {[ "api.yaml" := "openapi: 3.0.0 (input)"; "out.yaml" := "previous output" ]}.

End Sample.

(** ** What a fingerprint reads *)

(** The part of a tree that [writeNodeFingerprint] prints: kind, tag, value
    and children, without the style, the anchor, the comments and the
    position. *)
Fixpoint shape (n : Node) : Node :=
  match n with
  | mkNode k t v cs _ => mkNode k t v (List.map shape cs) zeroMeta
  end.

(** The text printed for the children of a node: each one followed by a
    bar. *)
Fixpoint childrenFingerprint (l : list Node) : string :=
  match l with
  | [] => ""
  | c :: l' => treeFingerprint c +:+ "|" +:+ childrenFingerprint l'
  end.

(** The byte [c] does not occur in [s]. *)
Fixpoint lacksByte (c : ascii) (s : string) : bool :=
  match s with
  | EmptyString => true
  | String c' s' => negb (Ascii.eqb c' c) && lacksByte c s'
  end.

Definition quoteFree (s : string) : bool := lacksByte dquote s.

(** No tag of the tree holds a double quote (none of the tags that yaml.v3
    resolves, such as [!!str] or [!!map], holds one). *)
Fixpoint tagsQuoteFree (n : Node) : bool :=
  match n with
  | mkNode _ t _ cs _ => quoteFree t && forallb tagsQuoteFree cs
  end.

(** Reading back what [strconv.Quote] printed for one byte: the byte and
    the rest of the text.  The package has no such function; it is the
    inverse by which [Quote] is shown to lose nothing. *)
Definition hexValue (c : ascii) : N :=
  let n := N_of_ascii c in
  if (48 <=? n) && (n <=? 57) then n - 48 else n - 87.

Definition unquoteByte (s : string) : option (ascii * string) :=
  match s with
  | EmptyString => None
  | String c rest =>
      if Ascii.eqb c dquote then None
      else if Ascii.eqb c "\" then
        match rest with
        | EmptyString => None
        | String e rest' =>
            if Ascii.eqb e "x" then
              match rest' with
              | String h (String l rest'') =>
                  Some (ascii_of_N (16 * hexValue h + hexValue l), rest'')
              | _ => None
              end
            else if Ascii.eqb e "a" then Some (ascii_of_N 7, rest')
            else if Ascii.eqb e "b" then Some (ascii_of_N 8, rest')
            else if Ascii.eqb e "f" then Some (ascii_of_N 12, rest')
            else if Ascii.eqb e "n" then Some (ascii_of_N 10, rest')
            else if Ascii.eqb e "r" then Some (ascii_of_N 13, rest')
            else if Ascii.eqb e "t" then Some (ascii_of_N 9, rest')
            else if Ascii.eqb e "v" then Some (ascii_of_N 11, rest')
            else Some (e, rest')
        end
      else Some (c, rest)
  end.

(** ** Trees that the walker can read *)

(** Every mapping of the tree has an even number of children: a key and a
    value for each entry, which is what the decoder of yaml.v3 builds. *)
Fixpoint evenMappings (n : Node) : bool :=
  match n with
  | mkNode k _ _ cs _ =>
      (negb (k =? MappingNode) || Nat.even (List.length cs)) && forallb evenMappings cs
  end.

(** The call returns, without an error and without a panic, a value that
    satisfies [P]. *)
Definition returns {A : Type} (P : A -> Prop) (r : res A) : Prop :=
  match r with
  | Val a => P a
  | Err _ => False
  | Panic => False
  end.

(** The checks of [RefactorInlineResponseSchemas] before it walks the
    paths, in their order, with the error of the first that fails. *)
Definition refactorError (root : Node) : option string :=
  if negb (isKind DocumentNode root) then Some "expected YAML document" else
  match Content root with
  | [] => Some "expected YAML document"
  | top :: _ =>
      if negb (isMapping top) then Some "expected top-level mapping" else
      match getMapValue (Some top) "paths" with
      | Val (Some pathsNode) =>
          if isMapping pathsNode then None
          else Some "missing or invalid 'paths' section"
      | _ => Some "missing or invalid 'paths' section"
      end
  end.

(** ** Registries whose fingerprints point at entries *)

(** Every fingerprint that the registry knows is the fingerprint of an
    entry of [components.schemas] with the name registered for it. *)
Definition FingerprintsSound {FM NS : Type} `{!GoMap string FM}
    (reg : @schemaRegistry FM NS) : Prop :=
  forall fp name,
    gm_get (byFingerprint reg) fp = Some name ->
    exists c, In (name, c) (entriesOf (Content (schemasNode reg)))
              /\ schemaFingerprint (Some c) = fp.

(** The registry describes a [components.schemas] mapping in which no name
    occurs twice, and its fingerprints point at entries. *)
Definition Settled {FM NS : Type} `{!GoMap string FM} `{!GoMap unit NS}
    (reg : @schemaRegistry FM NS) : Prop :=
  RegistryOK reg
  /\ NoDup (entryNames (Content (schemasNode reg)))
  /\ FingerprintsSound reg.

(** From a settled registry to a settled registry whose
    [components.schemas] has the same entries and possibly more. *)
Definition settles {FM NS : Type} `{!GoMap string FM} `{!GoMap unit NS}
    (reg reg' : @schemaRegistry FM NS) : Prop :=
  Settled reg ->
  Settled reg'
  /\ exists added,
       Content (schemasNode reg') = (Content (schemasNode reg) ++ added)%list.

(** ** Further sample documents *)

Module Cases.
Import Sample.

(** The object [airport] as a decoder would give it for a source with a
    comment, a flow style and a position. *)
Definition commentedAirport : Node :=
  mkNode MappingNode "!!map" "" (Content airport)
         (mkMeta 32 "" "# an airport" "" "" 12%Z 7%Z).

(** Two trees of different shapes, the tag of a node of each holding the
    text that the other prints for a child. *)
Definition oddTag : string :=
  String ";" (String "V" (String ":" (String dquote (String dquote ";[K:8;T:")))).

Definition oddLeft : Node :=
  mkNode MappingNode "" "" [mkNode ScalarNode oddTag "" [] zeroMeta] zeroMeta.
Definition oddRight : Node :=
  mkNode MappingNode oddTag "" [mkNode ScalarNode "" "" [] zeroMeta] zeroMeta.

(** A document with no [paths] section. *)
Definition noPathsDoc : Node :=
  ydoc (ymap [ystr "openapi"; ystr "3.0.0"]).

(** A document with nothing to rewrite and no [components] section. *)
Definition bareDoc : Node :=
  ydoc (ymap [ystr "paths";
              ymap [ystr "/status";
                    ymap [ystr "parameters"; yseq [];
                          ystr "get";
                          operation "get_status"
                            [ystr "204"; ymap [ystr "description"; ystr "No content"]]]]]).

(** A document with a component [Pet] and a response whose inline schema
    has the shape of that component. *)
Definition reuseDoc : Node :=
  ydoc (ymap [ystr "paths";
              ymap [ystr "/airports/{id}";
                    ymap [ystr "get";
                          operation "get_airport"
                            [ystr "200"; jsonResponse commentedAirport]]];
              ystr "components";
              ymap [ystr "schemas"; ymap [ystr "Pet"; airport]]]).

(** A document with other sections beside [paths] and [components], and
    other sections in [components] beside [schemas]. *)
Definition fullDoc : Node :=
  ydoc (ymap [ystr "openapi"; ystr "3.0.0";
              ystr "info"; ymap [ystr "title"; ystr "AeroAPI"];
              ystr "paths";
              ymap [ystr "/airports/{id}";
                    ymap [ystr "parameters"; yseq [];
                          ystr "get";
                          operation "get_airport" [ystr "200"; jsonResponse airport]]];
              ystr "components";
              ymap [ystr "securitySchemes"; ymap [ystr "ApiKey"; ymap []];
                    ystr "schemas"; ymap [ystr "Pet"; stringProp]]]).

(** A machine whose encoder writes the text [rewritten] for the tree
    that the pass makes of [inlineDoc], and whose decoder reads that tree
    back from it. *)
Definition roundTripEnv : Env :=
  mkEnv (fun bytes =>
           if String.eqb bytes "rewritten"
           then match run inlineDoc with
                | Val (root', _) => Some root'
                | _ => None
                end
           else Some inlineDoc)
        (fun _ _ => true)
        (fun _ _ _ => ("rewritten", true)).

End Cases.

(** * Properties *)

(** ** Lists read two by two *)

Lemma pairs_ind {A : Type} (P : list A -> Prop) :
  P [] -> (forall x, P [x]) -> (forall k v rest, P rest -> P (k :: v :: rest)) ->
  forall l, P l.
Proof.
  intros Hnil Hone Hstep.
  fix IH 1. intros [|k [|v rest]]; [exact Hnil | apply Hone | apply Hstep, IH].
Qed.

Ltac pairs_induction c :=
  induction c as [| ? | ?k ?v ?rest ?IH] using pairs_ind.

Arguments getMapValue : simpl never.
Arguments setMapValue : simpl never.
Arguments makeRefOnlySchema : simpl never.
Arguments appendMapEntry : simpl never.
Arguments schemaFingerprint : simpl never.
Arguments isRefOnlySchema : simpl never.
Arguments deriveSchemaName : simpl never.
Arguments deriveResponseSchemaNameHint : simpl never.
Arguments buildCompositeSchema : simpl never.
Opaque jsonContentTypes.
Arguments isInlineObjectWithAlternatives : simpl never.
Arguments ensureUniqueName : simpl never.
Arguments componentizeSchema : simpl never.
Arguments handleAlternativesPattern : simpl never.
Arguments rewriteSchema : simpl never.
Arguments processResponseSchema : simpl never.
Arguments locateSchema : simpl never.
Arguments putSchema : simpl never.
Arguments newSchemaRegistry : simpl never.
Arguments ensureMapValue : simpl never.

(** ** Nodes *)

Lemma setContent_Content n : setContent n (Content n) = n.
Proof. by destruct n. Qed.

Lemma setContent_setContent n c c' : setContent (setContent n c) c' = setContent n c'.
Proof. done. Qed.

Lemma Content_setContent n c : Content (setContent n c) = c.
Proof. done. Qed.

Lemma Kind_setContent n c : Kind (setContent n c) = Kind n.
Proof. done. Qed.

Lemma isMapping_setContent n c : isMapping (setContent n c) = isMapping n.
Proof. done. Qed.

Lemma isMapping_setMapValue m key v : isMapping (setMapValue m key v) = isMapping m.
Proof. done. Qed.

Lemma isMapping_appendMapEntry m key v : isMapping (appendMapEntry m key v) = isMapping m.
Proof. done. Qed.

Lemma isMapping_makeRefOnlySchema n name : isMapping (makeRefOnlySchema n name) = isMapping n.
Proof. done. Qed.

Lemma cloneNode_id n : cloneNode n = n.
Proof.
  revert n. fix IH 1. intros [k t v cs m]. simpl. f_equal.
  induction cs as [|c cs IHcs]; simpl; [done|]. by rewrite IH, IHcs.
Qed.

(** ** Reading and writing a mapping *)

Lemma lookupPairs_update_eq key v' c v :
  lookupPairs key c = Val (Some v) ->
  lookupPairs key (updatePairs key v' c) = Val (Some v').
Proof.
  pairs_induction c; simpl; try done.
  destruct (String.eqb (Value k) key) eqn:E; simpl; rewrite E; auto.
Qed.

Lemma lookupPairs_update_ne key key' v' c :
  key <> key' ->
  lookupPairs key' (updatePairs key v' c) = lookupPairs key' c.
Proof.
  intros Hne. pairs_induction c; simpl; try done.
  destruct (String.eqb_spec (Value k) key) as [E|]; simpl.
  - assert (String.eqb (Value k) key' = false) as ->; [|done].
    apply String.eqb_neq. congruence.
  - by rewrite IH.
Qed.

Lemma updatePairs_same key c v :
  lookupPairs key c = Val (Some v) -> updatePairs key v c = c.
Proof.
  pairs_induction c; simpl; try done.
  destruct (String.eqb (Value k) key); [congruence|].
  intros H. by rewrite IH.
Qed.

Lemma updatePairs_twice key v1 v2 c :
  updatePairs key v2 (updatePairs key v1 c) = updatePairs key v2 c.
Proof.
  pairs_induction c; simpl; try done.
  destruct (String.eqb (Value k) key) eqn:E; simpl; rewrite E; [done|]. by rewrite IH.
Qed.

Lemma getMapValue_setMapValue_eq m key v' v :
  getMapValue (Some m) key = Val (Some v) ->
  getMapValue (Some (setMapValue m key v')) key = Val (Some v').
Proof.
  unfold getMapValue. rewrite isMapping_setMapValue.
  destruct (isMapping m); [|done]. apply lookupPairs_update_eq.
Qed.

Lemma getMapValue_setMapValue_ne m key key' v' :
  key <> key' ->
  getMapValue (Some (setMapValue m key v')) key' = getMapValue (Some m) key'.
Proof.
  intros Hne. unfold getMapValue. rewrite isMapping_setMapValue.
  destruct (isMapping m); [|done]. by apply lookupPairs_update_ne.
Qed.

Lemma setMapValue_same m key v :
  getMapValue (Some m) key = Val (Some v) -> setMapValue m key v = m.
Proof.
  unfold getMapValue, setMapValue. destruct (isMapping m); [|done].
  intros H. rewrite (updatePairs_same _ _ _ H). apply setContent_Content.
Qed.

Lemma setMapValue_twice m key v1 v2 :
  setMapValue (setMapValue m key v1) key v2 = setMapValue m key v2.
Proof. unfold setMapValue. simpl. by rewrite updatePairs_twice. Qed.

Lemma getMapValue_Some_isMapping m key v :
  getMapValue (Some m) key = Val (Some v) -> isMapping m = true.
Proof. unfold getMapValue. by destruct (isMapping m). Qed.

(** The value that [ensureMapValue] returns is the value under [key] in the
    node it leaves, and that node is a mapping. *)
Lemma ensureMapValue_spec m key m1 v :
  ensureMapValue m key = Val (m1, v) ->
  isMapping m1 = true /\ getMapValue (Some m1) key = Val (Some v).
Proof.
  unfold ensureMapValue.
  set (m0 := if isMapping m then m else _).
  assert (Hm0 : isMapping m0 = true) by (subst m0; by destruct (isMapping m) eqn:E).
  destruct (getMapValue (Some m0) key) as [[v0|]| |] eqn:E; simpl; try done.
  - intros [= <- <-]. done.
  - intros [= <- <-]. split; [done|].
    unfold getMapValue in *. rewrite isMapping_setContent, Hm0 in *. simpl.
    revert E. generalize (Content m0) as c. intros c.
    pairs_induction c; simpl; try done.
    + by rewrite String.eqb_refl.
    + destruct (String.eqb (Value k) key); [done|]. auto.
Qed.

(** On a node that already is a mapping with a value under [key],
    [ensureMapValue] changes nothing. *)
Lemma ensureMapValue_present m key v :
  getMapValue (Some m) key = Val (Some v) -> ensureMapValue m key = Val (m, v).
Proof.
  intros H. unfold ensureMapValue.
  rewrite (getMapValue_Some_isMapping _ _ _ H). by rewrite H.
Qed.

(** ** Bare references *)

Lemma isRefOnlySchema_makeRefOnlySchema n name :
  isMapping n = true -> isRefOnlySchema (makeRefOnlySchema n name) = true.
Proof.
  intros H. unfold isRefOnlySchema. by rewrite isMapping_makeRefOnlySchema, H.
Qed.

(** A schema is a bare reference exactly when it is a mapping with one
    entry whose key is [$ref]. *)
Lemma isRefOnlySchema_iff n :
  isRefOnlySchema n = true <->
  Kind n = MappingNode /\ exists k v, Content n = [k; v] /\ Value k = "$ref".
Proof.
  unfold isRefOnlySchema, isMapping, isKind.
  destruct (N.eqb_spec (Kind n) MappingNode) as [HK|HK]; simpl.
  - destruct (Content n) as [|k [|v [|x c]]]; simpl; split; try done;
      try (intros (_ & k' & v' & [=] & _); done).
    + intros H. split; [done|]. exists k, v. split; [done|]. by apply String.eqb_eq.
    + intros (_ & k' & v' & [= <- <-] & ->). done.
  - split; [done|]. intros [? _]. done.
Qed.

(** ** The name deriver *)

(** C6.  With no operation identifier, the path [/flights/{id}/track], the
    method [get] and the status [200] give the name
    [FlightsIdTrackGet200Response]. *)
Theorem fallback_naming :
  deriveResponseSchemaNameHint "/flights/{id}/track" "get" "" "200"
  = "FlightsIdTrackGet200Response".
Proof. reflexivity. Qed.

(** The steps of the fallback on that input. *)
Example fallback_naming_segments :
  List.filter (fun p => negb (String.eqb p "")) (Split "/flights/{id}/track" "/")
  = ["flights"; "{id}"; "track"]
  /\ deriveNameFromPathAndMethod "/flights/{id}/track" "get" = "FlightsIdTrackGet"
  /\ deriveSchemaName "" = "".
Proof. repeat split. Qed.

(** ** [componentizeSchema] on a node it has nothing to do for *)

Section ComponentizeNoop.
Context {FM NS : Type} `{!GoMap string FM} `{!GoMap unit NS}.

(** C5.  On a nil node, on a node that is not a mapping and on a mapping
    whose only entry has the key [$ref], [componentizeSchema] returns the
    empty name and [false], and leaves the node and the registry (its two
    maps and the [components.schemas] node) as they were. *)
Theorem componentizeSchema_noop (r : @schemaRegistry FM NS) schemaNode nameHint opts :
  (schemaNode = None \/
   exists n, schemaNode = Some n /\
     (Kind n <> MappingNode \/ exists k v, Content n = [k; v] /\ Value k = "$ref")) ->
  componentizeSchema r schemaNode nameHint opts = Val (schemaNode, r, ("", false)).
Proof.
  intros [-> | (n & -> & Hn)]; [done|]. unfold componentizeSchema.
  destruct (isMapping n) eqn:Hmap; simpl; [|done].
  assert (Href : isRefOnlySchema n = true); [|by rewrite Href].
  apply isRefOnlySchema_iff. split.
  - unfold isMapping, isKind in Hmap. by apply N.eqb_eq.
  - destruct Hn as [Hn|Hn]; [|done]. exfalso. apply Hn.
    unfold isMapping, isKind in Hmap. by apply N.eqb_eq.
Qed.
End ComponentizeNoop.

Lemma componentizeSchema_noop_witness :
  componentizeSchema (FM := gmap string string) (NS := gmap string unit)
    (mkRegistry ∅ ∅ (Sample.ymap [])) (Some (Sample.refTo "Airport"))
    "Airport200Response" Sample.opts0
  = Val (Some (Sample.refTo "Airport"), mkRegistry ∅ ∅ (Sample.ymap []), ("", false)).
Proof.
  apply componentizeSchema_noop. right. eexists. split; [reflexivity|].
  right. eexists _, _. split; reflexivity.
Defined.

(** ** [FormatFile] *)

Section FormatFileProps.
Context {FM NS : Type} `{!GoMap string FM} `{!GoMap unit NS}.
Variable env : Env.


(** C10.  When the pass reports no change and [DryRun] is off,
    [FormatFile] returns nil and every file, the destination among them,
    is as it was: the destination is not created, truncated or written.
    The same holds for the command run in place (no [-o]). *)
Theorem FormatFile_unchanged_no_write fs inPath outPath opts input root root' :
  fs !! inPath = Some input ->
  env_decode env input = Some root ->
  RefactorInlineResponseSchemas (FM := FM) (NS := NS) root opts = Val (root', false) ->
  DryRun opts = false ->
  FormatFile (FM := FM) (NS := NS) env fs inPath outPath opts = (fs, Val tt)
  /\ (Run (FM := FM) (NS := NS) env (mkFormatCmd inPath "" (DryRun opts) (Verbose opts)) fs
      = (fs, Val tt)).
Proof.
  intros Hin Hdec Href Hdry.
  assert (Hany : forall out, FormatFile (FM := FM) (NS := NS) env fs inPath out opts = (fs, Val tt)).
  { intros out. unfold FormatFile, parseYAML. by rewrite Hin, Hdec, Href, Hdry. }
  split; [apply Hany|]. unfold Run. simpl. destruct opts. apply Hany.
Qed.

(** C8, as amended.  Either no file has changed, or the input was read
    and decoded, the pass returned without error and reported a change,
    [DryRun] is off and [os.Create] succeeded: only then does the
    destination change, and what it then holds is what the encoder wrote,
    complete or not.  So a failure to open, decode, refactor or create
    leaves the destination as it was; a failure to encode does not. *)
Theorem FormatFile_destination fs inPath outPath opts :
  (FormatFile (FM := FM) (NS := NS) env fs inPath outPath opts).1 = fs
  \/ exists input root root',
       fs !! inPath = Some input
       /\ env_decode env input = Some root
       /\ RefactorInlineResponseSchemas (FM := FM) (NS := NS) root opts = Val (root', true)
       /\ DryRun opts = false
       /\ env_creatable env fs outPath = true
       /\ FormatFile (FM := FM) (NS := NS) env fs inPath outPath opts
          = (<[outPath := (env_encode env (<[outPath := ""]> fs) outPath root').1]> fs,
             if (env_encode env (<[outPath := ""]> fs) outPath root').2
             then Val tt else Err "encode YAML").
Proof.
  unfold FormatFile, parseYAML.
  destruct (fs !! inPath) as [input|] eqn:Hin; [|by left].
  destruct (env_decode env input) as [root|] eqn:Hdec; [|by left].
  destruct (RefactorInlineResponseSchemas (FM := FM) (NS := NS) root opts) as [[root' changed]| |] eqn:Href; [|by left..].
  destruct (DryRun opts) eqn:Hdry; [by left|].
  destruct changed; simpl; [|by left].
  destruct (env_creatable env fs outPath) eqn:Hcr; simpl; [|by left].
  right. exists input, root, root'. repeat split; try done.
  unfold writeYAML. destruct (env_encode _ _ _ _) as [bytes ok]. simpl.
  by rewrite insert_insert_eq.
Qed.

End FormatFileProps.

Lemma FormatFile_unchanged_no_write_witness :
  FormatFile (FM := gmap string string) (NS := gmap string unit)
    (Sample.envOf Sample.quietDoc ("", true)) Sample.files "api.yaml" "out.yaml" Sample.opts0
  = (Sample.files, Val tt)
  /\ Run (FM := gmap string string) (NS := gmap string unit)
       (Sample.envOf Sample.quietDoc ("", true)) (mkFormatCmd "api.yaml" "" false false)
       Sample.files
     = (Sample.files, Val tt).
Proof.
  apply (FormatFile_unchanged_no_write (FM := gmap string string) (NS := gmap string unit)
           (Sample.envOf Sample.quietDoc ("", true)) Sample.files "api.yaml" "out.yaml"
           Sample.opts0 "openapi: 3.0.0 (input)" Sample.quietDoc Sample.quietDoc).
  - vm_compute. reflexivity.
  - reflexivity.
  - vm_compute. reflexivity.
  - reflexivity.
Defined.

(** C8, as stated, fails: the encoder stops with an error after [os.Create]
    has truncated the destination, and the destination is left with the
    part that was written instead of what it held. *)
Lemma FormatFile_encode_failure_truncates :
  FormatFile (FM := gmap string string) (NS := gmap string unit)
    (Sample.envOf Sample.inlineDoc ("paths:", false)) Sample.files "api.yaml" "out.yaml"
    Sample.opts0
  = (<["out.yaml" := "paths:"]> Sample.files, Err "encode YAML")
  /\ Sample.files !! "out.yaml" = Some "previous output"
  /\ (<["out.yaml" := "paths:"]> Sample.files) !! "out.yaml" = Some "paths:".
Proof. repeat split; vm_compute; reflexivity. Qed.

(** ** The choice of the media type *)

(** [selectContentType] returns the first spelling of the list that the
    content mapping has a value for: every spelling before it is absent. *)
Lemma selectContentType_Some c types t v :
  selectContentType c types = Val (Some (t, v)) ->
  getMapValue (Some c) t = Val (Some v) /\
  exists before after,
    types = (before ++ t :: after)%list /\
    Forall (fun t0 => getMapValue (Some c) t0 = Val None) before.
Proof.
  induction types as [|t0 types IH]; simpl; [done|].
  destruct (getMapValue (Some c) t0) as [[v0|]| |] eqn:E; simpl; try done.
  - intros ?; simplify_eq. split; [done|]. by exists [], types.
  - intros H. destruct (IH H) as (Hv & before & after & -> & Hb).
    split; [done|]. exists (t0 :: before), after. split; [done|]. by constructor.
Qed.

Lemma selectContentType_None c types :
  selectContentType c types = Val None ->
  Forall (fun t0 => getMapValue (Some c) t0 = Val None) types.
Proof.
  induction types as [|t0 types IH]; simpl; [by constructor|].
  destruct (getMapValue (Some c) t0) as [[v0|]| |] eqn:E; simpl; try done.
  intros H. constructor; auto.
Qed.

(** ** The shape of the alternatives idiom *)

Lemma valueIs_hasType n ty :
  (exists t, getMapValue (Some n) "type" = Val t /\ valueIs t ty = true) <-> hasType n ty.
Proof.
  split.
  - intros ([t|] & Ht & Hv); [|done]. exists t. split; [done|]. by apply String.eqb_eq.
  - intros (t & Ht & Hv). exists (Some t). split; [done|]. by apply String.eqb_eq.
Qed.

(** [isInlineObjectWithAlternatives] accepts exactly the shape that the
    specification describes. *)
Lemma isInlineObjectWithAlternatives_iff baseNode extNode :
  isInlineObjectWithAlternatives baseNode extNode = Val true <->
  AlternativesShape baseNode extNode.
Proof.
  unfold isInlineObjectWithAlternatives, AlternativesShape, hasType. split.
  - intros H.
    repeat match type of H with
           | context [isMapping ?n] => destruct (isMapping n) eqn:?; simpl in H; try done
           | context [rbind (getMapValue ?m ?k) _] =>
               destruct (getMapValue m k) as [[?|]| |] eqn:?; simpl in H; try done
           | context [String.eqb ?a ?b] =>
               destruct (String.eqb_spec a b); simpl in H; try done
           end.
    repeat split; eauto 20.
  - intros (Hb & (tb & Htb & Hvb) & He & (te & Hte & Hve) & props & alts & items &
            Hp & Hpm & Ha & Ham & (ta & Hta & Hva) & Hi & Him & (ti & Hti & Hvi)).
    rewrite Hb, He, Htb, Hte, Hp. simpl. rewrite Hvb, Hve. simpl.
    rewrite Hpm, Ha. simpl. rewrite Ham, Hta. simpl. rewrite Hva. simpl.
    rewrite Hi. simpl. rewrite Him, Hti. simpl. by rewrite Hvi.
Qed.

(** ** What a rewrite does to one response *)

Section Rewrite.
Context {FM NS : Type} `{!GoMap string FM} `{!GoMap unit NS}.
Implicit Types (reg : @schemaRegistry FM NS).

(** [processResponseSchema] finds the schema as [locateSchema] does,
    leaves a bare reference alone and otherwise writes back what
    [rewriteSchema] made of the schema. *)
Lemma processResponseSchema_locate path method operationID status resp reg opts :
  processResponseSchema path method operationID status resp reg opts =
  let* loc := locateSchema resp in
  match loc with
  | None => Val (resp, reg, false)
  | Some loc =>
      let schemaNode := loc.2 in
      if isRefOnlySchema schemaNode then Val (resp, reg, false) else
      let* '(schemaNode', reg, changed) :=
        rewriteSchema path method operationID status schemaNode reg opts in
      Val (putSchema resp loc schemaNode', reg, changed)
  end.
Proof.
  unfold processResponseSchema, locateSchema.
  generalize jsonContentTypes as types. intros types.
  destruct (isMapping resp); simpl; [|done].
  destruct (getMapValue (Some resp) "content") as [[c|]| |]; simpl; try done.
  destruct (isMapping c); simpl; [|done].
  destruct (selectContentType c types) as [[[t a]|]| |]; simpl; try done.
  destruct (isMapping a); simpl; [|done].
  destruct (getMapValue (Some a) "schema") as [[s|]| |]; simpl; try done.
  destruct (isMapping s); simpl; done.
Qed.

(** On a mapping that is not a bare reference, [componentizeSchema]
    turns the node into a bare reference to the name it returns. *)
Lemma componentizeSchema_inline reg node nameHint opts node' reg' name changed :
  isMapping node = true -> isRefOnlySchema node = false ->
  componentizeSchema reg (Some node) nameHint opts = Val (node', reg', (name, changed)) ->
  node' = Some (makeRefOnlySchema node name) /\ changed = true.
Proof.
  intros Hm Hr. unfold componentizeSchema. rewrite Hm, Hr. simpl.
  destruct (gm_get _ _) as [existing|]; [by intros [= <- <- <- <-]|].
  destruct (ensureUniqueName _ _ _) as [nm| |]; simpl; [|done..].
  by intros [= <- <- <- <-].
Qed.

Lemma handleAlternativesPattern_inline path method operationID status
    schemaNode baseNode reg opts schemaNode' reg' changed :
  isMapping schemaNode = true -> isRefOnlySchema schemaNode = false ->
  handleAlternativesPattern path method operationID status schemaNode baseNode reg opts
    = Val (schemaNode', reg', changed) ->
  changed = true /\ exists name, schemaNode' = makeRefOnlySchema schemaNode name.
Proof.
  intros Hm Hr. unfold handleAlternativesPattern.
  destruct (String.eqb _ ""); simpl.
  - destruct (componentizeSchema _ _ _ _) as [[[n r] [nm ch]]| |] eqn:E; simpl; [|done..].
    intros [= <- <- <-].
    destruct (componentizeSchema_inline _ _ _ _ _ _ _ _ Hm Hr E) as [-> ->]. eauto.
  - unfold getMapValueExists.
    destruct (getMapValue _ _) as [x| |]; simpl; [|done..].
    destruct (getMapValue _ _) as [y| |]; simpl; [|done..].
    intros [= <- <- <-]. eauto.
Qed.

(** Every path of [rewriteSchema] reports a change and leaves a bare
    reference where the schema was. *)
Lemma rewriteSchema_inline path method operationID status schemaNode reg opts
    schemaNode' reg' changed :
  isMapping schemaNode = true -> isRefOnlySchema schemaNode = false ->
  rewriteSchema path method operationID status schemaNode reg opts
    = Val (schemaNode', reg', changed) ->
  changed = true /\ exists name, schemaNode' = makeRefOnlySchema schemaNode name.
Proof.
  intros Hm Hr. unfold rewriteSchema.
  set (plain := rbind (componentizeSchema _ _ _ _) _).
  assert (Hplain : plain = Val (schemaNode', reg', changed) ->
                   changed = true /\ exists name, schemaNode' = makeRefOnlySchema schemaNode name).
  { subst plain.
    destruct (componentizeSchema _ _ _ _) as [[[n r] [nm ch]]| |] eqn:E; simpl; [|done..].
    intros [= <- <- <-].
    destruct (componentizeSchema_inline _ _ _ _ _ _ _ _ Hm Hr E) as [-> ->]. eauto. }
  destruct (getMapValue _ "allOf") as [[allOf|]| |]; simpl; try done.
  destruct (_ && _); [|done].
  destruct (Content allOf) as [|b [|e ?]]; try done.
  destruct (isInlineObjectWithAlternatives b e) as [[|]| |]; simpl; try done.
  by apply handleAlternativesPattern_inline.
Qed.

End Rewrite.

Section ResponseRewrite.
Context {FM NS : Type} `{!GoMap string FM} `{!GoMap unit NS}.
Implicit Types (reg : @schemaRegistry FM NS).

(** C7.  In a response with a [content] mapping, the walker takes the
    value of the first spelling present among
    [application/json; charset=UTF-8], [application/json],
    [application/json; charset=utf-8], in that order.  Whatever is stored
    in the content mapping under any other key, a later spelling among
    them, is the same node afterwards: its schema is not rewritten.  When
    none of the three is present the response is left as it was. *)
Theorem content_type_priority path method operationID status resp reg opts
    resp' reg' changed c :
  processResponseSchema path method operationID status resp reg opts
    = Val (resp', reg', changed) ->
  getMapValue (Some resp) "content" = Val (Some c) ->
  isMapping c = true ->
  jsonContentTypes = ["application/json; charset=UTF-8";
                      "application/json";
                      "application/json; charset=utf-8"]
  /\ match selectContentType c jsonContentTypes with
     | Val (Some (t, v)) =>
         getMapValue (Some c) t = Val (Some v)
         /\ (exists before after,
               jsonContentTypes = (before ++ t :: after)%list
               /\ Forall (absentIn c) before)
         /\ exists c',
              getMapValue (Some resp') "content" = Val (Some c')
              /\ forall t', t' <> t ->
                   getMapValue (Some c') t' = getMapValue (Some c) t'
     | Val None =>
         Forall (absentIn c) jsonContentTypes /\ resp' = resp /\ changed = false
     | _ => False
     end.
Proof.
  intros Hrun Hc Hcm. split; [done|].
  rewrite processResponseSchema_locate in Hrun. unfold locateSchema in Hrun.
  rewrite (getMapValue_Some_isMapping _ _ _ Hc), Hc in Hrun. simpl in Hrun.
  rewrite Hcm in Hrun. simpl in Hrun.
  destruct (selectContentType c jsonContentTypes) as [[[t v]|]| |] eqn:Hsel;
    simpl in Hrun; try done.
  - destruct (selectContentType_Some _ _ _ _ Hsel) as (Hv & Hfirst).
    split; [done|]. split; [done|].
    assert (Hsame : resp' = resp ->
              exists c', getMapValue (Some resp') "content" = Val (Some c')
                /\ forall t', t' <> t ->
                     getMapValue (Some c') t' = getMapValue (Some c) t').
    { intros ->. by exists c. }
    destruct (isMapping v); simpl in Hrun; [|apply Hsame; congruence].
    destruct (getMapValue (Some v) "schema") as [[s|]| |]; simpl in Hrun;
      try done; [|apply Hsame; congruence].
    destruct (isMapping s); simpl in Hrun; [|apply Hsame; congruence].
    destruct (isRefOnlySchema s); [apply Hsame; congruence|].
    destruct (rewriteSchema _ _ _ _ _ _ _) as [[[s' r'] ch]| |]; simpl in Hrun; try done.
    injection Hrun as <- <- <-.
    eexists. split; [by eapply getMapValue_setMapValue_eq|].
    intros t' Ht'. by apply getMapValue_setMapValue_ne.
  - split; [by apply selectContentType_None|]. by injection Hrun as <- <- <-.
Qed.

(** C3, as amended.  Take a response whose schema has a two-element
    [allOf] of the shape of the idiom, in an operation with the
    identifier [get_airport], and a [components.schemas] node with no
    entry named [Airport] or [AirportWithAlternatives].  The rewrite
    appends [Airport], a clone of the first element of the [allOf], then
    [AirportWithAlternatives], the composite built on [Airport], and the
    whole schema of the response becomes a bare reference to
    [AirportWithAlternatives]. *)
Theorem alternatives_rewrite path method status resp reg opts
    loc allOfNode baseNode extNode :
  locateSchema resp = Val (Some loc) ->
  getMapValue (Some loc.2) "allOf" = Val (Some allOfNode) ->
  Kind allOfNode = SequenceNode ->
  Content allOfNode = [baseNode; extNode] ->
  AlternativesShape baseNode extNode ->
  getMapValue (Some (schemasNode reg)) "Airport" = Val None ->
  getMapValue (Some (schemasNode reg)) "AirportWithAlternatives" = Val None ->
  exists reg',
    processResponseSchema path method "get_airport" status resp reg opts
      = Val (putSchema resp loc (makeRefOnlySchema loc.2 "AirportWithAlternatives"),
             reg', true)
    /\ schemasNode reg'
       = appendMapEntry
           (appendMapEntry (schemasNode reg) "Airport" baseNode)
           "AirportWithAlternatives" (buildCompositeSchema "Airport")
    /\ buildCompositeSchema "Airport"
       = mappingOf [
           scalarNode "allOf";
           sequenceOf [
             mappingOf [scalarNode "$ref"; scalarNode "#/components/schemas/Airport"];
             mappingOf [
               scalarNode "type"; scalarNode "object";
               scalarNode "properties";
               mappingOf [
                 scalarNode "alternatives";
                 mappingOf [
                   scalarNode "type"; scalarNode "array";
                   scalarNode "description";
                   scalarNode "An array of other possible matches";
                   scalarNode "items";
                   mappingOf [scalarNode "$ref";
                              scalarNode "#/components/schemas/Airport"]]]]]].
Proof.
  intros Hloc HallOf Hkind Hcontent Hshape Hfree1 Hfree2.
  rewrite processResponseSchema_locate, Hloc. simpl.
  destruct loc as [[[c t] a] s]. simpl in *.
  assert (Href : isRefOnlySchema s = false).
  { destruct (isRefOnlySchema s) eqn:E; [|done].
    apply isRefOnlySchema_iff in E as (_ & k & v & Hc & Hk).
    unfold getMapValue in HallOf. destruct (isMapping s); [|done].
    rewrite Hc in HallOf. simpl in HallOf. rewrite Hk in HallOf. done. }
  rewrite Href. unfold rewriteSchema. rewrite HallOf. simpl.
  unfold isKind. rewrite Hkind, Hcontent. simpl.
  apply isInlineObjectWithAlternatives_iff in Hshape. rewrite Hshape. simpl.
  unfold handleAlternativesPattern.
  change (deriveSchemaName "get_airport") with "Airport". simpl.
  unfold getMapValueExists. rewrite Hfree1. simpl.
  rewrite cloneNode_id.
  assert (Hfree2' : getMapValue (Some (appendMapEntry (schemasNode reg) "Airport" baseNode))
                      "AirportWithAlternatives" = Val None).
  { revert Hfree1 Hfree2. unfold getMapValue, appendMapEntry.
    rewrite isMapping_setContent. destruct (isMapping (schemasNode reg)); [|done].
    simpl. generalize (Content (schemasNode reg)) as l. intros l.
    pairs_induction l; simpl; try done.
    destruct (String.eqb (Value k) "Airport"); [done|].
    destruct (String.eqb (Value k) "AirportWithAlternatives"); [done|]. auto. }
  change ("Airport" +:+ "WithAlternatives") with "AirportWithAlternatives".
  rewrite Hfree2'. simpl. eexists. split; [reflexivity|]. split; reflexivity.
Qed.

End ResponseRewrite.

Lemma content_type_priority_witness :
  exists resp' reg' changed,
    processResponseSchema "/airports/{id}" "get" "get_airport" "200"
      Sample.twoSpellings Sample.emptyRegistry Sample.opts0 = Val (resp', reg', changed)
    /\ exists c',
         getMapValue (Some resp') "content" = Val (Some c')
         /\ forall t', t' <> "application/json" ->
              getMapValue (Some c') t'
              = getMapValue
                  (Some (Sample.ymap
                     [Sample.ystr "application/json; charset=utf-8";
                      Sample.ymap [Sample.ystr "schema"; Sample.operator];
                      Sample.ystr "application/json";
                      Sample.ymap [Sample.ystr "schema"; Sample.airport]])) t'.
Proof.
  edestruct (content_type_priority (FM := list (string * string)) (NS := list (string * unit))
               "/airports/{id}" "get" "get_airport" "200"
               Sample.twoSpellings Sample.emptyRegistry Sample.opts0) as [_ Hsel];
    [vm_compute; reflexivity | reflexivity | reflexivity |].
  eexists _, _, _. split; [vm_compute; reflexivity|].
  match type of Hsel with
  | match ?sel with _ => _ end =>
      assert (Hs : sel = Val (Some ("application/json",
                                    Sample.ymap [Sample.ystr "schema"; Sample.airport])))
        by reflexivity;
      rewrite Hs in Hsel
  end.
  exact (proj2 (proj2 Hsel)).
Defined.

Lemma alternatives_rewrite_witness :
  exists reg',
    processResponseSchema "/airports/{id}" "get" "get_airport" "200"
      (Sample.jsonResponse (Sample.alternativesOf Sample.airport))
      Sample.emptyRegistry Sample.opts0
    = Val (Sample.jsonResponse (Sample.refTo "AirportWithAlternatives"), reg', true)
    /\ schemasNode reg'
       = Sample.ymap [scalarNode "Airport"; Sample.airport;
                      scalarNode "AirportWithAlternatives"; buildCompositeSchema "Airport"].
Proof.
  destruct (alternatives_rewrite (FM := list (string * string)) (NS := list (string * unit))
              "/airports/{id}" "get" "200"
              (Sample.jsonResponse (Sample.alternativesOf Sample.airport))
              Sample.emptyRegistry Sample.opts0
              _ _ Sample.airport _ eq_refl eq_refl eq_refl eq_refl) as (reg' & Hrun & Hs & _).
  - apply isInlineObjectWithAlternatives_iff. reflexivity.
  - reflexivity.
  - reflexivity.
  - exists reg'. split; [exact Hrun | exact Hs].
Defined.

(** C3, as stated, fails: when [components.schemas] already has an entry
    named [Airport], no clone of the first element of the [allOf] is
    stored; the entry stays what it was and the composite refers to it. *)
Lemma alternatives_rewrite_name_taken :
  exists root',
    Sample.run Sample.airportTakenDoc = Val (root', true)
    /\ component root' "Airport" = Val (Some Sample.stringProp)
    /\ component root' "AirportWithAlternatives" = Val (Some (buildCompositeSchema "Airport"))
    /\ Sample.stringProp <> cloneNode Sample.airport.
Proof.
  eexists. split; [vm_compute; reflexivity|]. repeat split; try (vm_compute; reflexivity).
  discriminate.
Qed.

(** ** The search for a free name *)

Lemma append_inj_r (s a b : string) : s +:+ a = s +:+ b -> a = b.
Proof.
  induction s as [|c s IH]; [done|].
  change (String c (s +:+ a) = String c (s +:+ b) -> a = b). intros [= H]. auto.
Qed.

Lemma append_nonempty_r (s a : string) : s +:+ a = s -> a = "".
Proof.
  intros H. apply (append_inj_r s). rewrite H.
  clear. induction s as [|c s IH]; [done|].
  change (String c s = String c (s +:+ "")). by rewrite <- IH.
Qed.

Lemma itoa_inj n m : itoa n = itoa m -> n = m.
Proof.
  unfold itoa. intros H. apply Unsigned.to_uint_inj.
  assert (Hs : Some (N.to_uint n) = Some (N.to_uint m)); [|by injection Hs].
  by rewrite <- !NilEmpty.usu, H.
Qed.

Lemma itoa_nonempty n : itoa n <> "".
Proof.
  unfold itoa. intros H.
  assert (Hn : NilEmpty.uint_of_string (NilEmpty.string_of_uint (N.to_uint n)) = Some Decimal.Nil)
    by (by rewrite H).
  rewrite NilEmpty.usu in Hn. injection Hn as Hn.
  destruct n as [|p]; [done|]. simpl in Hn.
  by apply (DecimalPos.Unsigned.to_uint_nonnil p).
Qed.

Lemma candidateName_inj base j j' : candidateName base j = candidateName base j' -> j = j'.
Proof.
  destruct j as [|j], j' as [|j']; simpl; try done.
  - intros H. symmetry in H. apply append_nonempty_r in H. by apply itoa_nonempty in H.
  - intros H. apply append_nonempty_r in H. by apply itoa_nonempty in H.
  - intros H. apply append_inj_r, itoa_inj in H. lia.
Qed.

Example candidateName_first : List.map (candidateName "Pet") [0; 1; 2; 9]%nat
                              = ["Pet"; "Pet2"; "Pet3"; "Pet10"].
Proof. reflexivity. Qed.

Section UniqueName.
Context {NS : Type} `{!GoMap unit NS}.
Implicit Types (names : NS).

(** The loop stops at the first free candidate, when it has the fuel to
    reach it. *)
Lemma uniqueNameLoop_search d : forall fuel names base j,
  (forall j', (j <= j' < j + d)%nat -> gm_get names (candidateName base j') <> None) ->
  gm_get names (candidateName base (j + d)) = None ->
  (d < fuel)%nat ->
  uniqueNameLoop fuel names base (candidateName base j) (N.of_nat j + 2)
  = Some (candidateName base (j + d)).
Proof.
  induction d as [|d IH]; intros fuel names base j Htaken Hfree Hfuel;
    (destruct fuel as [|fuel]; [lia|]); simpl.
  - rewrite Nat.add_0_r in *. by rewrite Hfree.
  - destruct (gm_get names (candidateName base j)) eqn:E.
    + replace (base +:+ itoa (N.of_nat j + 2)) with (candidateName base (S j))
        by (simpl; do 2 f_equal; lia).
      replace (N.of_nat j + 2 + 1) with (N.of_nat (S j) + 2) by lia.
      replace (j + S d)%nat with (S j + d)%nat in * by lia.
      apply IH; [|done|lia]. intros j' Hj'. apply Htaken. lia.
    + exfalso. apply (Htaken j); [lia|done].
Qed.

(** Among the first candidates, one more than the map has keys, one is
    free; so there is a first free candidate. *)
Lemma first_free_candidate names base :
  exists d, (d <= List.length (gm_keys names))%nat
    /\ gm_get names (candidateName base d) = None
    /\ forall j', (j' < d)%nat -> gm_get names (candidateName base j') <> None.
Proof.
  set (n := List.length (gm_keys names)).
  assert (Hex : exists j, (j <= n)%nat /\ gm_get names (candidateName base j) = None).
  { destruct (decide (Forall (fun j => gm_get names (candidateName base j) <> None)
                             (seq 0 (S n)))) as [Hall|Hnot].
    - exfalso.
      assert (Hlen : (List.length (List.map (candidateName base) (seq 0 (S n)))
                      <= List.length (gm_keys names))%nat).
      { apply NoDup_incl_length.
        - apply Finite.Injective_map_NoDup; [|apply seq_NoDup].
          intros a b. apply candidateName_inj.
        - intros x Hx. apply in_map_iff in Hx as (j & <- & Hj).
          rewrite Forall_forall in Hall.
          destruct (gm_get names (candidateName base j)) as [[]|] eqn:E.
          + by apply (gm_keys_spec _ _ _ E).
          + exfalso. exact (Hall j Hj E). }
      rewrite length_map, length_seq in Hlen. fold n in Hlen. lia.
    - apply not_Forall_Exists in Hnot; [|intros j; apply _].
      apply Exists_exists in Hnot as (j & Hj & Hfree).
      apply in_seq in Hj. exists j. split; [lia|].
      unfold compose in Hfree.
      destruct (gm_get names (candidateName base j)); [|done]. by destruct Hfree. }
  destruct Hex as (j & Hj & Hfree).
  assert (Hleast : exists d, (d <= j)%nat
            /\ gm_get names (candidateName base d) = None
            /\ forall j', (j' < d)%nat -> gm_get names (candidateName base j') <> None).
  { clear Hj. revert Hfree. induction j as [j IH] using lt_wf_ind. intros Hfree.
    destruct (decide (Forall (fun j' => gm_get names (candidateName base j') <> None)
                             (seq 0 j))) as [Hall|Hnot].
    - exists j. split; [done|]. split; [done|].
      intros j' Hj'. rewrite Forall_forall in Hall. apply Hall.
      apply in_seq. lia.
    - apply not_Forall_Exists in Hnot; [|intros j'; apply _].
      apply Exists_exists in Hnot as (j' & Hj' & Hfree').
      apply in_seq in Hj'.
      destruct (IH j') as (d & Hd & Hrest); [lia| |].
      + unfold compose in Hfree'.
        destruct (gm_get names (candidateName base j')); [|done]. by destruct Hfree'.
      + exists d. split; [lia|done]. }
  destruct Hleast as (d & Hd & Hrest). exists d. split; [lia|done].
Qed.

(** The loop of [ensureUniqueName] never runs out of fuel: it returns the
    first free candidate. *)
Lemma uniqueNameLoop_fuel names base :
  exists d,
    uniqueNameLoop (S (List.length (gm_keys names))) names base base 2
    = Some (candidateName base d)
    /\ gm_get names (candidateName base d) = None
    /\ forall j', (j' < d)%nat -> gm_get names (candidateName base j') <> None.
Proof.
  destruct (first_free_candidate names base) as (d & Hd & Hfree & Htaken).
  exists d. split; [|done].
  apply (uniqueNameLoop_search d _ names base 0%nat); [|done|lia].
  intros j' Hj'. apply Htaken. lia.
Qed.

End UniqueName.

(** ** Loops over pairs *)

Section WalkPairs.
Context {S : Type}.
Implicit Types (body : Node -> Node -> S -> res (Node * S)).

(** A relation between states that every round respects holds between
    the state before the loop and the state after it. *)
Lemma walkPairs_preorder (R : S -> S -> Prop) body c :
  (forall s, R s s) ->
  (forall s1 s2 s3, R s1 s2 -> R s2 s3 -> R s1 s3) ->
  (forall k v s v' s', body k v s = Val (v', s') -> R s s') ->
  forall s c' s', walkPairs body c s = Val (c', s') -> R s s'.
Proof.
  intros Hrefl Htrans Hstep. pairs_induction c; intros s c' s'; simpl; try done.
  - intros [= <- <-]. apply Hrefl.
  - destruct (body k v s) as [[v1 s1]| |] eqn:E; simpl; try done.
    destruct (walkPairs body rest s1) as [[rest1 s2]| |] eqn:E2; simpl; try done.
    intros [= <- <-]. eapply Htrans; [by eapply Hstep|by eapply IH].
Qed.

(** The loop keeps the keys and the length of the list. *)
Lemma walkPairs_length body c s c' s' :
  walkPairs body c s = Val (c', s') -> List.length c' = List.length c.
Proof.
  revert s c' s'. pairs_induction c; intros s c' s'; simpl; try done.
  - by intros [= <- <-].
  - destruct (body k v s) as [[v1 s1]| |]; simpl; try done.
    destruct (walkPairs body rest s1) as [[rest1 s2]| |] eqn:E2; simpl; try done.
    intros [= <- <-]. simpl. by rewrite (IH _ _ _ E2).
Qed.

End WalkPairs.

(** When every round of a first loop leaves a value on which the round of
    a second loop does nothing, the second loop does nothing on the list
    that the first loop leaves. *)
Lemma walkPairs_quiescent {S T : Type}
    (body : Node -> Node -> S -> res (Node * S))
    (body2 : Node -> Node -> T -> res (Node * T)) c :
  (forall k v s v' s', body k v s = Val (v', s') -> forall t, body2 k v' t = Val (v', t)) ->
  forall s c' s', walkPairs body c s = Val (c', s') ->
  forall t, walkPairs body2 c' t = Val (c', t).
Proof.
  intros Hstep. pairs_induction c; intros s c' s'; simpl; try done.
  - by intros [= <- <-].
  - destruct (body k v s) as [[v1 s1]| |] eqn:E; simpl; try done.
    destruct (walkPairs body rest s1) as [[rest1 s2]| |] eqn:E2; simpl; try done.
    intros [= <- <-] t. simpl. rewrite (Hstep _ _ _ _ _ E). simpl.
    by rewrite (IH _ _ _ E2).
Qed.

(** Two loops whose rounds agree on related states agree. *)
Lemma walkPairs_sim {S1 S2 : Type} (R : S1 -> S2 -> Prop)
    (body1 : Node -> Node -> S1 -> res (Node * S1))
    (body2 : Node -> Node -> S2 -> res (Node * S2)) c :
  (forall k v s1 s2, R s1 s2 -> resRel (stateRel R) (body1 k v s1) (body2 k v s2)) ->
  forall s1 s2, R s1 s2 ->
    resRel (stateRel R) (walkPairs body1 c s1) (walkPairs body2 c s2).
Proof.
  intros Hstep. pairs_induction c; intros s1 s2 HR; simpl; try done.
  specialize (Hstep k v s1 s2 HR). unfold resRel in Hstep.
  destruct (body1 k v s1) as [[v1 t1]| |], (body2 k v s2) as [[v2 t2]| |];
    simpl; try done.
  destruct Hstep as [Hv HR']. simpl in Hv, HR'. subst v2.
  specialize (IH t1 t2 HR'). unfold resRel in IH.
  destruct (walkPairs body1 rest t1) as [[r1 u1]| |],
           (walkPairs body2 rest t2) as [[r2 u2]| |]; simpl; try done.
  destruct IH as [Hr HR'']. simpl in Hr, HR''. subst r2. done.
Qed.

(** ** The registry only grows *)

Lemma Appends_refl {FM NS} (reg : @schemaRegistry FM NS) : Appends reg reg.
Proof.
  exists []. split; [done|]. by rewrite app_nil_r, setContent_Content.
Qed.

Lemma Appends_trans {FM NS FM' NS' FM'' NS''}
    (r1 : @schemaRegistry FM NS) (r2 : @schemaRegistry FM' NS')
    (r3 : @schemaRegistry FM'' NS'') :
  Appends r1 r2 -> Appends r2 r3 -> Appends r1 r3.
Proof.
  intros (a1 & Ha1 & H1) (a2 & Ha2 & H2). exists (a1 ++ a2)%list. split.
  - rewrite length_app, Nat.even_add, Ha1, Ha2. done.
  - rewrite H2, H1. simpl. by rewrite app_assoc.
Qed.

Lemma Appends_entry {FM NS} (reg reg' : @schemaRegistry FM NS) name v :
  schemasNode reg' = appendMapEntry (schemasNode reg) name v -> Appends reg reg'.
Proof. intros H. exists [scalarNode name; v]. by split. Qed.

Section Grows.
Context {FM NS : Type} `{!GoMap string FM} `{!GoMap unit NS}.
Implicit Types (reg : @schemaRegistry FM NS).

Lemma componentizeSchema_Appends reg node nameHint opts node' reg' out :
  componentizeSchema reg node nameHint opts = Val (node', reg', out) -> Appends reg reg'.
Proof.
  unfold componentizeSchema. destruct node as [node|]; [|intros [= <- <- <-]; apply Appends_refl].
  destruct (negb (isMapping node)); [intros [= <- <- <-]; apply Appends_refl|].
  destruct (isRefOnlySchema node); [intros [= <- <- <-]; apply Appends_refl|].
  destruct (gm_get _ _); [intros [= <- <- <-]; apply Appends_refl|].
  destruct (ensureUniqueName _ _ _) as [name| |]; simpl; try done.
  intros [= <- <- <-]. by eapply Appends_entry.
Qed.

Lemma handleAlternativesPattern_Appends path method operationID status
    schemaNode baseNode reg opts schemaNode' reg' changed :
  handleAlternativesPattern path method operationID status schemaNode baseNode reg opts
    = Val (schemaNode', reg', changed) ->
  Appends reg reg'.
Proof.
  unfold handleAlternativesPattern. destruct (String.eqb _ ""); simpl.
  - destruct (componentizeSchema _ _ _ _) as [[[n r] [nm ch]]| |] eqn:E; simpl; [|done..].
    intros [= <- <- <-]. by eapply componentizeSchema_Appends.
  - unfold getMapValueExists.
    destruct (getMapValue _ _) as [x| |]; simpl; [|done..].
    destruct x as [x|]; simpl.
    + destruct (getMapValue _ _) as [y| |]; simpl; [|done..].
      intros [= <- <- <-]. destruct y; simpl; [apply Appends_refl|].
      by eapply Appends_entry.
    + destruct (getMapValue _ _) as [y| |]; simpl; [|done..].
      intros [= <- <- <-]. destruct y; simpl; [by eapply Appends_entry|].
      eapply (Appends_trans _ (withSchemasNode reg _)); by eapply Appends_entry.
Qed.

Lemma rewriteSchema_Appends path method operationID status schemaNode reg opts
    schemaNode' reg' changed :
  rewriteSchema path method operationID status schemaNode reg opts
    = Val (schemaNode', reg', changed) ->
  Appends reg reg'.
Proof.
  unfold rewriteSchema.
  set (plain := rbind (componentizeSchema _ _ _ _) _).
  assert (Hplain : plain = Val (schemaNode', reg', changed) -> Appends reg reg').
  { subst plain.
    destruct (componentizeSchema _ _ _ _) as [[[n r] [nm ch]]| |] eqn:E; simpl; [|done..].
    intros [= <- <- <-]. by eapply componentizeSchema_Appends. }
  destruct (getMapValue _ "allOf") as [[allOf|]| |]; simpl; try done.
  destruct (_ && _); [|done].
  destruct (Content allOf) as [|b [|e ?]]; try done.
  destruct (isInlineObjectWithAlternatives b e) as [[|]| |]; simpl; try done.
  apply handleAlternativesPattern_Appends.
Qed.

Lemma processResponseSchema_Appends path method operationID status resp reg opts
    resp' reg' changed :
  processResponseSchema path method operationID status resp reg opts
    = Val (resp', reg', changed) ->
  Appends reg reg'.
Proof.
  rewrite processResponseSchema_locate.
  destruct (locateSchema resp) as [[loc|]| |]; simpl; try done;
    [|intros [= <- <- <-]; apply Appends_refl].
  destruct (isRefOnlySchema _); [intros [= <- <- <-]; apply Appends_refl|].
  destruct (rewriteSchema _ _ _ _ _ _ _) as [[[s' r'] ch]| |] eqn:E; simpl; try done.
  intros [= <- <- <-]. by eapply rewriteSchema_Appends.
Qed.

End Grows.

(** ** What the walker leaves is at rest *)

Lemma selectContentType_setMapValue c types t a a' :
  selectContentType c types = Val (Some (t, a)) ->
  selectContentType (setMapValue c t a') types = Val (Some (t, a')).
Proof.
  induction types as [|t0 types IH]; simpl; [done|].
  destruct (String.eqb_spec t t0) as [<-|Hne].
  - destruct (getMapValue (Some c) t) as [[v|]| |] eqn:E; simpl; try done.
    + intros _. by rewrite (getMapValue_setMapValue_eq _ _ a' _ E).
    + intros H. apply selectContentType_Some in H as [H _]. congruence.
  - rewrite (getMapValue_setMapValue_ne _ _ _ a' Hne).
    destruct (getMapValue (Some c) t0) as [[v|]| |] eqn:E; simpl; try done.
    intros [= -> ->]. done.
Qed.

(** After the schema of a response has been replaced by a mapping, the
    walk to the schema goes through the rewritten nodes and ends on the new
    schema. *)
Lemma locateSchema_putSchema resp c t a s s' :
  locateSchema resp = Val (Some (c, t, a, s)) ->
  isMapping s' = true ->
  locateSchema (putSchema resp (c, t, a, s) s')
  = Val (Some (setMapValue c t (setMapValue a "schema" s'), t,
               setMapValue a "schema" s', s')).
Proof.
  unfold locateSchema, putSchema. intros H Hs'.
  rewrite isMapping_setMapValue.
  destruct (isMapping resp); simpl in *; [|done].
  destruct (getMapValue (Some resp) "content") as [[c0|]| |] eqn:Hc; simpl in *; try done.
  destruct (isMapping c0) eqn:Hc0; simpl in *; [|done].
  destruct (selectContentType c0 jsonContentTypes) as [[[t0 a0]|]| |] eqn:Hsel;
    simpl in *; try done.
  destruct (isMapping a0) eqn:Ha0; simpl in *; [|done].
  destruct (getMapValue (Some a0) "schema") as [[s0|]| |] eqn:Hs; simpl in *; try done.
  destruct (isMapping s0); simpl in *; [|done].
  injection H as -> -> -> ->.
  rewrite (getMapValue_setMapValue_eq _ _ _ _ Hc). simpl.
  rewrite isMapping_setMapValue, Hc0. simpl.
  rewrite (selectContentType_setMapValue _ _ _ _ _ Hsel). simpl.
  rewrite isMapping_setMapValue, Ha0. simpl.
  rewrite (getMapValue_setMapValue_eq _ _ _ _ Hs). simpl.
  by rewrite Hs'.
Qed.

Section Quiescent.
Context {FM NS : Type} `{!GoMap string FM} `{!GoMap unit NS}.
Local Abbreviation registry := (@schemaRegistry FM NS).

(** On the response node that [processResponseSchema] leaves, a second
    call changes nothing, whatever the registry. *)
Lemma processResponseSchema_quiescent path method operationID status resp (reg : registry)
    opts resp' reg' changed :
  processResponseSchema path method operationID status resp reg opts
    = Val (resp', reg', changed) ->
  forall path2 method2 operationID2 status2 (reg2 : registry) opts2,
    processResponseSchema path2 method2 operationID2 status2 resp' reg2 opts2
    = Val (resp', reg2, false).
Proof.
  intros Hrun p2 m2 o2 st2 reg2 opts2.
  rewrite processResponseSchema_locate in *.
  destruct (locateSchema resp) as [[[[[c t] a] s]|]| |] eqn:Hloc; simpl in Hrun; try done.
  - destruct (isRefOnlySchema s) eqn:Href.
    + injection Hrun as <- <- <-. rewrite Hloc. simpl. by rewrite Href.
    + destruct (rewriteSchema _ _ _ _ _ _ _) as [[[s' r'] ch]| |] eqn:E;
        simpl in Hrun; try done.
      injection Hrun as <- <- <-.
      assert (Hs : isMapping s = true).
      { unfold locateSchema in Hloc.
        repeat match type of Hloc with
               | context [isMapping ?n] => destruct (isMapping n) eqn:?; simpl in Hloc; try done
               | context [rbind ?m _] => destruct m as [[?|]| |] eqn:?; simpl in Hloc; try done
               | context [match ?p with (_, _) => _ end] => destruct p; simpl in Hloc
               end.
        congruence. }
      destruct (rewriteSchema_inline _ _ _ _ _ _ _ _ _ _ Hs Href E) as (_ & name & ->).
      rewrite (locateSchema_putSchema _ _ _ _ _ _ Hloc)
        by (by rewrite isMapping_makeRefOnlySchema).
      simpl. by rewrite isRefOnlySchema_makeRefOnlySchema.
  - injection Hrun as <- <- <-. by rewrite Hloc.
Qed.

Lemma walkResponse_quiescent path method operationID opts k v (st : registry * bool) v' st' :
  walkResponse path method operationID opts k v st = Val (v', st') ->
  forall path2 method2 operationID2 opts2 (st2 : registry * bool),
    walkResponse path2 method2 operationID2 opts2 k v' st2 = Val (v', st2).
Proof.
  unfold walkResponse. destruct st as [reg ch].
  destruct (processResponseSchema _ _ _ _ _ _ _) as [[[v1 r1] ch1]| |] eqn:E; simpl; try done.
  intros [= <- <-] p2 m2 o2 opts2 [reg2 ch2].
  by rewrite (processResponseSchema_quiescent _ _ _ _ _ _ _ _ _ _ E).
Qed.

Lemma walkOperation_quiescent pathKey opts k v (st : registry * bool) v' st' :
  walkOperation pathKey opts k v st = Val (v', st') ->
  forall pathKey2 opts2 (st2 : registry * bool),
    walkOperation pathKey2 opts2 k v' st2 = Val (v', st2).
Proof.
  unfold walkOperation. intros Hrun pk2 opts2 st2.
  destruct (negb (isHTTPMethod (Value k))); [by injection Hrun as <- <-|].
  destruct (isMapping v) eqn:Hv; simpl in *; [|injection Hrun as <- <-; by rewrite Hv].
  destruct (getMapValue (Some v) "operationId") as [opID| |] eqn:Hop; simpl in *; try done.
  destruct (getMapValue (Some v) "responses") as [[respNode|]| |] eqn:Hresp;
    simpl in *; try done.
  - destruct (isMapping respNode) eqn:Hrm; simpl in *.
    + destruct (walkPairs _ (Content respNode) st) as [[c st1]| |] eqn:Hw;
        simpl in *; try done.
      injection Hrun as <- <-.
      rewrite isMapping_setMapValue, Hv. simpl.
      rewrite getMapValue_setMapValue_ne, Hop by done. simpl.
      rewrite (getMapValue_setMapValue_eq _ _ _ _ Hresp). simpl.
      rewrite isMapping_setContent, Hrm. simpl.
      erewrite (walkPairs_quiescent _ _ _ _ _ _ _ Hw). simpl.
      by rewrite setContent_setContent, setMapValue_twice.
      Unshelve. intros; by eapply walkResponse_quiescent.
    + injection Hrun as <- <-. rewrite Hv, Hop. simpl. rewrite Hresp. simpl.
      by rewrite Hrm.
  - injection Hrun as <- <-. rewrite Hv, Hop. simpl. by rewrite Hresp.
Qed.

Lemma walkPath_quiescent opts k v (st : registry * bool) v' st' :
  walkPath opts k v st = Val (v', st') ->
  forall opts2 (st2 : registry * bool), walkPath opts2 k v' st2 = Val (v', st2).
Proof.
  unfold walkPath. intros Hrun opts2 st2.
  destruct (isMapping v) eqn:Hv; simpl in *; [|injection Hrun as <- <-; by rewrite Hv].
  destruct (walkPairs _ (Content v) st) as [[c st1]| |] eqn:Hw; simpl in *; try done.
  injection Hrun as <- <-. rewrite isMapping_setContent, Hv. simpl.
  erewrite (walkPairs_quiescent _ _ _ _ _ _ _ Hw). done.
  Unshelve. intros; by eapply walkOperation_quiescent.
Qed.

(** The walk over the paths only appends to [components.schemas]. *)
Lemma walkPaths_Appends opts c (reg : registry) ch c' reg' ch' :
  walkPairs (walkPath opts) c (reg, ch) = Val (c', (reg', ch')) -> Appends reg reg'.
Proof.
  set (R := fun s s' : registry * bool => Appends s.1 s'.1).
  assert (Hrefl : forall s, R s s) by (intros; apply Appends_refl).
  assert (Htrans : forall s1 s2 s3, R s1 s2 -> R s2 s3 -> R s1 s3)
    by (intros ???; apply Appends_trans).
  assert (Hresp : forall p m o k v s v' s',
             walkResponse p m o opts k v s = Val (v', s') -> R s s').
  { intros p m o k v [r ch0] v' s'. unfold walkResponse.
    destruct (processResponseSchema _ _ _ _ _ _ _) as [[[v1 r1] ch1]| |] eqn:E;
      simpl; try done.
    intros [= <- <-]. by eapply processResponseSchema_Appends. }
  assert (Hop : forall pk k v s v' s', walkOperation pk opts k v s = Val (v', s') -> R s s').
  { intros pk k v s v' s'. unfold walkOperation.
    destruct (negb (isHTTPMethod _)); [by intros [= <- <-]|].
    destruct (negb (isMapping v)); [by intros [= <- <-]|].
    destruct (getMapValue _ "operationId"); simpl; try done.
    destruct (getMapValue _ "responses") as [[respNode|]| |]; simpl; try done;
      [|by intros [= <- <-]].
    destruct (negb (isMapping respNode)); [by intros [= <- <-]|].
    destruct (walkPairs _ _ s) as [[c1 s1]| |] eqn:Hw; simpl; try done.
    intros [= <- <-]. eapply (walkPairs_preorder R); [done..| |exact Hw].
    intros. by eapply Hresp. }
  assert (Hpath : forall k v s v' s', walkPath opts k v s = Val (v', s') -> R s s').
  { intros k v s v' s'. unfold walkPath.
    destruct (negb (isMapping v)); [by intros [= <- <-]|].
    destruct (walkPairs _ _ s) as [[c1 s1]| |] eqn:Hw; simpl; try done.
    intros [= <- <-]. eapply (walkPairs_preorder R); [done..| |exact Hw].
    intros. by eapply Hop. }
  intros Hw. by apply (walkPairs_preorder R _ _ Hrefl Htrans Hpath _ _ _ Hw).
Qed.

End Quiescent.

(** ** Idempotence of the pass *)

Section Idempotence.
Context {FM NS : Type} `{!GoMap string FM} `{!GoMap unit NS}.
Local Abbreviation registry := (@schemaRegistry FM NS).

Lemma seedRegistry_Val c : forall (r r' : registry),
  seedRegistry c r = Val r' ->
  Nat.even (List.length c) = true /\ schemasNode r' = schemasNode r.
Proof.
  pairs_induction c; intros r r'; simpl; try done.
  - by intros [= <-].
  - intros H. apply IH in H as [? ->]. split; [done|]. by destruct (negb _).
Qed.

Lemma seedRegistry_total c : forall (r : registry),
  Nat.even (List.length c) = true -> exists r', seedRegistry c r = Val r'.
Proof.
  pairs_induction c; intros r; simpl; try done; eauto.
Qed.

Lemma newSchemaRegistry_Val schemas (r : registry) :
  newSchemaRegistry schemas = Val r ->
  schemasNode r = schemas
  /\ (isMapping schemas = true -> Nat.even (List.length (Content schemas)) = true).
Proof.
  unfold newSchemaRegistry. destruct (isMapping schemas).
  - intros H. by apply seedRegistry_Val in H as [? ->].
  - by intros [= <-].
Qed.

Lemma newSchemaRegistry_total schemas :
  (isMapping schemas = true -> Nat.even (List.length (Content schemas)) = true) ->
  exists r : registry, newSchemaRegistry schemas = Val r.
Proof.
  unfold newSchemaRegistry. destruct (isMapping schemas); [|eauto].
  intros H. apply seedRegistry_total. auto.
Qed.

(** C1.  When [RefactorInlineResponseSchemas] returns without error, a
    second run on the document it leaves returns [false] and leaves that
    document as it is. *)
Theorem refactor_idempotent root opts root' changed :
  RefactorInlineResponseSchemas (FM := FM) (NS := NS) root opts = Val (root', changed) ->
  forall opts2,
    RefactorInlineResponseSchemas (FM := FM) (NS := NS) root' opts2 = Val (root', false).
Proof.
  unfold RefactorInlineResponseSchemas. intros Hrun opts2.
  destruct (negb (isKind DocumentNode root) || _) eqn:Hdoc; [done|].
  destruct (Content root) as [|top others] eqn:Hroot; [done|].
  destruct (isMapping top) eqn:Htop; simpl in Hrun; [|done].
  destruct (ensureMapValue top "components") as [[top1 comp0]| |] eqn:H1;
    simpl in Hrun; try done.
  destruct (ensureMapValue comp0 "schemas") as [[comp1 schemas0]| |] eqn:H2;
    simpl in Hrun; try done.
  destruct (newSchemaRegistry schemas0) as [reg0| |] eqn:H3; simpl in Hrun; try done.
  destruct (getMapValue (Some (setMapValue top1 "components" comp1)) "paths")
    as [[paths|]| |] eqn:H4; simpl in Hrun; try done.
  destruct (isMapping paths) eqn:Hpaths; simpl in Hrun; [|done].
  destruct (walkPairs (walkPath opts) (Content paths) (reg0, false))
    as [[c [regF chF]]| |] eqn:H5; simpl in Hrun; try done.
  injection Hrun as <- <-.
  apply ensureMapValue_spec in H1 as [Htop1 Hcomp0].
  apply ensureMapValue_spec in H2 as [Hcomp1 Hschemas0].
  apply newSchemaRegistry_Val in H3 as [Hreg0 Heven0].
  pose proof (walkPaths_Appends _ _ _ _ _ _ _ H5) as (added & Hadded & HregF).
  rewrite Hreg0 in HregF.
  set (compF := setMapValue comp1 "schemas" (schemasNode regF)).
  set (top2 := setMapValue top1 "components" comp1) in *.
  set (top3 := setMapValue (setMapValue top2 "components" compF) "paths"
                 (setContent paths c)).
(* the document left by the first run, read again *)
  assert (HcompF : getMapValue (Some top3) "components" = Val (Some compF)).
  { unfold top3. rewrite getMapValue_setMapValue_ne by done.
    eapply getMapValue_setMapValue_eq. unfold top2.
    by eapply getMapValue_setMapValue_eq. }
  assert (HschemasF : getMapValue (Some compF) "schemas" = Val (Some (schemasNode regF))).
  { unfold compF. by eapply getMapValue_setMapValue_eq. }
  assert (HpathsF : getMapValue (Some top3) "paths" = Val (Some (setContent paths c))).
  { unfold top3. eapply getMapValue_setMapValue_eq.
    rewrite getMapValue_setMapValue_ne by done. exact H4. }
  assert (HregB : exists regB : registry, newSchemaRegistry (schemasNode regF) = Val regB).
  { apply newSchemaRegistry_total. rewrite HregF. rewrite isMapping_setContent.
    intros Hm. simpl. rewrite length_app, Nat.even_add, Hadded, (Heven0 Hm). done. }
  destruct HregB as [regB HregB].
  pose proof (newSchemaRegistry_Val _ _ HregB) as [HregB_node _].
(* the second run *)
  simpl. unfold isKind in *. simpl in *.
  rewrite orb_false_r in Hdoc. rewrite Hdoc. simpl.
  change (isMapping top3) with (isMapping top1). rewrite Htop1. simpl.
  rewrite (ensureMapValue_present _ _ _ HcompF). simpl.
  rewrite (ensureMapValue_present _ _ _ HschemasF). simpl.
  rewrite (setMapValue_same _ _ _ HcompF).
  rewrite HregB. simpl. rewrite HpathsF. simpl.
  rewrite isMapping_setContent, Hpaths. simpl.
  erewrite (walkPairs_quiescent _ _ _ _ _ _ _ H5). simpl.
  rewrite HregB_node, !setContent_setContent.
  rewrite (setMapValue_same _ _ _ HschemasF), (setMapValue_same _ _ _ HcompF).
  by rewrite (setMapValue_same _ _ _ HpathsF).
  Unshelve. intros; by eapply walkPath_quiescent.
Qed.

End Idempotence.

Lemma refactor_idempotent_witness :
  exists root',
    Sample.run Sample.inlineDoc = Val (root', true)
    /\ Sample.run root' = Val (root', false).
Proof.
  eexists. split; [vm_compute; reflexivity|].
  apply (refactor_idempotent (FM := gmap string string) (NS := gmap string unit)
           Sample.inlineDoc Sample.opts0 _ true).
  vm_compute. reflexivity.
Defined.

(** ** Independence from the layout of the Go maps *)

Lemma resRel_bind {A B A' B' : Type} (R : A -> B -> Prop) (Q : A' -> B' -> Prop)
    (m1 : res A) (m2 : res B) (k1 : A -> res A') (k2 : B -> res B') :
  resRel R m1 m2 ->
  (forall a b, R a b -> resRel Q (k1 a) (k2 b)) ->
  resRel Q (rbind m1 k1) (rbind m2 k2).
Proof. destruct m1, m2; simpl; try done. auto. Qed.

Lemma resRel_refl {A B : Type} (Q : A -> B -> Prop) {C : Type}
    (m : res C) (k1 : C -> res A) (k2 : C -> res B) :
  (forall c, resRel Q (k1 c) (k2 c)) -> resRel Q (rbind m k1) (rbind m k2).
Proof. destruct m; simpl; try done. Qed.

Lemma gm_get_set {V M : Type} `{!GoMap V M} (m : M) k v k' :
  gm_get (gm_set m k v) k' = if String.eqb k k' then Some v else gm_get m k'.
Proof.
  destruct (String.eqb_spec k k') as [<-|Hne].
  - apply gm_get_set_eq.
  - by apply gm_get_set_ne.
Qed.

Section Layouts.
Context {FM1 NS1 FM2 NS2 : Type}.
Context `{!GoMap string FM1} `{!GoMap unit NS1} `{!GoMap string FM2} `{!GoMap unit NS2}.
Implicit Types (ra : @schemaRegistry FM1 NS1) (rb : @schemaRegistry FM2 NS2).

Lemma sameLookups_registerName ra rb name :
  sameLookups ra rb -> sameLookups (registerName ra name) (registerName rb name).
Proof.
  intros (Hs & Hf & Hn). split; [done|]. split; [done|].
  intros k. simpl. by rewrite !gm_get_set, Hn.
Qed.

Lemma sameLookups_registerFingerprint ra rb fp name :
  sameLookups ra rb ->
  sameLookups (registerFingerprint ra fp name) (registerFingerprint rb fp name).
Proof.
  intros (Hs & Hf & Hn). split; [done|]. split; [|done].
  intros k. simpl. by rewrite !gm_get_set, Hf.
Qed.

Lemma sameLookups_withSchemasNode ra rb n :
  sameLookups ra rb -> sameLookups (withSchemasNode ra n) (withSchemasNode rb n).
Proof. by intros (Hs & Hf & Hn). Qed.

Lemma seedRegistry_sim c : forall ra rb,
  sameLookups ra rb -> resRel sameLookups (seedRegistry c ra) (seedRegistry c rb).
Proof.
  pairs_induction c; intros ra rb HR; simpl; try done.
  apply IH. destruct (negb _).
  - by apply sameLookups_registerFingerprint, sameLookups_registerName.
  - by apply sameLookups_registerName.
Qed.

Lemma newSchemaRegistry_sim schemas :
  resRel sameLookups
    (newSchemaRegistry (FM := FM1) (NS := NS1) schemas)
    (newSchemaRegistry (FM := FM2) (NS := NS2) schemas).
Proof.
  unfold newSchemaRegistry.
  assert (H0 : sameLookups (mkRegistry (FM := FM1) (NS := NS1) gm_empty gm_empty schemas)
                           (mkRegistry (FM := FM2) (NS := NS2) gm_empty gm_empty schemas)).
  { split; [done|]. split; intros k; simpl; by rewrite !gm_get_empty. }
  destruct (isMapping schemas); [by apply seedRegistry_sim|done].
Qed.

(** The name that [ensureUniqueName] returns depends on the map of names
    only through its lookups. *)
Lemma ensureUniqueName_sim ra rb base fp :
  sameLookups ra rb ->
  ensureUniqueName ra base fp = ensureUniqueName rb base fp.
Proof.
  intros (Hs & Hf & Hn). unfold ensureUniqueName. rewrite Hs.
  destruct (getMapValue _ _) as [existing| |]; cbn [rbind]; try done.
  destruct (match existing with Some _ => _ | None => _ end); [done|].
  destruct (uniqueNameLoop_fuel (existingNames ra) base) as (d1 & -> & Hfree1 & Htaken1).
  destruct (uniqueNameLoop_fuel (existingNames rb) base) as (d2 & -> & Hfree2 & Htaken2).
  destruct (Nat.lt_trichotomy d1 d2) as [Hlt|[->|Hlt]]; [|done|].
  - exfalso. apply (Htaken2 d1 Hlt). by rewrite <- Hn.
  - exfalso. apply (Htaken1 d2 Hlt). by rewrite Hn.
Qed.

Lemma componentizeSchema_sim ra rb node nameHint opts :
  sameLookups ra rb ->
  resRel (fun x y => x.1.1 = y.1.1 /\ sameLookups x.1.2 y.1.2 /\ x.2 = y.2)
    (componentizeSchema ra node nameHint opts)
    (componentizeSchema rb node nameHint opts).
Proof.
  intros HR. unfold componentizeSchema. destruct node as [node|]; [|done].
  destruct (negb (isMapping node)); [done|].
  destruct (isRefOnlySchema node); [done|].
  destruct HR as (Hs & Hf & Hn). rewrite <- Hf.
  destruct (gm_get (byFingerprint ra) _); [done|].
  rewrite (ensureUniqueName_sim ra rb) by done.
  destruct (ensureUniqueName rb _ _) as [name| |]; simpl; try done.
  split; [done|]. split; [|done]. rewrite Hs.
  by apply sameLookups_registerFingerprint, sameLookups_registerName,
           sameLookups_withSchemasNode.
Qed.

Lemma handleAlternativesPattern_sim path method operationID status
    schemaNode baseNode ra rb opts :
  sameLookups ra rb ->
  resRel (fun x y => x.1.1 = y.1.1 /\ sameLookups x.1.2 y.1.2 /\ x.2 = y.2)
    (handleAlternativesPattern path method operationID status schemaNode baseNode ra opts)
    (handleAlternativesPattern path method operationID status schemaNode baseNode rb opts).
Proof.
  intros HR. unfold handleAlternativesPattern. destruct (String.eqb _ "").
  - eapply resRel_bind; [by apply componentizeSchema_sim|].
    intros [[n1 q1] [nm1 ch1]] [[n2 q2] [nm2 ch2]] (Hn & Hq & Ho). simpl in *.
    by simplify_eq.
  - unfold getMapValueExists. pose proof HR as (Hs & _). rewrite Hs.
    destruct (getMapValue (Some (schemasNode rb)) _) as [x| |]; simpl; try done.
    set (q1 := if negb _ then _ else ra). set (q2 := if negb _ then _ else rb).
    assert (Hq : sameLookups q1 q2).
    { subst q1 q2. destruct (negb _); [|done].
      by apply sameLookups_registerFingerprint, sameLookups_registerName,
               sameLookups_withSchemasNode. }
    pose proof Hq as (Hqs & _). rewrite Hqs.
    destruct (getMapValue (Some (schemasNode q2)) _) as [y| |]; simpl; try done.
    split; [done|]. split; [|done].
    destruct y; simpl; [exact Hq|].
    by apply sameLookups_registerFingerprint, sameLookups_registerName,
             sameLookups_withSchemasNode.
Qed.

Lemma rewriteSchema_sim path method operationID status schemaNode ra rb opts :
  sameLookups ra rb ->
  resRel (fun x y => x.1.1 = y.1.1 /\ sameLookups x.1.2 y.1.2 /\ x.2 = y.2)
    (rewriteSchema path method operationID status schemaNode ra opts)
    (rewriteSchema path method operationID status schemaNode rb opts).
Proof.
  intros HR. unfold rewriteSchema.
  set (plain1 := rbind (componentizeSchema ra _ _ _) _).
  set (plain2 := rbind (componentizeSchema rb _ _ _) _).
  assert (Hplain : resRel (fun x y => x.1.1 = y.1.1 /\ sameLookups x.1.2 y.1.2 /\ x.2 = y.2)
                     plain1 plain2).
  { eapply resRel_bind; [by apply componentizeSchema_sim|].
    intros [[n1 q1] [nm1 ch1]] [[n2 q2] [nm2 ch2]] (Hn & Hq & Ho). simpl in *.
    by simplify_eq. }
  destruct (getMapValue _ "allOf") as [[allOf|]| |]; simpl; try done.
  destruct (_ && _); [|done].
  destruct (Content allOf) as [|b [|e ?]]; try done.
  destruct (isInlineObjectWithAlternatives b e) as [[|]| |]; simpl; try done.
  by apply handleAlternativesPattern_sim.
Qed.

Lemma processResponseSchema_sim path method operationID status resp ra rb opts :
  sameLookups ra rb ->
  resRel (fun x y => x.1.1 = y.1.1 /\ sameLookups x.1.2 y.1.2 /\ x.2 = y.2)
    (processResponseSchema path method operationID status resp ra opts)
    (processResponseSchema path method operationID status resp rb opts).
Proof.
  intros HR. rewrite !processResponseSchema_locate.
  destruct (locateSchema resp) as [[loc|]| |]; simpl; try done.
  destruct (isRefOnlySchema _); [done|].
  eapply resRel_bind; [by apply rewriteSchema_sim|].
  intros [[n1 q1] ch1] [[n2 q2] ch2] (Hn & Hq & Ho). simpl in *. by simplify_eq.
Qed.

Lemma walkResponse_sim path method operationID opts k v
    (s1 : @schemaRegistry FM1 NS1 * bool) (s2 : @schemaRegistry FM2 NS2 * bool) :
  sameState s1 s2 ->
  resRel (stateRel sameState)
    (walkResponse path method operationID opts k v s1)
    (walkResponse path method operationID opts k v s2).
Proof.
  destruct s1 as [ra c1], s2 as [rb c2]. intros [HR Hc]. simpl in *. subst c2.
  unfold walkResponse.
  eapply (resRel_bind (fun x y => x.1.1 = y.1.1 /\ sameLookups x.1.2 y.1.2 /\ x.2 = y.2));
    [by apply processResponseSchema_sim|].
  intros [[n1 q1] ch1] [[n2 q2] ch2] (Hn & Hq & Ho). simpl in *. by simplify_eq.
Qed.

Lemma walkOperation_sim pathKey opts k v
    (s1 : @schemaRegistry FM1 NS1 * bool) (s2 : @schemaRegistry FM2 NS2 * bool) :
  sameState s1 s2 ->
  resRel (stateRel sameState)
    (walkOperation pathKey opts k v s1) (walkOperation pathKey opts k v s2).
Proof.
  intros HR. unfold walkOperation.
  destruct (negb (isHTTPMethod _)); [done|].
  destruct (negb (isMapping v)); [done|].
  apply resRel_refl. intros opID. apply resRel_refl. intros [respNode|]; [|done].
  destruct (negb (isMapping respNode)); [done|].
  eapply resRel_bind.
  - apply walkPairs_sim; [|done]. intros. by apply walkResponse_sim.
  - intros [c1 t1] [c2 t2] [Hc Ht]. simpl in *. by subst.
Qed.

Lemma walkPath_sim opts k v
    (s1 : @schemaRegistry FM1 NS1 * bool) (s2 : @schemaRegistry FM2 NS2 * bool) :
  sameState s1 s2 ->
  resRel (stateRel sameState) (walkPath opts k v s1) (walkPath opts k v s2).
Proof.
  intros HR. unfold walkPath. destruct (negb (isMapping v)); [done|].
  eapply resRel_bind.
  - apply walkPairs_sim; [|done]. intros. by apply walkOperation_sim.
  - intros [c1 t1] [c2 t2] [Hc Ht]. simpl in *. by subst.
Qed.

(** The pass over two layouts of the maps. *)
Lemma RefactorInlineResponseSchemas_layouts root opts :
  RefactorInlineResponseSchemas (FM := FM1) (NS := NS1) root opts
  = RefactorInlineResponseSchemas (FM := FM2) (NS := NS2) root opts.
Proof.
  assert (Heq : forall (A : Type) (x y : res A), resRel eq x y -> x = y).
  { intros A [a|e|] [b|e'|]; simpl; intros; try done; by subst. }
  apply Heq. unfold RefactorInlineResponseSchemas.
  destruct (negb _ || _); [done|].
  destruct (Content root) as [|top others]; [done|].
  destruct (negb (isMapping top)); [done|].
  apply resRel_refl. intros [top1 comp0]. apply resRel_refl. intros [comp1 schemas0].
  eapply resRel_bind; [apply newSchemaRegistry_sim|]. intros ra rb HR.
  apply resRel_refl. intros [paths|]; [|done].
  destruct (negb (isMapping paths)); [done|].
  eapply resRel_bind.
  - apply (walkPairs_sim sameState); [|done]. intros. by apply walkPath_sim.
  - intros [c1 [q1 ch1]] [c2 [q2 ch2]] [Hc [(Hs & _) Hch]]. simpl in *. subst.
    by rewrite Hs.
Qed.

(** C9.  The pass is a function of the input tree alone: whatever the
    layout of the two Go maps of the registry (nothing is read from them
    but lookups by key), the run returns the same flag or the same error
    and leaves the same tree; and so does [FormatFile] with the files. *)
Theorem refactor_deterministic root opts :
  RefactorInlineResponseSchemas (FM := FM1) (NS := NS1) root opts
  = RefactorInlineResponseSchemas (FM := FM2) (NS := NS2) root opts
  /\ forall env fs inPath outPath,
       FormatFile (FM := FM1) (NS := NS1) env fs inPath outPath opts
       = FormatFile (FM := FM2) (NS := NS2) env fs inPath outPath opts.
Proof.
  split; [apply RefactorInlineResponseSchemas_layouts|].
  intros env fs i o. unfold FormatFile.
  destruct (fs !! i) as [input|]; [|done].
  destruct (parseYAML env input) as [r| |]; try done.
  by rewrite RefactorInlineResponseSchemas_layouts.
Qed.

End Layouts.

(** ** The run, step by step *)

(** [ensureMapValue] either finds the value and changes nothing, or finds
    none and creates an empty mapping. *)
Lemma ensureMapValue_cases m key m1 v :
  ensureMapValue m key = Val (m1, v) ->
  (getMapValue (Some m) key = Val (Some v) /\ m1 = m)
  \/ (getMapValue (Some m) key = Val None /\ v = mkNode MappingNode "" "" [] zeroMeta).
Proof.
  unfold ensureMapValue. destruct (isMapping m) eqn:Hm.
  - destruct (getMapValue (Some m) key) as [[v0|]| |]; simpl; try done.
    + intros [= <- <-]. by left.
    + intros [= <- <-]. by right.
  - unfold getMapValue at 1. simpl. intros [= <- <-]. right. split; [|done].
    unfold getMapValue. by rewrite Hm.
Qed.

(** The other keys of the node are read as before. *)
Lemma ensureMapValue_other m key m1 v key' :
  ensureMapValue m key = Val (m1, v) -> isMapping m = true -> key <> key' ->
  getMapValue (Some m1) key' = getMapValue (Some m) key'.
Proof.
  unfold ensureMapValue. intros H Hm Hne. rewrite Hm in H.
  destruct (getMapValue (Some m) key) as [[v0|]| |] eqn:E; simpl in H; try done.
  - by injection H as <- <-.
  - injection H as <- <-. unfold getMapValue in *. rewrite isMapping_setContent, Hm in *.
    simpl. revert E. generalize (Content m) as c. intros c.
    pairs_induction c; simpl; try done.
    + intros _. apply String.eqb_neq in Hne. by rewrite Hne.
    + destruct (String.eqb (Value k) key); [done|].
      destruct (String.eqb (Value k) key'); [done|]. auto.
Qed.

Section Run.
Context {FM NS : Type} `{!GoMap string FM} `{!GoMap unit NS}.
Local Abbreviation registry := (@schemaRegistry FM NS).

(** A relation between registries that every call of
    [processResponseSchema] respects holds between the registry the walk
    starts with and the one it ends with. *)
Lemma walkPaths_preorder (R : registry -> registry -> Prop) opts :
  (forall reg, R reg reg) ->
  (forall r1 r2 r3, R r1 r2 -> R r2 r3 -> R r1 r3) ->
  (forall path method operationID status resp reg resp' reg' changed,
     processResponseSchema path method operationID status resp reg opts
       = Val (resp', reg', changed) -> R reg reg') ->
  forall c reg ch c' reg' ch',
    walkPairs (walkPath opts) c (reg, ch) = Val (c', (reg', ch')) -> R reg reg'.
Proof.
  intros Hrefl0 Htrans0 Hstep0.
  set (R' := fun s s' : registry * bool => R s.1 s'.1).
  assert (Hrefl : forall s, R' s s) by (intros; apply Hrefl0).
  assert (Htrans : forall s1 s2 s3, R' s1 s2 -> R' s2 s3 -> R' s1 s3)
    by (intros ???; apply Htrans0).
  assert (Hresp : forall p m o k v s v' s',
             walkResponse p m o opts k v s = Val (v', s') -> R' s s').
  { intros p m o k v [r ch0] v' s'. unfold walkResponse.
    destruct (processResponseSchema _ _ _ _ _ _ _) as [[[v1 r1] ch1]| |] eqn:E;
      simpl; try done.
    intros [= <- <-]. by eapply Hstep0. }
  assert (Hop : forall pk k v s v' s', walkOperation pk opts k v s = Val (v', s') -> R' s s').
  { intros pk k v s v' s'. unfold walkOperation.
    destruct (negb (isHTTPMethod _)); [by intros [= <- <-]|].
    destruct (negb (isMapping v)); [by intros [= <- <-]|].
    destruct (getMapValue _ "operationId"); simpl; try done.
    destruct (getMapValue _ "responses") as [[respNode|]| |]; simpl; try done;
      [|by intros [= <- <-]].
    destruct (negb (isMapping respNode)); [by intros [= <- <-]|].
    destruct (walkPairs _ _ s) as [[c1 s1]| |] eqn:Hw; simpl; try done.
    intros [= <- <-]. eapply (walkPairs_preorder R'); [done..| |exact Hw].
    intros. by eapply Hresp. }
  assert (Hpath : forall k v s v' s', walkPath opts k v s = Val (v', s') -> R' s s').
  { intros k v s v' s'. unfold walkPath.
    destruct (negb (isMapping v)); [by intros [= <- <-]|].
    destruct (walkPairs _ _ s) as [[c1 s1]| |] eqn:Hw; simpl; try done.
    intros [= <- <-]. eapply (walkPairs_preorder R'); [done..| |exact Hw].
    intros. by eapply Hop. }
  intros c reg ch c' reg' ch' Hw.
  by apply (walkPairs_preorder R' _ _ Hrefl Htrans Hpath _ _ _ Hw).
Qed.

(** What a run that returns without error has gone through: the nodes it
    found or created, the registry it seeded, the walk over the paths, and
    where the results are in the tree it leaves. *)
Lemma refactor_run root opts root' changed :
  RefactorInlineResponseSchemas (FM := FM) (NS := NS) root opts = Val (root', changed) ->
  exists top others paths schemas0 (reg0 : registry) c (regF : registry),
    Content root = top :: others
    /\ isMapping top = true
    /\ getMapValue (Some top) "paths" = Val (Some paths)
    /\ isMapping paths = true
    /\ Content schemas0 = initialEntries root
    /\ (isMapping schemas0 = true \/ schemasOf root = Val (Some schemas0))
    /\ newSchemaRegistry schemas0 = Val reg0
    /\ walkPairs (walkPath opts) (Content paths) (reg0, false) = Val (c, (regF, changed))
    /\ schemasOf root' = Val (Some (schemasNode regF))
    /\ pathsOf root' = Val (Some (setContent paths c)).
Proof.
  unfold RefactorInlineResponseSchemas. intros Hrun.
  destruct (negb (isKind DocumentNode root) || _) eqn:Hdoc; [done|].
  destruct (Content root) as [|top others] eqn:Hroot; [done|].
  destruct (isMapping top) eqn:Htop; simpl in Hrun; [|done].
  destruct (ensureMapValue top "components") as [[top1 comp0]| |] eqn:H1;
    simpl in Hrun; try done.
  destruct (ensureMapValue comp0 "schemas") as [[comp1 schemas0]| |] eqn:H2;
    simpl in Hrun; try done.
  destruct (newSchemaRegistry schemas0) as [reg0| |] eqn:H3; simpl in Hrun; try done.
  destruct (getMapValue (Some (setMapValue top1 "components" comp1)) "paths")
    as [[paths|]| |] eqn:H4; simpl in Hrun; try done.
  destruct (isMapping paths) eqn:Hpaths; simpl in Hrun; [|done].
  destruct (walkPairs (walkPath opts) (Content paths) (reg0, false))
    as [[c [regF chF]]| |] eqn:H5; simpl in Hrun; try done.
  injection Hrun as <- <-.
  exists top, others, paths, schemas0, reg0, c, regF.
  pose proof (ensureMapValue_spec _ _ _ _ H1) as [Htop1 Hcomp0].
  pose proof (ensureMapValue_spec _ _ _ _ H2) as [Hcomp1 Hschemas0].
  rewrite getMapValue_setMapValue_ne in H4 by done.
  rewrite (ensureMapValue_other _ _ _ _ "paths" H1 Htop) in H4 by done.
  repeat split; try done.
  - (* the entries at the start *)
    unfold initialEntries, schemasOf. rewrite Hroot.
    destruct (ensureMapValue_cases _ _ _ _ H1) as [[-> ->]|[-> ->]]; simpl.
    + destruct (ensureMapValue_cases _ _ _ _ H2) as [[-> ->]|[-> ->]]; done.
    + unfold ensureMapValue in H2. simpl in H2. by injection H2 as <- <-.
  - unfold schemasOf. rewrite Hroot.
    destruct (ensureMapValue_cases _ _ _ _ H1) as [[-> ->]|[-> ->]]; simpl.
    + destruct (ensureMapValue_cases _ _ _ _ H2) as [[-> ->]|[-> ->]]; auto.
    + unfold ensureMapValue in H2. simpl in H2. injection H2 as <- <-. auto.
  - unfold schemasOf. simpl.
    rewrite getMapValue_setMapValue_ne by done.
    erewrite getMapValue_setMapValue_eq; [|by eapply getMapValue_setMapValue_eq].
    simpl. by eapply getMapValue_setMapValue_eq.
  - unfold pathsOf. simpl. eapply getMapValue_setMapValue_eq.
    rewrite !getMapValue_setMapValue_ne by done.
    by rewrite (ensureMapValue_other _ _ _ _ "paths" H1 Htop).
Qed.

End Run.

(** ** Names in [components.schemas] *)

Lemma entriesOf_app c d :
  Nat.even (List.length c) = true -> entriesOf (c ++ d) = (entriesOf c ++ entriesOf d)%list.
Proof.
  pairs_induction c; simpl; try done. intros H. by rewrite IH.
Qed.

Lemma entryNames_app c d :
  Nat.even (List.length c) = true -> entryNames (c ++ d) = (entryNames c ++ entryNames d)%list.
Proof. intros H. unfold entryNames. by rewrite entriesOf_app, map_app. Qed.

Lemma lookupPairs_Some_In key c v :
  lookupPairs key c = Val (Some v) -> In (key, v) (entriesOf c).
Proof.
  pairs_induction c; simpl; try done.
  destruct (String.eqb_spec (Value k) key) as [->|].
  - intros [= ->]. by left.
  - intros H. right. auto.
Qed.

Lemma lookupPairs_None_notin key c :
  lookupPairs key c = Val None -> ~ In key (entryNames c).
Proof.
  pairs_induction c; simpl; try done; [by intros _ []|].
  destruct (String.eqb_spec (Value k) key) as [->|Hne]; [done|].
  intros H [Hk|Hin]; [done|]. by apply IH.
Qed.

Lemma lookupPairs_Val_even key c o :
  lookupPairs key c = Val o -> o = None -> Nat.even (List.length c) = true.
Proof.
  pairs_induction c; simpl; try done.
  destruct (String.eqb (Value k) key); [by intros [= <-]|]. auto.
Qed.

Lemma schemaFingerprint_nonempty n : schemaFingerprint (Some n) <> "".
Proof. by destruct n. Qed.

Lemma FreshlyExtends_refl c : FreshlyExtends c c.
Proof.
  exists []. rewrite app_nil_r. repeat split; try done. constructor.
Qed.

Lemma FreshlyExtends_trans c1 c2 c3 :
  Nat.even (List.length c1) = true ->
  FreshlyExtends c1 c2 -> FreshlyExtends c2 c3 -> FreshlyExtends c1 c3.
Proof.
  intros Hc1 (a1 & -> & Ha1 & Hnd1 & Hf1) (a2 & -> & Ha2 & Hnd2 & Hf2).
  exists (a1 ++ a2)%list. split; [by rewrite app_assoc|].
  rewrite entryNames_app in Hf2 by done.
  split; [by rewrite length_app, Nat.even_add, Ha1, Ha2|].
  rewrite entryNames_app by done. split.
  - apply NoDup_app; [done..|].
    intros x Hx1 Hx2. apply (Hf2 x Hx2). apply in_or_app. by right.
  - intros name Hin. apply in_app_or in Hin as [Hin|Hin]; [by apply Hf1|].
    intros Hc. apply (Hf2 name Hin). apply in_or_app. by left.
Qed.

Lemma FreshlyExtends_entry c name v :
  ~ In name (entryNames c) -> FreshlyExtends c (c ++ [scalarNode name; v]).
Proof.
  intros Hfresh. exists [scalarNode name; v]. repeat split; try done.
  - unfold entryNames. simpl. apply NoDup_cons; [by intros []|constructor].
  - intros n [<-|[]]. done.
Qed.

(** Names that are new keep schemas apart: when the names of [c] are
    extended with new ones, two entries of the result under the same name
    have the same fingerprint as soon as that holds in [c]. *)
Lemma FreshlyExtends_no_collision c c' :
  Nat.even (List.length c) = true ->
  FreshlyExtends c c' ->
  (forall name s1 s2, In (name, s1) (entriesOf c) -> In (name, s2) (entriesOf c) ->
     schemaFingerprint (Some s1) = schemaFingerprint (Some s2)) ->
  forall name s1 s2, In (name, s1) (entriesOf c') -> In (name, s2) (entriesOf c') ->
    schemaFingerprint (Some s1) = schemaFingerprint (Some s2).
Proof.
  intros Hc (added & -> & Ha & Hnd & Hfresh) Hold name s1 s2.
  rewrite entriesOf_app by done. intros H1 H2.
  assert (Hfun : forall a b, In (name, a) (entriesOf added) ->
                             In (name, b) (entriesOf added) -> a = b).
  { unfold entryNames in Hnd. clear -Hnd. induction (entriesOf added) as [|[n x] l IH];
      [done|]. simpl in Hnd. apply NoDup_cons_iff in Hnd as [Hn Hnd].
    intros a b [Hl|Hl] [Hr|Hr]; simplify_eq; auto.
    - exfalso. apply Hn. apply in_map_iff. by exists (name, b).
    - exfalso. apply Hn. apply in_map_iff. by exists (name, a). }
  assert (Hsplit : forall a, In (name, a) (entriesOf added) ->
                             forall b, In (name, b) (entriesOf c) -> False).
  { intros a Hina b Hinb. apply (Hfresh name).
    - apply in_map_iff. by exists (name, a).
    - apply in_map_iff. by exists (name, b). }
  apply in_app_or in H1 as [H1|H1], H2 as [H2|H2].
  - by eapply Hold.
  - by destruct (Hsplit _ H2 _ H1).
  - by destruct (Hsplit _ H1 _ H2).
  - by rewrite (Hfun _ _ H1 H2).
Qed.

Section Names.
Context {FM NS : Type} `{!GoMap string FM} `{!GoMap unit NS}.
Local Abbreviation registry := (@schemaRegistry FM NS).

Lemma gm_get_set_mono {V M : Type} `{!GoMap V M} (m : M) k v k' :
  gm_get m k' <> None -> gm_get (gm_set m k v) k' <> None.
Proof. rewrite gm_get_set. by destruct (String.eqb k k'). Qed.

Lemma seedRegistry_registers c : forall (r r' : registry),
  seedRegistry c r = Val r' ->
  (forall name, gm_get (existingNames r) name <> None ->
                gm_get (existingNames r') name <> None)
  /\ (forall fp, gm_get (byFingerprint r) fp <> None ->
                 gm_get (byFingerprint r') fp <> None)
  /\ forall name schema, In (name, schema) (entriesOf c) ->
       gm_get (existingNames r') name <> None
       /\ gm_get (byFingerprint r') (schemaFingerprint (Some schema)) <> None.
Proof.
  pairs_induction c; intros r r'; simpl; try done.
  - intros [= <-]. repeat split; try done.
  - intros H. apply IH in H as (Hn & Hf & Hin).
    destruct (String.eqb_spec (schemaFingerprint (Some v)) "") as [E|_];
      [by apply schemaFingerprint_nonempty in E|]. simpl in *.
    split; [|split].
    + intros name Hname. apply Hn. by apply gm_get_set_mono.
    + intros fp Hfp. apply Hf. by apply gm_get_set_mono.
    + intros name schema [[= <- <-]|Hrest]; [|by apply Hin]. split.
      * apply Hn. simpl. by rewrite gm_get_set_eq.
      * apply Hf. simpl. by rewrite gm_get_set_eq.
Qed.

(** The registry that [newSchemaRegistry] seeds from a mapping describes
    it. *)
Lemma newSchemaRegistry_OK schemas (r : registry) :
  newSchemaRegistry schemas = Val r -> isMapping schemas = true -> RegistryOK r.
Proof.
  unfold newSchemaRegistry. intros H Hm. rewrite Hm in H.
  pose proof (seedRegistry_Val _ _ _ H) as [Heven Hnode]. simpl in Hnode.
  apply seedRegistry_registers in H as (_ & _ & Hin).
  unfold RegistryOK. by rewrite Hnode.
Qed.

(** Appending an entry under a name that the node does not have, and
    registering the name and the fingerprint of the schema. *)
Lemma register_entry_OK (reg : registry) name schema fp :
  RegistryOK reg ->
  ~ In name (entryNames (Content (schemasNode reg))) ->
  fp = schemaFingerprint (Some schema) ->
  let reg' := registerFingerprint
                (registerName
                   (withSchemasNode reg (appendMapEntry (schemasNode reg) name schema))
                   name) fp name in
  RegistryOK reg'
  /\ FreshlyExtends (Content (schemasNode reg)) (Content (schemasNode reg')).
Proof.
  intros (Hm & Heven & Hin) Hfresh -> reg'. split.
  - split; [done|]. split.
    + simpl. rewrite length_app, Nat.even_add, Heven. done.
    + intros n s. simpl. rewrite entriesOf_app by done. intros H.
      apply in_app_or in H as [H|[[= <- <-]|[]]].
      * destruct (Hin _ _ H). split; by apply gm_get_set_mono.
      * by rewrite !gm_get_set_eq.
  - simpl. by apply FreshlyExtends_entry.
Qed.

(** With a registry that describes the node, the name that
    [ensureUniqueName] returns for a fingerprint that is not registered is
    the first free candidate. *)
Lemma ensureUniqueName_first_free (reg : registry) base fp name :
  RegistryOK reg ->
  gm_get (byFingerprint reg) fp = None ->
  ensureUniqueName reg base fp = Val name ->
  exists j, name = candidateName base j
    /\ gm_get (existingNames reg) name = None
    /\ forall j', (j' < j)%nat ->
         gm_get (existingNames reg) (candidateName base j') <> None.
Proof.
  intros (Hm & Heven & Hin) Hfp. unfold ensureUniqueName, getMapValue. rewrite Hm.
  destruct (lookupPairs base _) as [[existing|]| |] eqn:E; cbn [rbind]; try done.
  - destruct (String.eqb_spec (schemaFingerprint (Some existing)) fp) as [<-|_].
    + apply lookupPairs_Some_In, Hin in E as [_ E]. done.
    + destruct (uniqueNameLoop_fuel (existingNames reg) base) as (d & -> & Hfree & Htaken).
      intros [= <-]. eauto.
  - destruct (uniqueNameLoop_fuel (existingNames reg) base) as (d & -> & Hfree & Htaken).
    intros [= <-]. eauto.
Qed.

Lemma RegistryOK_name_free (reg : registry) name :
  RegistryOK reg -> gm_get (existingNames reg) name = None ->
  ~ In name (entryNames (Content (schemasNode reg))).
Proof.
  intros (_ & _ & Hin) Hfree H. apply in_map_iff in H as ([n s] & <- & H).
  by destruct (Hin _ _ H).
Qed.

Lemma componentizeSchema_fresh (reg : registry) node nameHint opts node' reg' out :
  RegistryOK reg ->
  componentizeSchema reg node nameHint opts = Val (node', reg', out) ->
  RegistryOK reg'
  /\ FreshlyExtends (Content (schemasNode reg)) (Content (schemasNode reg')).
Proof.
  intros HOK. unfold componentizeSchema.
  assert (Hsame : RegistryOK reg
                  /\ FreshlyExtends (Content (schemasNode reg)) (Content (schemasNode reg)))
    by (split; [done|apply FreshlyExtends_refl]).
  destruct node as [node|]; [|by intros [= <- <- <-]].
  destruct (negb (isMapping node)); [by intros [= <- <- <-]|].
  destruct (isRefOnlySchema node); [by intros [= <- <- <-]|].
  destruct (gm_get _ _) eqn:Hfp; [by intros [= <- <- <-]|].
  destruct (ensureUniqueName _ _ _) as [name| |] eqn:Hname; simpl; try done.
  intros [= <- <- <-].
  destruct (ensureUniqueName_first_free _ _ _ _ HOK Hfp Hname) as (j & _ & Hfree & _).
  apply register_entry_OK; [done|by apply RegistryOK_name_free|by rewrite cloneNode_id].
Qed.

Lemma handleAlternativesPattern_fresh path method operationID status
    schemaNode baseNode (reg : registry) opts schemaNode' reg' changed :
  RegistryOK reg ->
  handleAlternativesPattern path method operationID status schemaNode baseNode reg opts
    = Val (schemaNode', reg', changed) ->
  RegistryOK reg'
  /\ FreshlyExtends (Content (schemasNode reg)) (Content (schemasNode reg')).
Proof.
  intros HOK. unfold handleAlternativesPattern. destruct (String.eqb _ ""); simpl.
  - destruct (componentizeSchema _ _ _ _) as [[[n r] [nm ch]]| |] eqn:E; simpl; [|done..].
    intros [= <- <- <-]. by eapply componentizeSchema_fresh.
  - unfold getMapValueExists.
    destruct (getMapValue _ _) as [x| |] eqn:Hx; simpl; [|done..].
    set (reg1 := if negb _ then _ else reg).
    assert (H1 : RegistryOK reg1
                 /\ FreshlyExtends (Content (schemasNode reg)) (Content (schemasNode reg1))).
    { subst reg1. destruct x as [x|]; simpl; [split; [done|apply FreshlyExtends_refl]|].
      apply register_entry_OK; [done| |done].
      unfold getMapValue in Hx. destruct HOK as (Hm & _). rewrite Hm in Hx.
      by apply lookupPairs_None_notin. }
    destruct H1 as [HOK1 Hext1].
    destruct (getMapValue (Some (schemasNode reg1)) _) as [y| |] eqn:Hy; simpl; [|done..].
    intros [= <- <- <-].
    destruct HOK as (Hm & Heven & Hin).
    destruct y as [y|]; simpl; [done|].
    destruct (register_entry_OK reg1 (deriveSchemaName operationID +:+ "WithAlternatives")
                (buildCompositeSchema (deriveSchemaName operationID))
                (schemaFingerprint (Some (buildCompositeSchema (deriveSchemaName operationID))))
                HOK1)
      as [HOK2 Hext2]; [|reflexivity|].
    + unfold getMapValue in Hy. destruct HOK1 as (Hm1 & _). rewrite Hm1 in Hy.
      by apply lookupPairs_None_notin.
    + split; [done|]. by eapply FreshlyExtends_trans.
Qed.

Lemma rewriteSchema_fresh path method operationID status schemaNode (reg : registry) opts
    schemaNode' reg' changed :
  RegistryOK reg ->
  rewriteSchema path method operationID status schemaNode reg opts
    = Val (schemaNode', reg', changed) ->
  RegistryOK reg'
  /\ FreshlyExtends (Content (schemasNode reg)) (Content (schemasNode reg')).
Proof.
  intros HOK. unfold rewriteSchema.
  set (plain := rbind (componentizeSchema _ _ _ _) _).
  assert (Hplain : plain = Val (schemaNode', reg', changed) ->
            RegistryOK reg'
            /\ FreshlyExtends (Content (schemasNode reg)) (Content (schemasNode reg'))).
  { subst plain.
    destruct (componentizeSchema _ _ _ _) as [[[n r] [nm ch]]| |] eqn:E; simpl; [|done..].
    intros [= <- <- <-]. by eapply componentizeSchema_fresh. }
  destruct (getMapValue _ "allOf") as [[allOf|]| |]; simpl; try done.
  destruct (_ && _); [|done].
  destruct (Content allOf) as [|b [|e ?]]; try done.
  destruct (isInlineObjectWithAlternatives b e) as [[|]| |]; simpl; try done.
  by apply handleAlternativesPattern_fresh.
Qed.

Lemma processResponseSchema_fresh path method operationID status resp (reg : registry) opts
    resp' reg' changed :
  RegistryOK reg ->
  processResponseSchema path method operationID status resp reg opts
    = Val (resp', reg', changed) ->
  RegistryOK reg'
  /\ FreshlyExtends (Content (schemasNode reg)) (Content (schemasNode reg')).
Proof.
  intros HOK. rewrite processResponseSchema_locate.
  assert (Hsame : RegistryOK reg
                  /\ FreshlyExtends (Content (schemasNode reg)) (Content (schemasNode reg)))
    by (split; [done|apply FreshlyExtends_refl]).
  destruct (locateSchema resp) as [[loc|]| |]; simpl; try done;
    [|by intros [= <- <- <-]].
  destruct (isRefOnlySchema _); [by intros [= <- <- <-]|].
  destruct (rewriteSchema _ _ _ _ _ _ _) as [[[s' r'] ch]| |] eqn:E; simpl; try done.
  intros [= <- <- <-]. by eapply rewriteSchema_fresh.
Qed.

End Names.

Section NameCollisions.
Context {FM NS : Type} `{!GoMap string FM} `{!GoMap unit NS}.
Local Abbreviation registry := (@schemaRegistry FM NS).

(** Two calls of [componentizeSchema] with the same hint, for schemas with
    different fingerprints that are not registered: the first gets the
    base name when it is free, the second the first free name among
    [base2], [base3], ... *)
Lemma componentizeSchema_colliding_hints (reg : registry) node1 node2 nameHint opts
    x1 r1 n1 c1 x2 r2 n2 c2 :
  let base := if String.eqb nameHint "" then "InlineSchema" else nameHint in
  RegistryOK reg ->
  isMapping node1 = true -> isRefOnlySchema node1 = false ->
  isMapping node2 = true -> isRefOnlySchema node2 = false ->
  schemaFingerprint (Some node1) <> schemaFingerprint (Some node2) ->
  gm_get (byFingerprint reg) (schemaFingerprint (Some node1)) = None ->
  gm_get (byFingerprint reg) (schemaFingerprint (Some node2)) = None ->
  gm_get (existingNames reg) base = None ->
  componentizeSchema reg (Some node1) nameHint opts = Val (x1, r1, (n1, c1)) ->
  componentizeSchema r1 (Some node2) nameHint opts = Val (x2, r2, (n2, c2)) ->
  n1 = base
  /\ exists j, (1 <= j)%nat
       /\ n2 = base +:+ itoa (N.of_nat j + 1)
       /\ gm_get (existingNames reg) n2 = None
       /\ (forall j', (1 <= j' < j)%nat ->
             gm_get (existingNames reg) (candidateName base j') <> None)
       /\ (gm_get (existingNames reg) (base +:+ "2") = None -> n2 = base +:+ "2").
Proof.
  intros base HOK Hm1 Hr1 Hm2 Hr2 Hne Hfp1 Hfp2 Hfree H1 H2.
  pose proof (componentizeSchema_fresh _ _ _ _ _ _ _ HOK H1) as [HOK1 _].
  unfold componentizeSchema in H1, H2.
  rewrite Hm1, Hr1, Hfp1 in H1. simpl in H1. fold base in H1.
  destruct (ensureUniqueName reg base _) as [name1| |] eqn:E1; simpl in H1; try done.
  injection H1 as Hx Hr Hn Hc. subst x1 r1 n1 c1.
  destruct (ensureUniqueName_first_free _ _ _ _ HOK Hfp1 E1) as (j1 & -> & _ & Htaken1).
  assert (j1 = 0%nat) as ->.
  { destruct j1; [done|]. exfalso. apply (Htaken1 0%nat); [lia|done]. }
  split; [done|]. simpl in *.
  rewrite Hm2, Hr2 in H2. simpl in H2. rewrite gm_get_set in H2.
  destruct (String.eqb_spec (schemaFingerprint (Some node1)) (schemaFingerprint (Some node2)));
    [done|].
  rewrite Hfp2 in H2. fold base in H2.
  destruct (ensureUniqueName (registerFingerprint _ _ _) base _) as [name2| |] eqn:E2;
    simpl in H2; try done.
  injection H2 as Hx Hr Hn Hc. subst x2 r2 n2 c2.
  apply ensureUniqueName_first_free in E2 as (j2 & -> & Hfree2 & Htaken2); [|done|].
  2:{ simpl. rewrite gm_get_set.
      by destruct (String.eqb_spec (schemaFingerprint (Some node1))
                                   (schemaFingerprint (Some node2))). }
  simpl in Hfree2, Htaken2.
  assert (Hother : forall j, (1 <= j)%nat ->
            gm_get (gm_set (existingNames reg) base ()) (candidateName base j)
            = gm_get (existingNames reg) (candidateName base j)).
  { intros j Hj. apply gm_get_set_ne. intros Heq.
    apply (candidateName_inj base 0 j) in Heq. lia. }
  assert (Hj2 : (1 <= j2)%nat).
  { destruct j2; [|lia]. simpl in Hfree2. by rewrite gm_get_set_eq in Hfree2. }
  exists j2. split; [done|]. split; [by destruct j2; [lia|]|].
  split; [by rewrite <- Hother|]. split.
  - intros j' Hj'. rewrite <- Hother by lia. apply Htaken2. lia.
  - intros Hfree22. destruct (decide (j2 = 1%nat)) as [->|Hne2]; [done|].
    exfalso. apply (Htaken2 1%nat); [lia|]. by rewrite Hother.
Qed.


End NameCollisions.



(** ** The walk, response by response *)

(** A loop over pairs, round by round: the value that round [i] leaves, the
    states around it, and a relation between states that the rounds
    respect. *)
Lemma walkPairs_at {S : Type} (R : S -> S -> Prop)
    (body : Node -> Node -> S -> res (Node * S)) c :
  (forall s, R s s) ->
  (forall s1 s2 s3, R s1 s2 -> R s2 s3 -> R s1 s3) ->
  (forall i k v s v' s', pairAt c i = Some (k, v) -> body k v s = Val (v', s') -> R s s') ->
  forall s c' s', walkPairs body c s = Val (c', s') ->
    R s s'
    /\ forall i k v, pairAt c i = Some (k, v) ->
         exists v' s1 s2,
           pairAt c' i = Some (k, v') /\ body k v s1 = Val (v', s2) /\ R s s1 /\ R s2 s'.
Proof.
  intros Hrefl Htrans. pairs_induction c; intros Hstep s c' s'; simpl; try done.
  - intros [= <- <-]. split; [done|]. by intros [|i].
  - destruct (body k v s) as [[v1 s1]| |] eqn:E; simpl; try done.
    destruct (walkPairs body rest s1) as [[rest1 s2]| |] eqn:E2; simpl; try done.
    intros [= <- <-].
    destruct (IH (fun i => Hstep (Datatypes.S i)) _ _ _ E2) as [HR Hat].
    pose proof (Hstep 0%nat k v s v1 s1 eq_refl E) as HR0.
    split; [by eapply Htrans|].
    intros [|i] k0 v0 Hi; simpl in *.
    + injection Hi as <- <-. exists v1, s, s1. eauto.
    + destruct (Hat _ _ _ Hi) as (v' & t1 & t2 & Hc' & Hb & Ht1 & Ht2).
      exists v', t1, t2. eauto.
Qed.

Section Sites.
Context {FM NS : Type} `{!GoMap string FM} `{!GoMap unit NS}.
Local Abbreviation registry := (@schemaRegistry FM NS).
Variable R : registry -> registry -> Prop.
Variable opts : Options.

Lemma walkResponses_at path method operationID c :
  (forall reg, R reg reg) ->
  (forall ra rb rc, R ra rb -> R rb rc -> R ra rc) ->
  stepsRespect R opts (fun p m o st resp =>
                  p = path /\ m = method /\ o = operationID /\
                  exists k ck, pairAt c k = Some (ck, resp) /\ st = Value ck) ->
  forall (s : registry * bool) c' s',
    walkPairs (walkResponse path method operationID opts) c s = Val (c', s') ->
    R s.1 s'.1
    /\ forall k ck cv, pairAt c k = Some (ck, cv) ->
         exists cv', pairAt c' k = Some (ck, cv')
                     /\ siteRun R opts s.1 s'.1 path method operationID (Value ck) cv cv'.
Proof.
  intros Hrefl Htrans Hstep s c' s' Hw.
  set (R' := fun a b : registry * bool => R a.1 b.1).
  assert (Hstep' : forall i k v t v' t', pairAt c i = Some (k, v) ->
            walkResponse path method operationID opts k v t = Val (v', t') -> R' t t').
  { intros i k v [reg ch] v' t' Hi. unfold walkResponse.
    destruct (processResponseSchema _ _ _ _ _ _ _) as [[[v1 r1] ch1]| |] eqn:E;
      simpl; try done.
    intros [= <- <-]. unfold R'. simpl. eapply Hstep; [|exact E]. eauto 10. }
  destruct (walkPairs_at R' _ c (fun a => Hrefl a.1) (fun a b d => Htrans a.1 b.1 d.1)
              Hstep' _ _ _ Hw) as [HR Hat].
  - split; [done|]. intros k ck cv Hk.
    destruct (Hat _ _ _ Hk) as (cv' & [r1 ch1] & [r2 ch2] & Hc' & Hb & H1 & H2).
    exists cv'. split; [done|]. unfold walkResponse in Hb.
    destruct (processResponseSchema _ _ _ _ _ _ _) as [[[v1 q1] ch]| |] eqn:E;
      simpl in Hb; try done.
    injection Hb as <- <- _. by exists r1, q1, ch.
Qed.

Lemma walkOperation_at pathKey mk mv :
  (forall reg, R reg reg) ->
  (forall ra rb rc, R ra rb -> R rb rc -> R ra rc) ->
  stepsRespect R opts (fun p m o st resp =>
                  p = Value pathKey /\
                  exists respNode k ck,
                    operationResponses mk mv = Some (m, o, respNode)
                    /\ pairAt (Content respNode) k = Some (ck, resp) /\ st = Value ck) ->
  forall (s : registry * bool) mv' s',
    walkOperation pathKey opts mk mv s = Val (mv', s') ->
    R s.1 s'.1
    /\ forall method operationID respNode,
         operationResponses mk mv = Some (method, operationID, respNode) ->
         exists c',
           operationResponses mk mv' = Some (method, operationID, setContent respNode c')
           /\ forall k ck cv, pairAt (Content respNode) k = Some (ck, cv) ->
                exists cv', pairAt c' k = Some (ck, cv')
                  /\ siteRun R opts s.1 s'.1 (Value pathKey) method operationID (Value ck) cv cv'.
Proof.
  intros Hrefl Htrans Hstep s mv' s'. unfold walkOperation, operationResponses in *.
  destruct (isHTTPMethod (Value mk)); simpl; [|by intros [= <- <-]].
  destruct (isMapping mv) eqn:Hmv; simpl; [|by intros [= <- <-]].
  destruct (getMapValue (Some mv) "operationId") as [opID| |] eqn:Hop; simpl; try done.
  destruct (getMapValue (Some mv) "responses") as [[respNode|]| |] eqn:Hresp;
    simpl; try done; [|by intros [= <- <-]].
  destruct (isMapping respNode) eqn:Hrm; simpl; [|by intros [= <- <-]].
  set (operationID := match opID with
                      | Some opIDNode =>
                          if isKind ScalarNode opIDNode then Value opIDNode else ""
                      | None => ""
                      end) in *.
  destruct (walkPairs _ (Content respNode) s) as [[c1 s1]| |] eqn:Hw; simpl; try done.
  intros [= <- <-].
  assert (Hprem : stepsRespect R opts (fun p m o st resp =>
                    p = Value pathKey /\ m = Value mk /\ o = operationID /\
                    exists k ck, pairAt (Content respNode) k = Some (ck, resp)
                                 /\ st = Value ck)).
  { intros p m o st resp reg resp' reg' ch (-> & -> & -> & k & ck & Hk & ->).
    apply Hstep. split; [done|]. by exists respNode, k, ck. }
  destruct (walkResponses_at _ _ _ _ Hrefl Htrans Hprem _ _ _ Hw) as [HR Hat].
  split; [done|]. intros method0 operationID0 rn [= <- <- <-].
  exists c1. split; [|done].
  rewrite isMapping_setMapValue, Hmv. simpl.
  rewrite getMapValue_setMapValue_ne, Hop by done.
  rewrite (getMapValue_setMapValue_eq _ _ _ _ Hresp).
  by rewrite isMapping_setContent, Hrm.
Qed.

Lemma walkPath_at pk pv :
  (forall reg, R reg reg) ->
  (forall ra rb rc, R ra rb -> R rb rc -> R ra rc) ->
  stepsRespect R opts (fun p m o st resp =>
                  exists j k, responseAt [pk; pv] (0%nat, j, k) = Some (p, m, o, st, resp)) ->
  forall (s : registry * bool) pv' s',
    walkPath opts pk pv s = Val (pv', s') ->
    R s.1 s'.1
    /\ forall j k p m o st resp,
         responseAt [pk; pv] (0%nat, j, k) = Some (p, m, o, st, resp) ->
         exists resp',
           responseAt [pk; pv'] (0%nat, j, k) = Some (p, m, o, st, resp')
           /\ siteRun R opts s.1 s'.1 p m o st resp resp'.
Proof.
  intros Hrefl Htrans Hstep s pv' s'. unfold walkPath. simpl.
  destruct (isMapping pv) eqn:Hpv; simpl; [|by intros [= <- <-]; rewrite Hpv].
  destruct (walkPairs _ (Content pv) s) as [[c1 s1]| |] eqn:Hw; simpl; try done.
  intros [= <- <-]. rewrite isMapping_setContent, Hpv. simpl.
  set (R' := fun a b : registry * bool => R a.1 b.1).
  assert (Hstep' : forall j mk mv t mv' t', pairAt (Content pv) j = Some (mk, mv) ->
            walkOperation pk opts mk mv t = Val (mv', t') -> R' t t').
  { intros j mk mv t mv' t' Hj Hb.
    apply (walkOperation_at pk mk mv Hrefl Htrans) in Hb as [Hb _]; [done|].
    intros p m o st resp reg resp' reg' ch (-> & respNode & k & ck & Hor & Hk & ->).
    apply Hstep. exists j, k. simpl. by rewrite Hpv, Hj, Hor, Hk. }
  destruct (walkPairs_at R' _ (Content pv) (fun a => Hrefl a.1)
              (fun a b d => Htrans a.1 b.1 d.1) Hstep' _ _ _ Hw) as [HR Hat].
  split; [done|]. intros j k p m o st resp Hsite.
  destruct (pairAt (Content pv) j) as [[mk mv]|] eqn:Hj; [|done].
  destruct (operationResponses mk mv) as [[[method opID] respNode]|] eqn:Hor; [|done].
  destruct (pairAt (Content respNode) k) as [[ck cv]|] eqn:Hk; [|done].
  injection Hsite as <- <- <- <- <-.
  destruct (Hat _ _ _ Hj) as (mv' & t1 & t2 & Hj' & Hb & Ht1 & Ht2).
  rewrite Hj'.
  apply (walkOperation_at pk mk mv Hrefl Htrans) in Hb as [_ Hb].
  - destruct (Hb _ _ _ Hor) as (c' & -> & Hsites).
    destruct (Hsites _ _ _ Hk) as (cv' & Hk' & reg1 & reg2 & ch & Hrun & H1 & H2).
    simpl. rewrite Hk'. exists cv'. split; [done|].
    exists reg1, reg2, ch. split; [done|]. split; by eapply Htrans.
  - intros p m o st resp reg resp' reg' ch (-> & rn & k0 & ck0 & Hor0 & Hk0 & ->).
    apply Hstep. exists j, k0. simpl. by rewrite Hpv, Hj, Hor0, Hk0.
Qed.

(** The walk over the paths, response by response: where the walker
    reaches a response in the tree it starts from, it reaches one in the
    tree it leaves, with the same arguments; that response is what
    [processResponseSchema] made of the first, between two registries that
    lie between the first and the last registry of the walk. *)
Lemma walkPaths_at pc :
  (forall reg, R reg reg) ->
  (forall ra rb rc, R ra rb -> R rb rc -> R ra rc) ->
  stepsRespect R opts (fun p m o st resp =>
                  exists addr, responseAt pc addr = Some (p, m, o, st, resp)) ->
  forall (s : registry * bool) pc' s',
    walkPairs (walkPath opts) pc s = Val (pc', s') ->
    R s.1 s'.1
    /\ forall addr p m o st resp,
         responseAt pc addr = Some (p, m, o, st, resp) ->
         exists resp',
           responseAt pc' addr = Some (p, m, o, st, resp')
           /\ siteRun R opts s.1 s'.1 p m o st resp resp'.
Proof.
  intros Hrefl Htrans Hstep s pc' s' Hw.
  set (R' := fun a b : registry * bool => R a.1 b.1).
  assert (Hone : forall i pk pv j k, pairAt pc i = Some (pk, pv) ->
            responseAt pc (i, j, k) = responseAt [pk; pv] (0%nat, j, k)).
  { intros i pk pv j k Hi. simpl. by rewrite Hi. }
  assert (Hstep' : forall i pk pv t pv' t', pairAt pc i = Some (pk, pv) ->
            walkPath opts pk pv t = Val (pv', t') -> R' t t').
  { intros i pk pv t pv' t' Hi Hb.
    apply (walkPath_at pk pv Hrefl Htrans) in Hb as [Hb _]; [done|].
    intros p m o st resp reg resp' reg' ch (j & k & Hsite).
    apply Hstep. exists (i, j, k). by rewrite (Hone _ _ _ _ _ Hi). }
  destruct (walkPairs_at R' _ pc (fun a => Hrefl a.1)
              (fun a b d => Htrans a.1 b.1 d.1) Hstep' _ _ _ Hw) as [HR Hat].
  split; [done|]. intros [[i j] k] p m o st resp Hsite.
  destruct (pairAt pc i) as [[pk pv]|] eqn:Hi; [|by simpl in Hsite; rewrite Hi in Hsite].
  rewrite (Hone _ _ _ _ _ Hi) in Hsite.
  destruct (Hat _ _ _ Hi) as (pv' & t1 & t2 & Hi' & Hb & Ht1 & Ht2).
  apply (walkPath_at pk pv Hrefl Htrans) in Hb as [_ Hb].
  - destruct (Hb _ _ _ _ _ _ _ Hsite) as (resp' & Hsite' & reg1 & reg2 & ch & Hrun & H1 & H2).
    exists resp'. split.
    + assert (Hone' : responseAt pc' (i, j, k) = responseAt [pk; pv'] (0%nat, j, k))
        by (simpl; by rewrite Hi').
      by rewrite Hone'.
    + exists reg1, reg2, ch. split; [done|]. split; by eapply Htrans.
  - intros p0 m0 o0 st0 resp0 reg resp' reg' ch (j0 & k0 & Hsite0).
    apply Hstep. exists (i, j0, k0). by rewrite (Hone _ _ _ _ _ Hi).
Qed.

End Sites.

(** ** Deduplication by fingerprint *)

Lemma responseSchema_locate resp s :
  responseSchema resp = Some s ->
  exists c t a, locateSchema resp = Val (Some (c, t, a, s)) /\ isMapping s = true.
Proof.
  unfold responseSchema.
  destruct (locateSchema resp) as [[[[[c t] a] s0]|]| |] eqn:Hloc; try done.
  intros [= ->]. exists c, t, a. split; [done|].
  unfold locateSchema in Hloc.
  repeat match type of Hloc with
         | context [isMapping ?n] => destruct (isMapping n) eqn:?; simpl in Hloc; try done
         | context [rbind ?m _] => destruct m as [[?|]| |] eqn:?; simpl in Hloc; try done
         | context [match ?p with (_, _) => _ end] => destruct p; simpl in Hloc
         end.
  congruence.
Qed.

Lemma entryFingerprints_app c d :
  Nat.even (List.length c) = true ->
  entryFingerprints (c ++ d) = (entryFingerprints c ++ entryFingerprints d)%list.
Proof. intros H. unfold entryFingerprints. by rewrite entriesOf_app, map_app. Qed.

Section Dedup.
Context {FM NS : Type} `{!GoMap string FM} `{!GoMap unit NS}.
Local Abbreviation registry := (@schemaRegistry FM NS).

Lemma keeps_refl (reg : registry) : keeps reg reg.
Proof. split; [by intros ??|by intros ?]. Qed.

Lemma keeps_trans (ra rb rc : registry) : keeps ra rb -> keeps rb rc -> keeps ra rc.
Proof.
  intros [Hp1 Ha1] [Hp2 Ha2]. split; [|by auto].
  intros fp name Hfp. by apply Hp2, Hp1.
Qed.

(** A schema that does not take the alternatives rewrite goes through
    [componentizeSchema] with the name hint of the response. *)
Lemma rewriteSchema_plain path method operationID status schemaNode (reg : registry) opts
    schemaNode' reg' changed :
  ~ takesAlternativesRewrite operationID schemaNode ->
  rewriteSchema path method operationID status schemaNode reg opts
    = Val (schemaNode', reg', changed) ->
  exists node' name,
    componentizeSchema reg (Some schemaNode)
      (deriveResponseSchemaNameHint path method operationID status) opts
    = Val (node', reg', (name, changed))
    /\ schemaNode' = default schemaNode node'.
Proof.
  intros Hplain. unfold rewriteSchema.
  set (plain := rbind (componentizeSchema _ _ _ _) _).
  assert (Hp : plain = Val (schemaNode', reg', changed) ->
               exists node' name,
                 componentizeSchema reg (Some schemaNode)
                   (deriveResponseSchemaNameHint path method operationID status) opts
                 = Val (node', reg', (name, changed))
                 /\ schemaNode' = default schemaNode node').
  { subst plain.
    destruct (componentizeSchema _ _ _ _) as [[[n r] [nm ch]]| |]; simpl; [|done..].
    intros [= <- <- <-]. eauto. }
  destruct (getMapValue _ "allOf") as [[allOf|]| |] eqn:HallOf; simpl; try done.
  destruct (isKind SequenceNode allOf) eqn:Hkind; simpl; [|done].
  destruct (Content allOf) as [|b [|e [|x rest]]] eqn:Hcontent; simpl; try done.
  destruct (isInlineObjectWithAlternatives b e) as [[|]| |] eqn:Hshape; simpl; try done.
  unfold handleAlternativesPattern.
  destruct (String.eqb_spec (deriveSchemaName operationID) "") as [_|Hname]; [done|].
  exfalso. apply Hplain. split; [done|]. exists allOf, b, e.
  split; [done|]. split; [by apply N.eqb_eq|]. split; [done|].
  by apply isInlineObjectWithAlternatives_iff.
Qed.

(** What [componentizeSchema] does with an inline schema: the node becomes
    a bare reference to the name registered for its fingerprint, no
    registration is lost, and the entries appended so far keep different
    fingerprints. *)
Lemma componentizeSchema_keeps (reg : registry) node nameHint opts node' reg' name changed :
  isMapping node = true -> isRefOnlySchema node = false ->
  componentizeSchema reg (Some node) nameHint opts = Val (node', reg', (name, changed)) ->
  node' = Some (makeRefOnlySchema node name)
  /\ gm_get (byFingerprint reg') (schemaFingerprint (Some node)) = Some name
  /\ keeps reg reg'.
Proof.
  intros Hm Hr. unfold componentizeSchema. rewrite Hm, Hr. simpl.
  destruct (gm_get (byFingerprint reg) _) as [existing|] eqn:Hfp.
  - intros [= <- <- <- <-]. split; [done|]. split; [done|]. apply keeps_refl.
  - destruct (ensureUniqueName _ _ _) as [nm| |]; simpl; [|done..].
    intros [= <- <- <- <-]. split; [done|]. simpl. split; [by rewrite gm_get_set_eq|].
    split.
    + intros fp name Hname. simpl. rewrite gm_get_set.
      destruct (String.eqb_spec (schemaFingerprint (Some node)) fp) as [<-|]; [|done].
      congruence.
    + intros c0 (added & Hc & Heven & Hnd & Hreg).
      exists (added ++ [scalarNode nm; cloneNode node])%list. simpl.
      split; [by rewrite Hc, app_assoc|].
      split; [by rewrite length_app, Nat.even_add, Heven|].
      rewrite entryFingerprints_app by done. unfold entryFingerprints at 2 4. simpl.
      rewrite cloneNode_id. split.
      * apply NoDup_app; [done|apply NoDup_cons; [by intros []|constructor]|].
        intros fp Hin [<-|[]]. by apply (Hreg _ Hin).
      * intros fp Hin. rewrite gm_get_set.
        destruct (String.eqb_spec (schemaFingerprint (Some node)) fp) as [|Hne]; [done|].
        apply in_app_or in Hin as [Hin|[<-|[]]]; [by apply Hreg|done].
Qed.

(** A response of a plain document, rewritten. *)
Lemma processResponseSchema_keeps path method operationID status resp (reg : registry) opts
    resp' reg' changed :
  (forall schemaNode, responseSchema resp = Some schemaNode ->
     isRefOnlySchema schemaNode = false ->
     ~ takesAlternativesRewrite operationID schemaNode) ->
  processResponseSchema path method operationID status resp reg opts
    = Val (resp', reg', changed) ->
  keeps reg reg'
  /\ forall schemaNode, responseSchema resp = Some schemaNode ->
       isRefOnlySchema schemaNode = false ->
       exists name,
         responseSchema resp' = Some (makeRefOnlySchema schemaNode name)
         /\ gm_get (byFingerprint reg') (schemaFingerprint (Some schemaNode)) = Some name.
Proof.
  intros Hplain. rewrite processResponseSchema_locate. unfold responseSchema in *.
  destruct (locateSchema resp) as [[[[[c t] a] s]|]| |] eqn:Hloc; simpl; try done.
  - destruct (isRefOnlySchema s) eqn:Href.
    + intros [= <- <- <-]. split; [apply keeps_refl|]. intros s0 [= <-]. congruence.
    + destruct (rewriteSchema _ _ _ _ _ _ _) as [[[s' r'] ch]| |] eqn:E; simpl; try done.
      intros [= <- <- <-].
      assert (Hs : isMapping s = true).
      { destruct (responseSchema_locate resp s) as (? & ? & ? & _ & Hs); [|done].
        unfold responseSchema. by rewrite Hloc. }
      apply rewriteSchema_plain in E as (node' & name & E & ->); [|by apply Hplain].
      apply componentizeSchema_keeps in E as (-> & Hname & Hkeeps); [|done..].
      split; [done|]. intros s0 [= <-] _. exists name. split; [|done].
      simpl. rewrite (locateSchema_putSchema _ _ _ _ _ _ Hloc); [done|].
      by rewrite isMapping_makeRefOnlySchema.
  - intros [= <- <- <-]. split; [apply keeps_refl|]. by intros s0.
Qed.

(** C2, as amended.  In a document none of whose inline response schemas
    takes the alternatives rewrite, the entries that the run appends to
    [components.schemas] have fingerprints that differ from one another
    (one entry at most for a shape), and two inline response schemas with
    equal fingerprints are, in the tree that the run leaves, bare
    references to one and the same name. *)
Theorem deduplication root opts root' changed :
  RefactorInlineResponseSchemas (FM := FM) (NS := NS) root opts = Val (root', changed) ->
  PlainDocument root ->
  (exists schemas' added,
     schemasOf root' = Val (Some schemas')
     /\ Content schemas' = (initialEntries root ++ added)%list
     /\ NoDup (entryFingerprints added))
  /\ forall addr1 addr2 path1 method1 operationID1 status1 resp1 schema1
            path2 method2 operationID2 status2 resp2 schema2,
       responseOf root addr1 = Some (path1, method1, operationID1, status1, resp1) ->
       responseSchema resp1 = Some schema1 -> isRefOnlySchema schema1 = false ->
       responseOf root addr2 = Some (path2, method2, operationID2, status2, resp2) ->
       responseSchema resp2 = Some schema2 -> isRefOnlySchema schema2 = false ->
       schemaFingerprint (Some schema1) = schemaFingerprint (Some schema2) ->
       exists name resp1' resp2',
         responseOf root' addr1 = Some (path1, method1, operationID1, status1, resp1')
         /\ responseSchema resp1' = Some (makeRefOnlySchema schema1 name)
         /\ responseOf root' addr2 = Some (path2, method2, operationID2, status2, resp2')
         /\ responseSchema resp2' = Some (makeRefOnlySchema schema2 name)
         /\ isRefOnlySchema (makeRefOnlySchema schema1 name) = true
         /\ isRefOnlySchema (makeRefOnlySchema schema2 name) = true.
Proof.
  intros Hrun Hplain.
  apply refactor_run in Hrun
    as (top & others & paths & schemas0 & reg0 & c & regF &
        Hroot & Htop & Hpaths & Hpm & Hinit & Hkind & Hreg0 & Hwalk & Hschemas' & Hpaths').
  pose proof (newSchemaRegistry_Val _ _ Hreg0) as [Hnode0 _].
  assert (HpathsOf : pathsOf root = Val (Some paths)) by (unfold pathsOf; by rewrite Hroot).
  assert (Hsteps : stepsRespect keeps opts
            (fun p m o st resp => exists addr,
               responseAt (Content paths) addr = Some (p, m, o, st, resp))).
  { intros p m o st resp reg resp' reg' ch (addr & Haddr) Hstep.
    eapply processResponseSchema_keeps; [|exact Hstep].
    intros s Hs Href. eapply Hplain; [|exact Hs|exact Href].
    unfold responseOf. rewrite HpathsOf. exact Haddr. }
  destruct (walkPaths_at keeps opts (Content paths) keeps_refl keeps_trans Hsteps _ _ _ Hwalk)
    as [[_ Hadded] Hsites]. simpl in *.
  split.
  - destruct (Hadded (Content schemas0)) as (added & Hc & _ & Hnd & _).
    { exists []. rewrite Hnode0, app_nil_r. repeat split; try done. constructor. }
    exists (schemasNode regF), added. by rewrite <- Hinit.
  - intros a1 a2 p1 m1 o1 st1 resp1 s1 p2 m2 o2 st2 resp2 s2
           Ha1 Hs1 Hr1 Ha2 Hs2 Hr2 Hfp.
    unfold responseOf in *. rewrite HpathsOf in Ha1, Ha2. rewrite Hpaths'. simpl.
    destruct (Hsites _ _ _ _ _ _ Ha1) as (resp1' & Ha1' & q1 & q1' & ch1 & Hrun1 & _ & Hk1).
    destruct (Hsites _ _ _ _ _ _ Ha2) as (resp2' & Ha2' & q2 & q2' & ch2 & Hrun2 & _ & Hk2).
    apply processResponseSchema_keeps in Hrun1 as [_ Hrun1].
    2:{ intros s Hs Href. eapply Hplain; [|exact Hs|exact Href].
        unfold responseOf. rewrite HpathsOf. exact Ha1. }
    apply processResponseSchema_keeps in Hrun2 as [_ Hrun2].
    2:{ intros s Hs Href. eapply Hplain; [|exact Hs|exact Href].
        unfold responseOf. rewrite HpathsOf. exact Ha2. }
    destruct (Hrun1 _ Hs1 Hr1) as (name1 & Hs1' & Hname1).
    destruct (Hrun2 _ Hs2 Hr2) as (name2 & Hs2' & Hname2).
    apply Hk1 in Hname1. apply Hk2 in Hname2. rewrite Hfp in Hname1.
    assert (name1 = name2) as <- by congruence.
    destruct (responseSchema_locate _ _ Hs1) as (? & ? & ? & _ & Hm1).
    destruct (responseSchema_locate _ _ Hs2) as (? & ? & ? & _ & Hm2).
    exists name1, resp1', resp2'. repeat split; try done;
      by apply isRefOnlySchema_makeRefOnlySchema.
Qed.

End Dedup.

Lemma twoPlainDoc_plain : PlainDocument Sample.twoPlainDoc.
Proof.
  intros [[i j] k] p m o st resp s Hresp Hs Href (_ & allOf & b & e & HallOf & _).
  destruct i as [|[|i]], j as [|[|j]], k as [|[|k]];
    vm_compute in Hresp; try discriminate;
    injection Hresp as <- <- <- <- <-; vm_compute in Hs; injection Hs as <-;
    vm_compute in HallOf; discriminate.
Qed.

Lemma deduplication_witness :
  exists root' name resp1' resp2',
    Sample.run Sample.twoPlainDoc = Val (root', true)
    /\ responseOf root' (0, 0, 0)%nat
       = Some ("/airports/{id}", "get", "get_airport", "200", resp1')
    /\ responseSchema resp1' = Some (makeRefOnlySchema Sample.airport name)
    /\ responseOf root' (1, 0, 0)%nat
       = Some ("/flights/{id}/track", "get", "", "200", resp2')
    /\ responseSchema resp2' = Some (makeRefOnlySchema Sample.airport name).
Proof.
  edestruct (deduplication (FM := gmap string string) (NS := gmap string unit)
               Sample.twoPlainDoc Sample.opts0) as [_ Hsites];
    [vm_compute; reflexivity | apply twoPlainDoc_plain |].
  edestruct (Hsites (0, 0, 0)%nat (1, 0, 0)%nat)
    as (name & resp1' & resp2' & H1 & Hs1 & H2 & Hs2 & _);
    [vm_compute; reflexivity | vm_compute; reflexivity | reflexivity
    |vm_compute; reflexivity | vm_compute; reflexivity | reflexivity
    |reflexivity |].
  eexists _, name, resp1', resp2'. split; [reflexivity|].
  repeat split; [exact H1|exact Hs1|exact H2|exact Hs2].
Defined.

(** C2, as stated, fails: two operations have the same instance of the
    alternatives idiom as response schema; the run names the components
    after the operation identifiers, so the two responses end as references
    to two names, and the object is stored twice, as [Airport] and as
    [Operator]. *)
Lemma alternatives_are_not_deduplicated :
  exists root' resp1 resp2 resp1' resp2',
    Sample.run Sample.twoAlternativesDoc = Val (root', true)
    /\ responseOf Sample.twoAlternativesDoc (0, 0, 0)%nat
       = Some ("/airports/{id}", "get", "get_airport", "200", resp1)
    /\ responseOf Sample.twoAlternativesDoc (1, 0, 0)%nat
       = Some ("/operators/{id}", "get", "get_operator", "200", resp2)
    /\ responseSchema resp1 = Some (Sample.alternativesOf Sample.airport)
    /\ responseSchema resp2 = Some (Sample.alternativesOf Sample.airport)
    /\ responseOf root' (0, 0, 0)%nat
       = Some ("/airports/{id}", "get", "get_airport", "200", resp1')
    /\ responseOf root' (1, 0, 0)%nat
       = Some ("/operators/{id}", "get", "get_operator", "200", resp2')
    /\ responseSchema resp1' = Some (Sample.refTo "AirportWithAlternatives")
    /\ responseSchema resp2' = Some (Sample.refTo "OperatorWithAlternatives")
    /\ component root' "Airport" = Val (Some Sample.airport)
    /\ component root' "Operator" = Val (Some Sample.airport).
Proof.
  eexists _, _, _, _, _. split; [vm_compute; reflexivity|].
  repeat split; vm_compute; reflexivity.
Qed.

(** * Further properties of the package *)

(** ** Fingerprints tell shapes apart *)

Lemma Node_forall_ind (P : Node -> Prop) :
  (forall k t v cs m, Forall P cs -> P (mkNode k t v cs m)) -> forall n, P n.
Proof.
  intros Hstep. fix IH 1. intros [k t v cs m]. apply Hstep.
  induction cs as [|c cs IHcs]; constructor; [apply IH | exact IHcs].
Qed.

Lemma append_assoc (a b c : string) : (a +:+ b) +:+ c = a +:+ (b +:+ c).
Proof.
  induction a as [|x a IH]; [done|].
  change (String x ((a +:+ b) +:+ c) = String x (a +:+ (b +:+ c))). by rewrite IH.
Qed.

Lemma append_cons (x : ascii) (a b : string) : String x a +:+ b = String x (a +:+ b).
Proof. done. Qed.

Lemma append_empty_l (a : string) : "" +:+ a = a.
Proof. done. Qed.

Lemma lacksByte_app c a b : lacksByte c (a +:+ b) = lacksByte c a && lacksByte c b.
Proof.
  induction a as [|x a IH]; [done|]. rewrite append_cons. simpl.
  rewrite IH. by rewrite andb_assoc.
Qed.

(** A text is cut in one way only at the first occurrence of a byte. *)
Lemma first_occurrence c (a b x y : string) :
  lacksByte c a = true -> lacksByte c b = true ->
  a +:+ String c x = b +:+ String c y -> a = b /\ x = y.
Proof.
  revert b. induction a as [|p a IH]; intros [|q b]; simpl.
  - intros _ _. rewrite !append_empty_l. by intros [= ->].
  - intros _ Hb. rewrite append_cons, append_empty_l. intros [= <- _].
    by rewrite Ascii.eqb_refl in Hb.
  - intros Ha _. rewrite append_cons, append_empty_l. intros [= -> _].
    by rewrite Ascii.eqb_refl in Ha.
  - intros Ha Hb. rewrite !append_cons. intros [= -> H].
    apply andb_true_iff in Ha as [_ Ha]. apply andb_true_iff in Hb as [_ Hb].
    destruct (IH _ Ha Hb H) as [-> ->]. done.
Qed.

Lemma string_of_uint_lacks c d :
  (N_of_ascii c <? 48) || (57 <? N_of_ascii c) = true ->
  lacksByte c (NilEmpty.string_of_uint d) = true.
Proof.
  intros Hc.
  assert (Hne : forall x, (48 <=? N_of_ascii x) && (N_of_ascii x <=? 57) = true ->
                          Ascii.eqb x c = false).
  { intros x Hx. apply Ascii.eqb_neq. intros ->.
    apply andb_true_iff in Hx as [H1%N.leb_le H2%N.leb_le].
    apply orb_true_iff in Hc as [H%N.ltb_lt|H%N.ltb_lt]; lia. }
  induction d; cbn [NilEmpty.string_of_uint lacksByte]; try done;
    rewrite Hne by done; done.
Qed.

Lemma itoa_lacks_semicolon n : lacksByte ";" (itoa n) = true.
Proof. by apply string_of_uint_lacks. Qed.

(** What [strconv.Quote] prints for a byte is read back as that byte. *)
Lemma unquoteByte_quoteByte c r : unquoteByte (quoteByte c +:+ r) = Some (c, r).
Proof. destruct c as [[] [] [] [] [] [] [] []]; reflexivity. Qed.

(** The body of a quoted string ends at the first quote that is not
    escaped: two bodies followed by a quote agree only when the strings
    do. *)
Lemma quoteBody_inj (v w x y : string) :
  quoteBody v +:+ String dquote x = quoteBody w +:+ String dquote y -> v = w /\ x = y.
Proof.
  revert w. induction v as [|c v IH]; intros [|d w]; simpl.
  - rewrite !append_empty_l. by intros [= ->].
  - rewrite append_empty_l, append_assoc. intros H.
    apply (f_equal unquoteByte) in H. by rewrite unquoteByte_quoteByte in H.
  - rewrite append_empty_l, append_assoc. intros H.
    apply (f_equal unquoteByte) in H. by rewrite unquoteByte_quoteByte in H.
  - rewrite !append_assoc. intros H. apply (f_equal unquoteByte) in H.
    rewrite !unquoteByte_quoteByte in H. injection H as -> H.
    by destruct (IH _ H) as [-> ->].
Qed.

Lemma Quote_inj (v w : string) : Quote v = Quote w -> v = w.
Proof.
  unfold Quote. intros [= H]. by destruct (quoteBody_inj _ _ _ _ H).
Qed.

Lemma treeFingerprint_unfold n :
  treeFingerprint n
  = "K:" +:+ itoa (Kind n) +:+ ";T:" +:+ Tag n +:+ ";V:" +:+ Quote (Value n) +:+ ";" +:+
    match Content n with
    | [] => ""
    | _ :: _ => "[" +:+ childrenFingerprint (Content n) +:+ "]"
    end.
Proof.
  destruct n as [k t v [|c cs] m]; [done|].
  cbn [treeFingerprint Kind Tag Value Content]. do 8 f_equal.
Qed.

Lemma length_append (a b : string) :
  String.length (a +:+ b) = (String.length a + String.length b)%nat.
Proof. induction a as [|x a IH]; [done|]. rewrite append_cons. simpl. by rewrite IH. Qed.

Lemma append_inj_l (a b s : string) : a +:+ s = b +:+ s -> a = b.
Proof.
  revert b. induction a as [|x a IH]; intros [|y b]; try done.
  - intros H. apply (f_equal String.length) in H.
    rewrite append_empty_l, append_cons in H. simpl in H. rewrite length_append in H. lia.
  - intros H. apply (f_equal String.length) in H.
    rewrite append_empty_l, append_cons in H. simpl in H. rewrite length_append in H. lia.
  - rewrite !append_cons. intros [= -> H]. by rewrite (IH _ H).
Qed.

(** The tag ends where the quoted value starts. *)
Lemma tag_split (ta tb x y : string) :
  quoteFree ta = true -> quoteFree tb = true ->
  ta +:+ String ";" (String "V" (String ":" (String dquote x)))
  = tb +:+ String ";" (String "V" (String ":" (String dquote y))) ->
  ta = tb /\ x = y.
Proof.
  intros Ha Hb H.
  change (ta +:+ ";V:" +:+ String dquote x = tb +:+ ";V:" +:+ String dquote y) in H.
  rewrite <- !append_assoc in H.
  apply first_occurrence in H as [H ->].
  - by apply append_inj_l in H.
  - unfold quoteFree in Ha. by rewrite lacksByte_app, Ha.
  - unfold quoteFree in Hb. by rewrite lacksByte_app, Hb.
Qed.

(** Two fingerprints, each followed by a text that does not start with an
    opening bracket, agree only on trees of the same shape. *)
Lemma treeFingerprint_prefix a :
  forall b r1 r2,
    tagsQuoteFree a = true -> tagsQuoteFree b = true ->
    (forall r, r1 <> String "[" r) -> (forall r, r2 <> String "[" r) ->
    treeFingerprint a +:+ r1 = treeFingerprint b +:+ r2 ->
    shape a = shape b /\ r1 = r2.
Proof.
  induction a as [ka ta va ca ma IHa] using Node_forall_ind.
  intros [kb tb vb cb mb] r1 r2 Ha Hb Hr1 Hr2.
  rewrite !treeFingerprint_unfold. cbn [Kind Tag Value Content].
  cbn [tagsQuoteFree] in Ha, Hb.
  apply andb_true_iff in Ha as [Hta Hca]. apply andb_true_iff in Hb as [Htb Hcb].
  rewrite !append_assoc. rewrite !append_cons, !append_empty_l.
  intros [= H].
  (* the kind *)
  apply first_occurrence in H as [Hk H]; try apply itoa_lacks_semicolon.
  apply itoa_inj in Hk as <-.
  injection H as H.
  (* the tag *)
  unfold Quote in H. rewrite !(append_cons dquote) in H.
  apply tag_split in H as [<- H]; [|done..].
  (* the value *)
  rewrite !append_assoc in H. apply quoteBody_inj in H as [<- H].
  injection H as H.
  (* the children *)
  assert (Hchildren : forall la lb x y,
             Forall (fun a => forall b r1 r2,
                       tagsQuoteFree a = true -> tagsQuoteFree b = true ->
                       (forall r, r1 <> String "[" r) -> (forall r, r2 <> String "[" r) ->
                       treeFingerprint a +:+ r1 = treeFingerprint b +:+ r2 ->
                       shape a = shape b /\ r1 = r2) la ->
             forallb tagsQuoteFree la = true -> forallb tagsQuoteFree lb = true ->
             childrenFingerprint la +:+ String "]" x = childrenFingerprint lb +:+ String "]" y ->
             List.map shape la = List.map shape lb /\ x = y).
  { clear. induction la as [|a la IH]; intros [|b lb] x y Hall Hla Hlb; simpl.
    - rewrite !append_empty_l. by intros [= ->].
    - rewrite append_empty_l, treeFingerprint_unfold, !append_assoc, append_cons. done.
    - rewrite append_empty_l, treeFingerprint_unfold, !append_assoc, append_cons. done.
    - simpl in Hla, Hlb.
      apply andb_true_iff in Hla as [Ha Hla]. apply andb_true_iff in Hlb as [Hb Hlb].
      inversion Hall as [|? ? Hhead Htail]; subst.
      rewrite !append_assoc. intros H.
      apply Hhead in H as [-> H]; try done.
      rewrite !append_cons, !append_empty_l in H. injection H as H.
      by destruct (IH _ _ _ Htail Hla Hlb H) as [-> ->]. }
  destruct ca as [|a ca], cb as [|b cb].
  - rewrite !append_empty_l in H. done.
  - rewrite append_empty_l, append_cons in H. by apply Hr1 in H.
  - rewrite append_empty_l, append_cons in H. symmetry in H. by apply Hr2 in H.
  - rewrite !append_cons in H. injection H as H.
    change (((childrenFingerprint (a :: ca)) +:+ "]") +:+ r1
            = ((childrenFingerprint (b :: cb)) +:+ "]") +:+ r2) in H.
    rewrite !(append_assoc _ "]") in H. rewrite !append_cons, !append_empty_l in H.
    apply Hchildren in H as [Hs ->]; try done.
    split; [|done]. cbn [shape]. by rewrite Hs.
Qed.

(** The fingerprint of a tree is the fingerprint of its shape: the style,
    the anchor, the comments and the position of a node are not read. *)
Lemma schemaFingerprint_shape n : schemaFingerprint (Some (shape n)) = schemaFingerprint (Some n).
Proof.
  unfold schemaFingerprint, writeNodeFingerprint.
  induction n as [k t v cs m IH] using Node_forall_ind.
  rewrite !treeFingerprint_unfold. cbn [shape Kind Tag Value Content].
  do 7 f_equal.
  assert (Hc : childrenFingerprint (List.map shape cs) = childrenFingerprint cs).
  { induction IH as [|c cs Hc _ IHcs]; [done|]. simpl. by rewrite Hc, IHcs. }
  destruct cs as [|c cs]; [done|]. by rewrite <- Hc.
Qed.

(** X1.  Two schemas whose tags hold no double quote have the same
    fingerprint exactly when they have the same shape: the same kind, tag
    and value, and children of the same shapes in the same order.  So the
    registry identifies two such schemas only when they differ at most in
    style, anchors, comments and positions, and it always identifies
    those. *)
Theorem fingerprint_iff_shape a b :
  tagsQuoteFree a = true -> tagsQuoteFree b = true ->
  schemaFingerprint (Some a) = schemaFingerprint (Some b) <-> shape a = shape b.
Proof.
  intros Ha Hb. split.
  - unfold schemaFingerprint, writeNodeFingerprint. intros H.
    destruct (treeFingerprint_prefix a b "" "" Ha Hb) as [Hs _]; try done.
    by rewrite H.
  - intros H. by rewrite <- (schemaFingerprint_shape a), H, schemaFingerprint_shape.
Qed.

Lemma fingerprint_iff_shape_witness :
  schemaFingerprint (Some Cases.commentedAirport) = schemaFingerprint (Some Sample.airport)
  <-> shape Cases.commentedAirport = shape Sample.airport.
Proof. apply fingerprint_iff_shape; reflexivity. Defined.

(** Without the condition on the tags the fingerprint can confuse two
    shapes: a tag is printed as it is, and it may hold the very text that
    separates a tag from what follows. *)
Remark fingerprint_confuses_odd_tags :
  schemaFingerprint (Some Cases.oddLeft) = schemaFingerprint (Some Cases.oddRight)
  /\ shape Cases.oddLeft <> shape Cases.oddRight.
Proof. split; [reflexivity|discriminate]. Qed.

(** ** No index out of range, no error from the walk *)

Lemma returns_bind {A B : Type} (P : A -> Prop) (Q : B -> Prop) (m : res A) (k : A -> res B) :
  returns P m -> (forall a, P a -> returns Q (k a)) -> returns Q (rbind m k).
Proof. destruct m; simpl; auto. Qed.

Lemma returns_mono {A : Type} (P Q : A -> Prop) (m : res A) :
  returns P m -> (forall a, P a -> Q a) -> returns Q m.
Proof. destruct m; simpl; auto. Qed.

Lemma returns_Val {A : Type} (P : A -> Prop) (m : res A) :
  returns P m -> exists a, m = Val a /\ P a.
Proof. destruct m; simpl; try done. eauto. Qed.

Lemma evenMappings_unfold n :
  evenMappings n
  = (negb (isMapping n) || Nat.even (List.length (Content n)))
    && forallb evenMappings (Content n).
Proof. by destruct n. Qed.

Lemma evenMappings_intro n :
  (isMapping n = true -> Nat.even (List.length (Content n)) = true) ->
  Forall (fun c => evenMappings c = true) (Content n) ->
  evenMappings n = true.
Proof.
  intros Hlen Hall. rewrite evenMappings_unfold. apply andb_true_iff. split.
  - destruct (isMapping n); [by rewrite Hlen|done].
  - by apply forallb_forall, Forall_forall.
Qed.

Lemma evenMappings_elim n :
  evenMappings n = true ->
  (isMapping n = true -> Nat.even (List.length (Content n)) = true)
  /\ Forall (fun c => evenMappings c = true) (Content n).
Proof.
  rewrite evenMappings_unfold. intros [H1 H2]%andb_true_iff. split.
  - intros Hm. by rewrite Hm in H1.
  - by apply Forall_forall, forallb_forall.
Qed.

Lemma evenMappings_scalarNode s : evenMappings (scalarNode s) = true.
Proof. done. Qed.

Lemma evenMappings_setContent n c :
  (isMapping n = true -> Nat.even (List.length c) = true) ->
  Forall (fun c => evenMappings c = true) c ->
  evenMappings (setContent n c) = true.
Proof. intros. by apply evenMappings_intro. Qed.

(** A lookup in an even list of children finds a child or nothing. *)
Lemma lookupPairs_even key c :
  Nat.even (List.length c) = true ->
  exists o, lookupPairs key c = Val o /\ forall v, o = Some v -> In v c.
Proof.
  pairs_induction c; simpl; try done.
  - exists None. done.
  - intros Hlen. destruct (String.eqb (Value k) key).
    + exists (Some v). split; [done|]. intros ? [= <-]. auto.
    + destruct (IH Hlen) as (o & -> & Ho). exists o. split; [done|]. intros ? ->. eauto.
Qed.

Lemma getMapValue_returns m key :
  evenMappings m = true ->
  returns (fun o => forall v, o = Some v -> evenMappings v = true) (getMapValue (Some m) key).
Proof.
  intros [Hlen Hall]%evenMappings_elim. unfold getMapValue.
  destruct (isMapping m); [|done].
  destruct (lookupPairs_even key (Content m)) as (o & -> & Ho); [auto|].
  simpl. intros v Hv. rewrite Forall_forall in Hall. auto.
Qed.

Lemma updatePairs_length key v' c : List.length (updatePairs key v' c) = List.length c.
Proof.
  pairs_induction c; simpl; try done.
  destruct (String.eqb (Value k) key); simpl; [done|]. by rewrite IH.
Qed.

Lemma updatePairs_Forall (P : Node -> Prop) key v' c :
  P v' -> Forall P c -> Forall P (updatePairs key v' c).
Proof.
  intros Hv. pairs_induction c; simpl; try done.
  intros Hall. inversion Hall as [|? ? Hk Hall1]; subst.
  inversion Hall1 as [|? ? Hv0 Hall2]; subst.
  destruct (String.eqb (Value k) key); repeat constructor; auto.
Qed.

Lemma evenMappings_setMapValue m key v :
  evenMappings m = true -> evenMappings v = true -> evenMappings (setMapValue m key v) = true.
Proof.
  intros [Hlen Hall]%evenMappings_elim Hv. unfold setMapValue.
  apply evenMappings_setContent.
  - rewrite updatePairs_length. auto.
  - by apply updatePairs_Forall.
Qed.

Lemma evenMappings_appendMapEntry m key v :
  evenMappings m = true -> evenMappings v = true ->
  evenMappings (appendMapEntry m key v) = true.
Proof.
  intros [Hlen Hall]%evenMappings_elim Hv. unfold appendMapEntry.
  apply evenMappings_setContent.
  - intros Hm. rewrite length_app. simpl.
    rewrite Nat.add_comm. simpl. auto.
  - apply Forall_app. split; [done|]. repeat constructor. done.
Qed.

Lemma evenMappings_makeRefOnlySchema n name :
  evenMappings (makeRefOnlySchema n name) = true.
Proof. unfold makeRefOnlySchema. apply evenMappings_setContent; [done|]. by repeat constructor. Qed.

Lemma evenMappings_buildCompositeSchema baseName :
  evenMappings (buildCompositeSchema baseName) = true.
Proof. done. Qed.

Lemma ensureMapValue_returns m key :
  evenMappings m = true ->
  returns (fun '(m', v) => evenMappings m' = true /\ evenMappings v = true)
         (ensureMapValue m key).
Proof.
  intros Hm. unfold ensureMapValue.
  set (m1 := if isMapping m then m else setContent (setKind m MappingNode) []).
  assert (Hm1 : evenMappings m1 = true).
  { unfold m1. destruct (isMapping m); [done|]. by apply evenMappings_setContent. }
  eapply returns_bind; [by apply getMapValue_returns|].
  intros [v|] Hv; simpl; [auto|]. split; [|done].
  apply evenMappings_elim in Hm1 as [Hlen Hall]. apply evenMappings_setContent.
  - intros Hk. rewrite length_app, Nat.add_comm. simpl. auto.
  - apply Forall_app. split; [done|]. by repeat constructor.
Qed.

(** A loop over an even list of children, with a body that does not panic
    on the values it is given, does not panic. *)
Lemma walkPairs_returns {S : Type} (I : S -> Prop)
    (body : Node -> Node -> S -> res (Node * S)) c :
  Nat.even (List.length c) = true ->
  Forall (fun n => evenMappings n = true) c ->
  (forall k v s, evenMappings v = true -> I s ->
     returns (fun '(v', s') => evenMappings v' = true /\ I s') (body k v s)) ->
  forall s, I s ->
    returns (fun '(c', s') =>
              Forall (fun n => evenMappings n = true) c'
              /\ List.length c' = List.length c /\ I s')
           (walkPairs body c s).
Proof.
  intros Hlen Hall Hbody. revert Hlen Hall. pairs_induction c; intros Hlen Hall s Hs; simpl; try done.
  inversion Hall as [|? ? Hk Hall1]; subst. inversion Hall1 as [|? ? Hv Hall2]; subst.
  eapply returns_bind; [by apply Hbody|]. intros [v1 s1] [Hv1 Hs1].
  eapply returns_bind; [by apply IH|]. intros [rest1 s2] (Hrest & Hl & Hs2). simpl.
  repeat split; [|by rewrite Hl|done]. by repeat constructor.
Qed.

Section Safety.
Context {FM NS : Type} `{!GoMap string FM} `{!GoMap unit NS}.
Local Abbreviation registry := (@schemaRegistry FM NS).

(** The registry holds a [components.schemas] node that can be read. *)
Local Abbreviation readable := (fun reg : registry => evenMappings (schemasNode reg) = true).

Lemma newSchemaRegistry_returns schemas :
  evenMappings schemas = true ->
  returns (fun reg : registry => readable reg) (newSchemaRegistry schemas).
Proof.
  intros Hs. destruct (newSchemaRegistry_total (FM := FM) (NS := NS) schemas) as [r Hr].
  - by apply evenMappings_elim in Hs as [? _].
  - rewrite Hr. simpl. by apply newSchemaRegistry_Val in Hr as [-> _].
Qed.

Lemma ensureUniqueName_returns (reg : registry) base fp :
  readable reg -> returns (fun _ => True) (ensureUniqueName reg base fp).
Proof.
  intros Hreg. unfold ensureUniqueName.
  eapply returns_bind; [by apply getMapValue_returns|]. intros o _.
  destruct (uniqueNameLoop_fuel (existingNames reg) base) as (d & -> & _).
  by destruct (match o with Some _ => _ | None => _ end).
Qed.

Lemma componentizeSchema_returns (reg : registry) schemaNode nameHint opts :
  readable reg -> (forall n, schemaNode = Some n -> evenMappings n = true) ->
  returns (fun '(node', reg', _) =>
            (forall n, node' = Some n -> evenMappings n = true) /\ readable reg')
         (componentizeSchema reg schemaNode nameHint opts).
Proof.
  intros Hreg Hnode. unfold componentizeSchema.
  destruct schemaNode as [node|]; [|done].
  destruct (negb (isMapping node)); [done|].
  destruct (isRefOnlySchema node); [done|].
  destruct (gm_get _ _) as [existingName|].
  - simpl. split; [|done]. intros ? [= <-]. apply evenMappings_makeRefOnlySchema.
  - eapply returns_bind; [by apply ensureUniqueName_returns|]. intros name _. simpl. split.
    + intros ? [= <-]. apply evenMappings_makeRefOnlySchema.
    + apply evenMappings_appendMapEntry; [done|]. rewrite cloneNode_id. auto.
Qed.

Lemma getMapValueExists_returns m key :
  evenMappings m = true -> returns (fun _ => True) (getMapValueExists (Some m) key).
Proof.
  intros Hm. unfold getMapValueExists.
  eapply returns_bind; [by apply getMapValue_returns|]. done.
Qed.

Lemma handleAlternativesPattern_returns path method operationID status
    schemaNode baseNode (reg : registry) opts :
  readable reg -> evenMappings schemaNode = true -> evenMappings baseNode = true ->
  returns (fun '(node', reg', _) => evenMappings node' = true /\ readable reg')
         (handleAlternativesPattern path method operationID status schemaNode baseNode reg opts).
Proof.
  intros Hreg Hs Hb. unfold handleAlternativesPattern.
  destruct (String.eqb (deriveSchemaName operationID) "").
  - eapply returns_bind.
    + apply componentizeSchema_returns; [done|]. by intros ? [= <-].
    + intros [[node' reg'] [name ch]] [Hn Hr]. simpl. split; [|done].
      destruct node' as [n|]; simpl; auto.
  - eapply returns_bind; [by apply getMapValueExists_returns|]. intros [o haveBase] _.
    set (reg1 := if negb haveBase then _ else reg).
    assert (Hreg1 : readable reg1).
    { unfold reg1. destruct haveBase; simpl; [done|].
      apply evenMappings_appendMapEntry; [done|]. by rewrite cloneNode_id. }
    eapply returns_bind; [by apply getMapValueExists_returns|]. intros [o' haveComposite] _.
    cbn [returns]. split; [apply evenMappings_makeRefOnlySchema|].
    destruct haveComposite; simpl; [done|].
    apply evenMappings_appendMapEntry; [done|]. apply evenMappings_buildCompositeSchema.
Qed.

Lemma isInlineObjectWithAlternatives_returns baseNode extNode :
  evenMappings baseNode = true -> evenMappings extNode = true ->
  returns (fun _ => True) (isInlineObjectWithAlternatives baseNode extNode).
Proof.
  intros Hb He. unfold isInlineObjectWithAlternatives.
  destruct (negb (isMapping baseNode) || negb (isMapping extNode)); [done|].
  eapply returns_bind; [by apply getMapValue_returns|]. intros baseType _.
  destruct (negb (valueIs baseType "object")); [done|].
  eapply returns_bind; [by apply getMapValue_returns|]. intros extType _.
  destruct (negb (valueIs extType "object")); [done|].
  eapply returns_bind; [by apply getMapValue_returns|]. intros [props|] Hprops; [|done].
  destruct (negb (isMapping props)); [done|].
  eapply returns_bind; [apply getMapValue_returns; auto|]. intros [alts|] Halts; [|done].
  destruct (negb (isMapping alts)); [done|].
  eapply returns_bind; [apply getMapValue_returns; auto|]. intros altType _.
  destruct (negb (valueIs altType "array")); [done|].
  eapply returns_bind; [apply getMapValue_returns; auto|]. intros [items|] Hitems; [|done].
  destruct (negb (isMapping items)); [done|].
  eapply returns_bind; [apply getMapValue_returns; auto|]. intros itemsType _.
  by destruct (negb (valueIs itemsType "object")).
Qed.

Lemma rewriteSchema_returns path method operationID status schemaNode (reg : registry) opts :
  readable reg -> evenMappings schemaNode = true ->
  returns (fun '(node', reg', _) => evenMappings node' = true /\ readable reg')
         (rewriteSchema path method operationID status schemaNode reg opts).
Proof.
  intros Hreg Hs. unfold rewriteSchema.
  set (plain := rbind (componentizeSchema reg (Some schemaNode) _ opts) _).
  assert (Hplain : returns (fun '(node', reg', _) => evenMappings node' = true /\ readable reg')
                          plain).
  { unfold plain. eapply returns_bind.
    - apply componentizeSchema_returns; [done|]. by intros ? [= <-].
    - intros [[node' reg'] [name ch]] [Hn Hr]. simpl. split; [|done].
      destruct node' as [n|]; simpl; auto. }
  clearbody plain.
  eapply returns_bind; [by apply getMapValue_returns|]. intros [allOfNode|] Hall; [|done].
  destruct (isKind SequenceNode allOfNode && _); [|done].
  specialize (Hall _ eq_refl). apply evenMappings_elim in Hall as [_ Hall].
  destruct (Content allOfNode) as [|baseNode [|extNode rest]]; try done.
  inversion Hall as [|? ? Hb Hall1]; subst. inversion Hall1 as [|? ? He _]; subst.
  eapply returns_bind; [by apply isInlineObjectWithAlternatives_returns|]. intros [] _; [|done].
  by apply handleAlternativesPattern_returns.
Qed.

Lemma selectContentType_returns contentNode types :
  evenMappings contentNode = true ->
  returns (fun o => forall t a, o = Some (t, a) -> evenMappings a = true)
         (selectContentType contentNode types).
Proof.
  intros Hc. induction types as [|t types IH]; simpl; [done|].
  eapply returns_bind; [by apply getMapValue_returns|]. intros [a|] Ha; [|done].
  simpl. intros ? ? [= <- <-]. auto.
Qed.

Lemma processResponseSchema_returns path method operationID status resp (reg : registry) opts :
  readable reg -> evenMappings resp = true ->
  returns (fun '(resp', reg', _) => evenMappings resp' = true /\ readable reg')
         (processResponseSchema path method operationID status resp reg opts).
Proof.
  intros Hreg Hresp. unfold processResponseSchema.
  destruct (negb (isMapping resp)); [done|].
  eapply returns_bind; [by apply getMapValue_returns|]. intros [contentNode|] Hc; [|done].
  specialize (Hc _ eq_refl).
  destruct (negb (isMapping contentNode)); [done|].
  eapply returns_bind; [by apply selectContentType_returns|]. intros [[t appJSON]|] Ha; [|done].
  specialize (Ha _ _ eq_refl).
  destruct (negb (isMapping appJSON)); [done|].
  eapply returns_bind; [by apply getMapValue_returns|]. intros [schemaNode|] Hs; [|done].
  specialize (Hs _ eq_refl).
  destruct (negb (isMapping schemaNode)); [done|].
  destruct (isRefOnlySchema schemaNode); [done|].
  eapply returns_bind; [by apply rewriteSchema_returns|].
  intros [[schemaNode' reg'] ch] [Hs' Hr']. simpl. split; [|done].
  by repeat apply evenMappings_setMapValue.
Qed.

Local Abbreviation readableState := (fun st : registry * bool => readable st.1).

Lemma walkResponse_returns path method operationID opts k v (st : registry * bool) :
  evenMappings v = true -> readableState st ->
  returns (fun '(v', st') => evenMappings v' = true /\ readableState st')
         (walkResponse path method operationID opts k v st).
Proof.
  intros Hv Hst. destruct st as [reg ch]. unfold walkResponse.
  eapply returns_bind; [by apply processResponseSchema_returns|].
  by intros [[v' reg'] ch'] [? ?].
Qed.

Lemma walkOperation_returns pathKey opts k v (st : registry * bool) :
  evenMappings v = true -> readableState st ->
  returns (fun '(v', st') => evenMappings v' = true /\ readableState st')
         (walkOperation pathKey opts k v st).
Proof.
  intros Hv Hst. unfold walkOperation.
  destruct (negb (isHTTPMethod _)); [done|].
  destruct (negb (isMapping v)); [done|].
  eapply returns_bind; [by apply getMapValue_returns|]. intros opIDNode _.
  eapply returns_bind; [by apply getMapValue_returns|]. intros [respNode|] Hr; [|done].
  specialize (Hr _ eq_refl).
  destruct (isMapping respNode) eqn:Hm; simpl; [|done].
  apply evenMappings_elim in Hr as [Hlen Hall].
  eapply returns_bind.
  - apply (walkPairs_returns readableState); [auto|done| |done].
    intros. by apply walkResponse_returns.
  - intros [c st'] (Hc & Hl & Hst'). simpl. split; [|done].
    apply evenMappings_setMapValue; [done|].
    apply evenMappings_setContent; [|done]. rewrite Hl. auto.
Qed.

Lemma walkPath_returns opts k v (st : registry * bool) :
  evenMappings v = true -> readableState st ->
  returns (fun '(v', st') => evenMappings v' = true /\ readableState st')
         (walkPath opts k v st).
Proof.
  intros Hv Hst. unfold walkPath.
  destruct (isMapping v) eqn:Hm; simpl; [|done].
  apply evenMappings_elim in Hv as [Hlen Hall].
  eapply returns_bind.
  - apply (walkPairs_returns readableState); [auto|done| |done].
    intros. by apply walkOperation_returns.
  - intros [c st'] (Hc & Hl & Hst'). simpl. split; [|done].
    apply evenMappings_setContent; [|done]. rewrite Hl. auto.
Qed.

(** The run on a tree whose mappings are even: the error of the first
    check that fails or, when none fails, a tree whose mappings are even. *)
Lemma refactor_returns root opts :
  evenMappings root = true ->
  match refactorError root with
  | Some e => RefactorInlineResponseSchemas (FM := FM) (NS := NS) root opts = Err e
  | None => returns (fun '(root', _) => evenMappings root' = true)
                    (RefactorInlineResponseSchemas (FM := FM) (NS := NS) root opts)
  end.
Proof.
  intros Hroot. unfold RefactorInlineResponseSchemas, refactorError.
  destruct (isKind DocumentNode root) eqn:Hdoc; [|done]. cbn [negb orb].
  apply evenMappings_elim in Hroot as [Hrlen Hrall].
  destruct (Content root) as [|top others] eqn:Hc; [done|].
  inversion Hrall as [|? ? Htop Hothers]; subst.
  cbn [List.length Nat.eqb].
  destruct (isMapping top) eqn:Htm; [|done]. cbn [negb].
  pose proof (ensureMapValue_returns top "components" Htop) as H1.
  destruct (ensureMapValue top "components") as [[top1 comp0]| |] eqn:E1; try done.
  destruct H1 as [Htop1 Hcomp0]. cbn [rbind].
  pose proof (ensureMapValue_returns comp0 "schemas" Hcomp0) as H2.
  destruct (ensureMapValue comp0 "schemas") as [[comp1 schemas0]| |] eqn:E2; try done.
  destruct H2 as [Hcomp1 Hs0]. cbn [rbind].
  pose proof (newSchemaRegistry_returns schemas0 Hs0) as H3.
  destruct (newSchemaRegistry schemas0) as [reg0| |] eqn:E3; try done. cbn [rbind].
  rewrite getMapValue_setMapValue_ne by done.
  rewrite (ensureMapValue_other _ _ _ _ "paths" E1 Htm) by done.
  pose proof (getMapValue_returns top "paths" Htop) as H4.
  destruct (getMapValue (Some top) "paths") as [[paths|]| |] eqn:E4; try done.
  cbn [rbind]. specialize (H4 _ eq_refl).
  destruct (isMapping paths) eqn:Hpm; [|done]. cbn [negb].
  apply evenMappings_elim in H4 as [Hplen Hpall].
  eapply returns_bind.
  - apply (walkPairs_returns readableState); [auto|done| |done].
    intros. by apply walkPath_returns.
  - intros [c [regF chF]] (Hcs & Hl & HregF). cbn [returns fst] in *.
    apply evenMappings_setContent.
    + intros Hm. unfold isKind, isMapping in *.
      apply N.eqb_eq in Hdoc, Hm. rewrite Hdoc in Hm. done.
    + constructor; [|done].
      apply evenMappings_setMapValue.
      * by repeat apply evenMappings_setMapValue.
      * apply evenMappings_setContent; [|done]. rewrite Hl. auto.
Qed.

(** X2.  On a document in which every mapping has an even number of
    children (every tree that yaml.v3 decodes), the pass never indexes a
    slice out of range, and the tree it returns is again such a
    document. *)
Theorem refactor_no_panic root opts :
  evenMappings root = true ->
  RefactorInlineResponseSchemas (FM := FM) (NS := NS) root opts <> Panic
  /\ forall root' changed,
       RefactorInlineResponseSchemas (FM := FM) (NS := NS) root opts = Val (root', changed) ->
       evenMappings root' = true.
Proof.
  intros Hroot. pose proof (refactor_returns root opts Hroot) as H.
  destruct (refactorError root) as [e|].
  - rewrite H. done.
  - destruct (RefactorInlineResponseSchemas root opts) as [[r ch]| |]; try done.
    split; [done|]. by intros ? ? [= <- <-].
Qed.

(** X3.  On such a document the pass fails in three cases only, checked
    in this order: the root is not a document node with a child
    ([expected YAML document]), the first child of the root is not a
    mapping ([expected top-level mapping]), the top-level mapping has no
    [paths] entry or one that is not a mapping
    ([missing or invalid 'paths' section]).  In every other case it
    returns a tree and a flag: the walk over the paths raises no error. *)
Theorem refactor_outcome root opts :
  evenMappings root = true ->
  match refactorError root with
  | Some e => RefactorInlineResponseSchemas (FM := FM) (NS := NS) root opts = Err e
  | None => exists root' changed,
      RefactorInlineResponseSchemas (FM := FM) (NS := NS) root opts = Val (root', changed)
  end.
Proof.
  intros Hroot. pose proof (refactor_returns root opts Hroot) as H.
  destruct (refactorError root) as [e|]; [done|].
  destruct (RefactorInlineResponseSchemas root opts) as [[r ch]| |]; try done. eauto.
Qed.

End Safety.

Lemma refactor_no_panic_witness :
  Sample.run Sample.inlineDoc <> Panic
  /\ forall root' changed,
       Sample.run Sample.inlineDoc = Val (root', changed) -> evenMappings root' = true.
Proof.
  apply (refactor_no_panic (FM := gmap string string) (NS := gmap string unit)
           Sample.inlineDoc Sample.opts0).
  reflexivity.
Defined.

Lemma refactor_outcome_witness :
  Sample.run Cases.noPathsDoc = Err "missing or invalid 'paths' section".
Proof.
  apply (refactor_outcome (FM := gmap string string) (NS := gmap string unit)
           Cases.noPathsDoc Sample.opts0).
  reflexivity.
Defined.

(** ** The flag that the pass returns *)

Lemma makeRefOnlySchema_inline s name :
  isMapping s = true -> isRefOnlySchema s = false -> makeRefOnlySchema s name <> s.
Proof.
  intros Hm Hr E. rewrite <- E in Hr.
  by rewrite isRefOnlySchema_makeRefOnlySchema in Hr.
Qed.

(** A loop whose rounds cannot change a value without raising the flag of
    the state has changed nothing when the flag is down at the end. *)
Lemma walkPairs_unflagged {S : Type} (flag : S -> bool)
    (body : Node -> Node -> S -> res (Node * S)) c :
  (forall k v s v' s', body k v s = Val (v', s') -> flag s' = false -> v' = v /\ s' = s) ->
  forall s c' s', walkPairs body c s = Val (c', s') -> flag s' = false -> c' = c /\ s' = s.
Proof.
  intros Hbody. pairs_induction c; intros s c' s'; simpl; try done.
  - by intros [= <- <-].
  - destruct (body k v s) as [[v1 s1]| |] eqn:E; simpl; try done.
    destruct (walkPairs body rest s1) as [[rest1 s2]| |] eqn:E2; simpl; try done.
    intros [= <- <-] Hflag.
    destruct (IH _ _ _ E2 Hflag) as [-> ->].
    by destruct (Hbody _ _ _ _ _ E Hflag) as [-> ->].
Qed.

(** A loop whose rounds raise the flag only when they change their value,
    and never lower it, has changed a value when it has raised the flag. *)
Lemma walkPairs_flagged {S : Type} (flag : S -> bool)
    (body : Node -> Node -> S -> res (Node * S)) c :
  (forall k v s v' s', body k v s = Val (v', s') -> flag s = true -> flag s' = true) ->
  (forall k v s v' s', body k v s = Val (v', s') ->
                       flag s = false -> flag s' = true -> v' <> v) ->
  forall s c' s', walkPairs body c s = Val (c', s') ->
    (flag s = true -> flag s' = true)
    /\ (flag s = false -> flag s' = true -> c' <> c).
Proof.
  intros Hmono Hstrict. pairs_induction c; intros s c' s'; simpl; try done.
  - intros [= <- <-]. split; [done|]. intros H1 H2. congruence.
  - destruct (body k v s) as [[v1 s1]| |] eqn:E; simpl; try done.
    destruct (walkPairs body rest s1) as [[rest1 s2]| |] eqn:E2; simpl; try done.
    intros [= <- <-]. destruct (IH _ _ _ E2) as [IHmono IHstrict]. split.
    + intros Hs. apply IHmono. by eapply Hmono.
    + intros Hs Hs2 [= Hv Hrest]. destruct (flag s1) eqn:Hs1.
      * by eapply Hstrict.
      * by apply IHstrict.
Qed.

Section Flag.
Context {FM NS : Type} `{!GoMap string FM} `{!GoMap unit NS}.
Local Abbreviation registry := (@schemaRegistry FM NS).

(** What a call of [processResponseSchema] that returns has done: nothing,
    with the flag down, when the response has no JSON schema that is a
    mapping or has one that is a bare reference; otherwise it has replaced
    the schema by a bare reference, and the flag is up. *)
Lemma processResponseSchema_result path method operationID status resp (reg : registry) opts
    resp' reg' changed :
  processResponseSchema path method operationID status resp reg opts
    = Val (resp', reg', changed) ->
  (changed = false /\ resp' = resp /\ reg' = reg
   /\ forall s, responseSchema resp = Some s -> isRefOnlySchema s = true)
  \/ (changed = true
      /\ exists s name,
           responseSchema resp = Some s /\ isMapping s = true /\ isRefOnlySchema s = false
           /\ responseSchema resp' = Some (makeRefOnlySchema s name)).
Proof.
  rewrite processResponseSchema_locate. unfold responseSchema.
  destruct (locateSchema resp) as [[[[[c t] a] s]|]| |] eqn:Hloc; simpl; try done.
  - destruct (isRefOnlySchema s) eqn:Hr.
    + intros [= <- <- <-]. left. repeat split. by intros ? [= <-].
    + assert (Hm : isMapping s = true).
      { destruct (responseSchema_locate resp s) as (? & ? & ? & _ & Hm); [|done].
        unfold responseSchema. by rewrite Hloc. }
      destruct (rewriteSchema _ _ _ _ _ _ _) as [[[s' r'] ch]| |] eqn:E; simpl; try done.
      intros [= <- <- <-].
      apply rewriteSchema_inline in E as [-> [name ->]]; [|done..].
      right. split; [done|]. exists s, name. repeat split; try done.
      rewrite (locateSchema_putSchema _ _ _ _ _ _ Hloc); [done|].
      by rewrite isMapping_makeRefOnlySchema.
  - intros [= <- <- <-]. left. repeat split. done.
Qed.

Lemma processResponseSchema_flag path method operationID status resp (reg : registry) opts
    resp' reg' changed :
  processResponseSchema path method operationID status resp reg opts
    = Val (resp', reg', changed) ->
  (changed = false -> resp' = resp /\ reg' = reg) /\ (changed = true -> resp' <> resp).
Proof.
  intros H. apply processResponseSchema_result in H
    as [(-> & -> & -> & _)|(-> & s & name & Hs & Hm & Hr & Hs')].
  - done.
  - split; [done|]. intros _ E. rewrite E, Hs in Hs'. injection Hs' as Hs'.
    symmetry in Hs'. by apply makeRefOnlySchema_inline in Hs'.
Qed.

Local Abbreviation flag := (fun st : registry * bool => st.2).

Lemma walkResponse_flag path method operationID opts k v (st : registry * bool) v' st' :
  walkResponse path method operationID opts k v st = Val (v', st') ->
  (flag st' = false -> v' = v /\ st' = st)
  /\ (flag st = true -> flag st' = true)
  /\ (flag st = false -> flag st' = true -> v' <> v).
Proof.
  destruct st as [reg ch]. unfold walkResponse.
  destruct (processResponseSchema _ _ _ _ _ _ _) as [[[v1 reg1] ch1]| |] eqn:E;
    simpl; try done.
  intros [= <- <-]. apply processResponseSchema_flag in E as [Hf Ht]. simpl.
  destruct ch1.
  - repeat split; try done; auto.
  - destruct (Hf eq_refl) as [-> ->]. repeat split; try done. by intros -> [=].
Qed.

Lemma walkOperation_flag pathKey opts k v (st : registry * bool) v' st' :
  walkOperation pathKey opts k v st = Val (v', st') ->
  (flag st' = false -> v' = v /\ st' = st)
  /\ (flag st = true -> flag st' = true)
  /\ (flag st = false -> flag st' = true -> v' <> v).
Proof.
  unfold walkOperation.
  assert (Hskip : Val (v, st) = Val (v', st') ->
            (flag st' = false -> v' = v /\ st' = st)
            /\ (flag st = true -> flag st' = true)
            /\ (flag st = false -> flag st' = true -> v' <> v)).
  { intros [= <- <-]. repeat split; try done. congruence. }
  destruct (negb (isHTTPMethod _)); [done|].
  destruct (negb (isMapping v)); [done|].
  destruct (getMapValue _ "operationId"); simpl; try done.
  destruct (getMapValue _ "responses") as [[respNode|]| |] eqn:Hresp; simpl; try done.
  destruct (negb (isMapping respNode)); [done|].
  destruct (walkPairs _ _ st) as [[c st1]| |] eqn:Hw; simpl; try done.
  intros [= <- <-]. clear Hskip. split; [|split].
  - intros Hf.
    apply (walkPairs_unflagged flag) in Hw as [-> ->]; [|by intros; eapply walkResponse_flag|done].
    by rewrite setContent_Content, (setMapValue_same _ _ _ Hresp).
  - apply (walkPairs_flagged flag) in Hw as [Hw _]; [done|..];
      intros; by eapply walkResponse_flag.
  - intros Hf Ht E.
    apply (walkPairs_flagged flag) in Hw as [_ Hw]; [|intros; by eapply walkResponse_flag..].
    apply (Hw Hf Ht).
    pose proof (getMapValue_setMapValue_eq _ _ (setContent respNode c) _ Hresp) as Hget.
    rewrite E, Hresp in Hget. injection Hget as Hget. by rewrite Hget.
Qed.

Lemma walkPath_flag opts k v (st : registry * bool) v' st' :
  walkPath opts k v st = Val (v', st') ->
  (flag st' = false -> v' = v /\ st' = st)
  /\ (flag st = true -> flag st' = true)
  /\ (flag st = false -> flag st' = true -> v' <> v).
Proof.
  unfold walkPath. destruct (negb (isMapping v)).
  { intros [= <- <-]. repeat split; try done. congruence. }
  destruct (walkPairs _ _ st) as [[c st1]| |] eqn:Hw; simpl; try done.
  intros [= <- <-]. split; [|split].
  - intros Hf.
    apply (walkPairs_unflagged flag) in Hw as [-> ->]; [|by intros; eapply walkOperation_flag|done].
    by rewrite setContent_Content.
  - apply (walkPairs_flagged flag) in Hw as [Hw _]; [done|..];
      intros; by eapply walkOperation_flag.
  - intros Hf Ht E.
    apply (walkPairs_flagged flag) in Hw as [_ Hw]; [|intros; by eapply walkOperation_flag..].
    apply (Hw Hf Ht). by rewrite <- E.
Qed.

Lemma walkPaths_flag opts c (st : registry * bool) c' st' :
  walkPairs (walkPath opts) c st = Val (c', st') ->
  (flag st' = false -> c' = c /\ st' = st)
  /\ (flag st = false -> flag st' = true -> c' <> c).
Proof.
  intros Hw. split.
  - intros Hf. by apply (walkPairs_unflagged flag) in Hw; [|by intros; eapply walkPath_flag|].
  - apply (walkPairs_flagged flag) in Hw as [_ Hw]; [done|..];
      intros; by eapply walkPath_flag.
Qed.

(** X4.  When the pass returns [false] it has rewritten nothing: the
    [paths] section is the one it was given and [components.schemas] holds
    the entries it held.  The tree is then exactly the tree given when that
    tree had a [components.schemas] node; otherwise it differs by the
    [components] and [schemas] nodes that the pass creates before it
    walks. *)
Theorem refactor_unchanged root opts root' :
  RefactorInlineResponseSchemas (FM := FM) (NS := NS) root opts = Val (root', false) ->
  pathsOf root' = pathsOf root
  /\ (exists schemas',
        schemasOf root' = Val (Some schemas') /\ Content schemas' = initialEntries root)
  /\ (forall schemas, schemasOf root = Val (Some schemas) -> root' = root).
Proof.
  intros Hrun. split; [|split].
  - apply refactor_run in Hrun
      as (top & others & paths & schemas0 & reg0 & c & regF &
          Hroot & Htop & Hpaths & Hpm & Hinit & Hkind & Hreg0 & Hwalk & Hschemas' & Hpaths').
    apply walkPaths_flag in Hwalk as [Hwalk _]. destruct (Hwalk eq_refl) as [-> _].
    rewrite Hpaths', setContent_Content. unfold pathsOf. by rewrite Hroot.
  - apply refactor_run in Hrun
      as (top & others & paths & schemas0 & reg0 & c & regF &
          Hroot & Htop & Hpaths & Hpm & Hinit & Hkind & Hreg0 & Hwalk & Hschemas' & Hpaths').
    apply walkPaths_flag in Hwalk as [Hwalk _]. destruct (Hwalk eq_refl) as [_ [= ->]].
    exists (schemasNode reg0). split; [done|].
    apply newSchemaRegistry_Val in Hreg0 as [-> _]. done.
  - intros schemas Hs. unfold RefactorInlineResponseSchemas in Hrun.
    destruct (negb (isKind DocumentNode root) || _) eqn:Hdoc; [done|].
    unfold schemasOf in Hs.
    destruct (Content root) as [|top others] eqn:Hroot; [done|].
    destruct (isMapping top) eqn:Htop; simpl in Hrun; [|done].
    destruct (getMapValue (Some top) "components") as [[comp|]| |] eqn:Hcomp;
      simpl in Hs; try done.
    destruct (ensureMapValue top "components") as [[top1 comp0]| |] eqn:H1;
      simpl in Hrun; try done.
    destruct (ensureMapValue_cases _ _ _ _ H1) as [[Hc0 ->]|[Hc0 _]]; [|congruence].
    assert (comp0 = comp) as -> by congruence.
    destruct (ensureMapValue comp "schemas") as [[comp1 schemas0]| |] eqn:H2;
      simpl in Hrun; try done.
    destruct (ensureMapValue_cases _ _ _ _ H2) as [[Hs0 ->]|[Hs0 _]]; [|congruence].
    assert (schemas0 = schemas) as -> by congruence.
    destruct (newSchemaRegistry schemas) as [reg0| |] eqn:H3; simpl in Hrun; try done.
    rewrite (setMapValue_same _ _ _ Hcomp) in Hrun.
    destruct (getMapValue (Some top) "paths") as [[paths|]| |] eqn:H4;
      simpl in Hrun; try done.
    destruct (isMapping paths) eqn:Hpaths; simpl in Hrun; [|done].
    destruct (walkPairs (walkPath opts) (Content paths) (reg0, false))
      as [[c [regF chF]]| |] eqn:H5; simpl in Hrun; try done.
    injection Hrun as <- ->.
    apply walkPaths_flag in H5 as [H5 _]. destruct (H5 eq_refl) as [-> [= ->]].
    apply newSchemaRegistry_Val in H3 as [-> _].
    rewrite (setMapValue_same _ _ _ Hs), (setMapValue_same _ _ _ Hcomp).
    rewrite setContent_Content, (setMapValue_same _ _ _ H4).
    by rewrite <- Hroot, setContent_Content.
Qed.

(** X5.  The flag is exact: the pass returns [true] exactly when the
    [paths] section it leaves differs from the one it was given, that is
    when it has replaced the schema of some response by a reference. *)
Theorem refactor_flag_exact root opts root' changed :
  RefactorInlineResponseSchemas (FM := FM) (NS := NS) root opts = Val (root', changed) ->
  changed = true <-> pathsOf root' <> pathsOf root.
Proof.
  intros Hrun. apply refactor_run in Hrun
    as (top & others & paths & schemas0 & reg0 & c & regF &
        Hroot & Htop & Hpaths & Hpm & Hinit & Hkind & Hreg0 & Hwalk & Hschemas' & Hpaths').
  assert (HpathsOf : pathsOf root = Val (Some paths)) by (unfold pathsOf; by rewrite Hroot).
  rewrite Hpaths', HpathsOf.
  apply walkPaths_flag in Hwalk as [Hdown Hup]. simpl in *. split.
  - intros -> [= E]. apply (Hup eq_refl eq_refl). by rewrite <- E.
  - intros Hne. destruct changed; [done|]. destruct (Hdown eq_refl) as [-> _].
    by rewrite setContent_Content in Hne.
Qed.

End Flag.

Lemma refactor_unchanged_witness :
  exists root',
    Sample.run Cases.bareDoc = Val (root', false)
    /\ pathsOf root' = pathsOf Cases.bareDoc
    /\ (exists schemas',
          schemasOf root' = Val (Some schemas')
          /\ Content schemas' = initialEntries Cases.bareDoc)
    /\ (forall schemas, schemasOf Cases.bareDoc = Val (Some schemas) -> root' = Cases.bareDoc).
Proof.
  eexists. split; [vm_compute; reflexivity|].
  apply (refactor_unchanged (FM := gmap string string) (NS := gmap string unit)
           Cases.bareDoc Sample.opts0).
  vm_compute. reflexivity.
Defined.

Lemma refactor_flag_exact_witness :
  exists root',
    Sample.run Sample.inlineDoc = Val (root', true)
    /\ (true = true <-> pathsOf root' <> pathsOf Sample.inlineDoc).
Proof.
  eexists. split; [vm_compute; reflexivity|].
  apply (refactor_flag_exact (FM := gmap string string) (NS := gmap string unit)
           Sample.inlineDoc Sample.opts0).
  vm_compute. reflexivity.
Defined.

(** ** Where the references lead *)

Lemma NoDup_FreshlyExtends c c' :
  Nat.even (List.length c) = true ->
  NoDup (entryNames c) -> FreshlyExtends c c' -> NoDup (entryNames c').
Proof.
  intros Heven Hnd (added & -> & _ & Hnd' & Hfresh).
  rewrite entryNames_app by done. apply NoDup_app; [done..|].
  intros name Hin Hin'. by apply (Hfresh _ Hin').
Qed.

Lemma FreshlyExtends_app c c' :
  FreshlyExtends c c' -> exists added, c' = (c ++ added)%list.
Proof. intros (added & -> & _). eauto. Qed.

(** In a mapping where no name occurs twice, a lookup finds the entry of
    the name. *)
Lemma lookupPairs_NoDup name c l :
  Nat.even (List.length l) = true -> NoDup (entryNames l) ->
  In (name, c) (entriesOf l) -> lookupPairs name l = Val (Some c).
Proof.
  pairs_induction l; simpl; try done.
  intros Heven Hnd Hin. unfold entryNames in Hnd. simpl in Hnd.
  apply NoDup_cons_iff in Hnd as [Hk Hnd].
  destruct Hin as [[= -> ->]|Hin].
  - by rewrite String.eqb_refl.
  - destruct (String.eqb_spec (Value k) name) as [E|_]; [|by apply IH].
    exfalso. apply Hk. rewrite E. apply in_map_iff. by exists (name, c).
Qed.

Section References.
Context {FM NS : Type} `{!GoMap string FM} `{!GoMap unit NS}.
Local Abbreviation registry := (@schemaRegistry FM NS).

Lemma settles_refl (reg : registry) : settles reg reg.
Proof. intros Hs. split; [done|]. exists []. by rewrite app_nil_r. Qed.

Lemma settles_trans (ra rb rc : registry) : settles ra rb -> settles rb rc -> settles ra rc.
Proof.
  intros Hab Hbc Ha. destruct (Hab Ha) as [Hb [x Hx]]. destruct (Hbc Hb) as [Hc [y Hy]].
  split; [done|]. exists (x ++ y)%list. by rewrite Hy, Hx, app_assoc.
Qed.

Lemma seedRegistry_sound c : forall (r r' : registry),
  seedRegistry c r = Val r' ->
  forall fp name, gm_get (byFingerprint r') fp = Some name ->
    gm_get (byFingerprint r) fp = Some name
    \/ exists s, In (name, s) (entriesOf c) /\ schemaFingerprint (Some s) = fp.
Proof.
  pairs_induction c; intros r r'; simpl; try done.
  - intros [= <-]. auto.
  - intros Hseed fp name Hget.
    destruct (IH _ _ Hseed _ _ Hget) as [Hr|(s & Hin & Hfp)]; [|eauto].
    destruct (negb (String.eqb (schemaFingerprint (Some v)) "")); simpl in Hr; [|auto].
    rewrite gm_get_set in Hr.
    destruct (String.eqb_spec (schemaFingerprint (Some v)) fp) as [<-|]; [|auto].
    injection Hr as <-. right. exists v. auto.
Qed.

Lemma newSchemaRegistry_Settled schemas (reg : registry) :
  newSchemaRegistry schemas = Val reg -> isMapping schemas = true ->
  NoDup (entryNames (Content schemas)) -> Settled reg.
Proof.
  intros Hnew Hm Hnd. pose proof (newSchemaRegistry_OK _ _ Hnew Hm) as HOK.
  pose proof (newSchemaRegistry_Val _ _ Hnew) as [Hnode _].
  split; [done|]. split; [by rewrite Hnode|].
  unfold newSchemaRegistry in Hnew. rewrite Hm in Hnew.
  intros fp name Hget. rewrite Hnode.
  destruct (seedRegistry_sound _ _ _ Hnew _ _ Hget) as [Hempty|Hin]; [|done].
  simpl in Hempty. by rewrite gm_get_empty in Hempty.
Qed.

(** An entry appended with its fingerprint registered under its name. *)
Lemma register_entry_sound (reg : registry) name schema :
  Nat.even (List.length (Content (schemasNode reg))) = true ->
  FingerprintsSound reg ->
  FingerprintsSound
    (registerFingerprint
       (registerName
          (withSchemasNode reg (appendMapEntry (schemasNode reg) name schema)) name)
       (schemaFingerprint (Some schema)) name).
Proof.
  intros Heven Hsound fp nm. simpl. rewrite gm_get_set, entriesOf_app by done.
  destruct (String.eqb_spec (schemaFingerprint (Some schema)) fp) as [<-|_].
  - intros [= <-]. exists schema. split; [|done]. apply in_or_app. right. by left.
  - intros Hget. destruct (Hsound _ _ Hget) as (c & Hin & Hfp).
    exists c. split; [|done]. apply in_or_app. by left.
Qed.

(** [componentizeSchema] on an inline schema: the name it returns is the
    name of an entry that has the fingerprint of the schema. *)
Lemma componentizeSchema_settles (reg : registry) node nameHint opts node' reg' name changed :
  Settled reg -> isMapping node = true -> isRefOnlySchema node = false ->
  componentizeSchema reg (Some node) nameHint opts = Val (node', reg', (name, changed)) ->
  Settled reg'
  /\ (exists added, Content (schemasNode reg') = (Content (schemasNode reg) ++ added)%list)
  /\ exists c, In (name, c) (entriesOf (Content (schemasNode reg')))
               /\ schemaFingerprint (Some c) = schemaFingerprint (Some node).
Proof.
  intros (HOK & Hnd & Hsound) Hm Hr Hrun.
  destruct (componentizeSchema_fresh _ _ _ _ _ _ _ HOK Hrun) as [HOK' Hext].
  pose proof HOK as (_ & Heven & _).
  assert (Hnd' : NoDup (entryNames (Content (schemasNode reg'))))
    by (by eapply NoDup_FreshlyExtends).
  unfold componentizeSchema in Hrun. rewrite Hm, Hr in Hrun. simpl in Hrun.
  destruct (gm_get (byFingerprint reg) _) as [existing|] eqn:Hfp.
  - injection Hrun as <- <- <- <-. split; [done|].
    split; [exists []; by rewrite app_nil_r|]. by apply Hsound.
  - destruct (ensureUniqueName _ _ _) as [nm| |]; simpl in Hrun; [|done..].
    injection Hrun as <- <- <- <-. rewrite cloneNode_id in *.
    split; [|split].
    + split; [done|]. split; [done|]. by apply register_entry_sound.
    + by apply FreshlyExtends_app.
    + exists node. split; [|done]. simpl.
      rewrite entriesOf_app by done. apply in_or_app. right. by left.
Qed.

Lemma handleAlternativesPattern_settles path method operationID status
    schemaNode baseNode (reg : registry) opts schemaNode' reg' changed :
  Settled reg -> isMapping schemaNode = true -> isRefOnlySchema schemaNode = false ->
  handleAlternativesPattern path method operationID status schemaNode baseNode reg opts
    = Val (schemaNode', reg', changed) ->
  Settled reg'
  /\ (exists added, Content (schemasNode reg') = (Content (schemasNode reg) ++ added)%list)
  /\ exists name c,
       schemaNode' = makeRefOnlySchema schemaNode name
       /\ In (name, c) (entriesOf (Content (schemasNode reg'))).
Proof.
  intros Hs Hm Hr Hrun. pose proof Hs as (HOK & Hnd & Hsound).
  destruct (handleAlternativesPattern_fresh _ _ _ _ _ _ _ _ _ _ _ HOK Hrun) as [HOK' Hext].
  pose proof HOK as (Hmap & Heven & _).
  assert (Hnd' : NoDup (entryNames (Content (schemasNode reg'))))
    by (by eapply NoDup_FreshlyExtends).
  split; [|split; [by apply FreshlyExtends_app|]].
  - split; [done|]. split; [done|].
    unfold handleAlternativesPattern in Hrun.
    destruct (String.eqb (deriveSchemaName operationID) ""); simpl in Hrun.
    + destruct (componentizeSchema _ _ _ _) as [[[n r] [nm ch]]| |] eqn:E;
        simpl in Hrun; [|done..].
      injection Hrun as <- <- <-.
      by apply componentizeSchema_settles in E as [(_ & _ & Hsound') _].
    + unfold getMapValueExists in Hrun.
      destruct (getMapValue (Some (schemasNode reg)) _) as [haveBase| |] eqn:Hbase;
        simpl in Hrun; [|done..].
      set (reg1 := if negb (match haveBase with Some _ => true | None => false end)
                   then _ else reg) in Hrun.
      assert (H1 : FingerprintsSound reg1
                   /\ Nat.even (List.length (Content (schemasNode reg1))) = true).
      { unfold reg1. destruct haveBase; simpl; [done|]. split.
        - by apply register_entry_sound.
        - by rewrite length_app, Nat.even_add, Heven. }
      destruct H1 as [Hsound1 Heven1].
      destruct (getMapValue (Some (schemasNode reg1)) _) as [haveComposite| |];
        simpl in Hrun; [|done..].
      injection Hrun as <- <- <-.
      destruct haveComposite; simpl; [done|]. by apply register_entry_sound.
  - unfold handleAlternativesPattern in Hrun.
    destruct (String.eqb (deriveSchemaName operationID) ""); simpl in Hrun.
    + destruct (componentizeSchema _ _ _ _) as [[[n r] [nm ch]]| |] eqn:E;
        simpl in Hrun; [|done..].
      injection Hrun as <- <- <-.
      destruct (componentizeSchema_inline _ _ _ _ _ _ _ _ Hm Hr E) as [-> _].
      apply componentizeSchema_settles in E as (_ & _ & c & Hin & _); [|done..].
      by exists nm, c.
    + unfold getMapValueExists in Hrun.
      destruct (getMapValue (Some (schemasNode reg)) _) as [haveBase| |] eqn:Hbase;
        simpl in Hrun; [|done..].
      set (reg1 := if negb (match haveBase with Some _ => true | None => false end)
                   then _ else reg) in Hrun.
      assert (Hm1 : isMapping (schemasNode reg1) = true
                    /\ Nat.even (List.length (Content (schemasNode reg1))) = true).
      { unfold reg1. destruct haveBase; simpl; [done|]. split; [done|].
        by rewrite length_app, Nat.even_add, Heven. }
      destruct Hm1 as [Hm1 Heven1].
      destruct (getMapValue (Some (schemasNode reg1)) _) as [haveComposite| |] eqn:Hcomp;
        simpl in Hrun; [|done..].
      injection Hrun as <- <- <-.
      eexists _. destruct haveComposite as [c|]; simpl.
      * exists c. split; [done|].
        unfold getMapValue in Hcomp. rewrite Hm1 in Hcomp.
        by apply lookupPairs_Some_In.
      * eexists. split; [done|]. rewrite entriesOf_app by done.
        apply in_or_app. right. by left.
Qed.

(** What [rewriteSchema] does with an inline schema. *)
Lemma rewriteSchema_settles path method operationID status schemaNode (reg : registry) opts
    schemaNode' reg' changed :
  Settled reg -> isMapping schemaNode = true -> isRefOnlySchema schemaNode = false ->
  rewriteSchema path method operationID status schemaNode reg opts
    = Val (schemaNode', reg', changed) ->
  Settled reg'
  /\ (exists added, Content (schemasNode reg') = (Content (schemasNode reg) ++ added)%list)
  /\ exists name c,
       schemaNode' = makeRefOnlySchema schemaNode name
       /\ In (name, c) (entriesOf (Content (schemasNode reg')))
       /\ (~ takesAlternativesRewrite operationID schemaNode ->
           schemaFingerprint (Some c) = schemaFingerprint (Some schemaNode)).
Proof.
  intros Hs Hm Hr Hrun.
  assert (Hplain :
            forall node' name,
              componentizeSchema reg (Some schemaNode)
                (deriveResponseSchemaNameHint path method operationID status) opts
              = Val (node', reg', (name, changed)) ->
              schemaNode' = default schemaNode node' ->
              Settled reg'
              /\ (exists added,
                    Content (schemasNode reg') = (Content (schemasNode reg) ++ added)%list)
              /\ exists name c,
                   schemaNode' = makeRefOnlySchema schemaNode name
                   /\ In (name, c) (entriesOf (Content (schemasNode reg')))
                   /\ (~ takesAlternativesRewrite operationID schemaNode ->
                       schemaFingerprint (Some c) = schemaFingerprint (Some schemaNode))).
  { intros node' name E ->.
    destruct (componentizeSchema_inline _ _ _ _ _ _ _ _ Hm Hr E) as [-> _].
    apply componentizeSchema_settles in E as (Hs' & Hext & c & Hin & Hfp); [|done..].
    split; [done|]. split; [done|]. by exists name, c. }
  unfold rewriteSchema in Hrun.
  set (plain := rbind (componentizeSchema _ _ _ _) _) in Hrun.
  assert (Hp : plain = Val (schemaNode', reg', changed) ->
               exists node' name,
                 componentizeSchema reg (Some schemaNode)
                   (deriveResponseSchemaNameHint path method operationID status) opts
                 = Val (node', reg', (name, changed))
                 /\ schemaNode' = default schemaNode node').
  { subst plain.
    destruct (componentizeSchema _ _ _ _) as [[[n r] [nm ch]]| |]; simpl; [|done..].
    intros [= <- <- <-]. eauto. }
  assert (Hvia : plain = Val (schemaNode', reg', changed) ->
            Settled reg'
            /\ (exists added,
                  Content (schemasNode reg') = (Content (schemasNode reg) ++ added)%list)
            /\ exists name c,
                 schemaNode' = makeRefOnlySchema schemaNode name
                 /\ In (name, c) (entriesOf (Content (schemasNode reg')))
                 /\ (~ takesAlternativesRewrite operationID schemaNode ->
                     schemaFingerprint (Some c) = schemaFingerprint (Some schemaNode))).
  { intros E. destruct (Hp E) as (node' & name & E' & Hn). by eapply Hplain. }
  clearbody plain.
  destruct (getMapValue _ "allOf") as [[allOf|]| |] eqn:HallOf; simpl in Hrun; try done;
    [|by apply Hvia].
  destruct (isKind SequenceNode allOf) eqn:Hkind; simpl in Hrun; [|by apply Hvia].
  destruct (Content allOf) as [|b [|e [|x rest]]] eqn:Hcontent; simpl in Hrun;
    try done; try by apply Hvia.
  destruct (isInlineObjectWithAlternatives b e) as [[|]| |] eqn:Hshape; simpl in Hrun;
    try done; [|by apply Hvia].
  destruct (String.eqb_spec (deriveSchemaName operationID) "") as [Hname|Hname].
  - unfold handleAlternativesPattern in Hrun. rewrite Hname in Hrun. simpl in Hrun.
    destruct (componentizeSchema _ _ _ _) as [[[n r] [nm ch]]| |] eqn:E;
      simpl in Hrun; [|done..].
    injection Hrun as <- <- <-. by eapply Hplain.
  - apply handleAlternativesPattern_settles in Hrun
      as (Hs' & Hext & name & c & -> & Hin); [|done..].
    split; [done|]. split; [done|]. exists name, c. split; [done|]. split; [done|].
    intros Hplain'. exfalso. apply Hplain'. split; [done|]. exists allOf, b, e.
    split; [done|]. split; [by apply N.eqb_eq|]. split; [done|].
    by apply isInlineObjectWithAlternatives_iff.
Qed.

(** A response rewritten from a settled registry. *)
Lemma processResponseSchema_settles path method operationID status resp (reg : registry) opts
    resp' reg' changed :
  processResponseSchema path method operationID status resp reg opts
    = Val (resp', reg', changed) ->
  settles reg reg'
  /\ (Settled reg ->
      forall s, responseSchema resp = Some s -> isRefOnlySchema s = false ->
        exists name c,
          responseSchema resp' = Some (makeRefOnlySchema s name)
          /\ In (name, c) (entriesOf (Content (schemasNode reg')))
          /\ (~ takesAlternativesRewrite operationID s ->
              schemaFingerprint (Some c) = schemaFingerprint (Some s))).
Proof.
  rewrite processResponseSchema_locate. unfold responseSchema.
  destruct (locateSchema resp) as [[[[[c t] a] s]|]| |] eqn:Hloc; simpl; try done.
  - destruct (isRefOnlySchema s) eqn:Hr.
    + intros [= <- <- <-]. split; [apply settles_refl|]. intros _ s0 [= <-]. congruence.
    + assert (Hm : isMapping s = true).
      { destruct (responseSchema_locate resp s) as (? & ? & ? & _ & Hm); [|done].
        unfold responseSchema. by rewrite Hloc. }
      destruct (rewriteSchema _ _ _ _ _ _ _) as [[[s' r'] ch]| |] eqn:E; simpl; try done.
      intros [= <- <- <-]. split.
      * intros Hs. by apply rewriteSchema_settles in E as (? & ? & _).
      * intros Hs s0 [= <-] _.
        apply rewriteSchema_settles in E as (_ & _ & name & c0 & -> & Hin & Hfp); [|done..].
        exists name, c0. split; [|done].
        rewrite (locateSchema_putSchema _ _ _ _ _ _ Hloc); [done|].
        by rewrite isMapping_makeRefOnlySchema.
  - intros [= <- <- <-]. split; [apply settles_refl|]. by intros _ s0.
Qed.

(** X6.  On a document whose [components.schemas] is missing or is a
    mapping in which no name occurs twice, every inline schema of a JSON
    response that the walk reaches is replaced by a reference that
    resolves: [components.schemas] of the tree returned has an entry under
    the name referred to.  When the schema does not take the alternatives
    rewrite, that entry has the fingerprint of the schema replaced. *)
Theorem references_resolve root opts root' changed :
  RefactorInlineResponseSchemas (FM := FM) (NS := NS) root opts = Val (root', changed) ->
  (forall schemas, schemasOf root = Val (Some schemas) -> isMapping schemas = true) ->
  NoDup (entryNames (initialEntries root)) ->
  forall addr path method operationID status resp s,
    responseOf root addr = Some (path, method, operationID, status, resp) ->
    responseSchema resp = Some s -> isRefOnlySchema s = false ->
    exists resp' name c,
      responseOf root' addr = Some (path, method, operationID, status, resp')
      /\ responseSchema resp' = Some (makeRefOnlySchema s name)
      /\ component root' name = Val (Some c)
      /\ (~ takesAlternativesRewrite operationID s ->
          schemaFingerprint (Some c) = schemaFingerprint (Some s)).
Proof.
  intros Hrun Hmap Hnd addr p m o st resp s Haddr Hs Hr.
  apply refactor_run in Hrun
    as (top & others & paths & schemas0 & reg0 & c & regF &
        Hroot & Htop & Hpaths & Hpm & Hinit & Hkind & Hreg0 & Hwalk & Hschemas' & Hpaths').
  assert (Hm0 : isMapping schemas0 = true) by (destruct Hkind; auto).
  assert (Hs0 : Settled reg0).
  { eapply newSchemaRegistry_Settled; [done..|]. by rewrite Hinit. }
  assert (HpathsOf : pathsOf root = Val (Some paths)) by (unfold pathsOf; by rewrite Hroot).
  assert (Hsteps : stepsRespect settles opts
            (fun p m o st resp => exists addr,
               responseAt (Content paths) addr = Some (p, m, o, st, resp))).
  { intros p0 m0 o0 st0 resp0 reg resp' reg' ch _ Hstep.
    by apply processResponseSchema_settles in Hstep as [? _]. }
  destruct (walkPaths_at settles opts (Content paths) settles_refl settles_trans
              Hsteps _ _ _ Hwalk) as [_ Hsites]. simpl in Hsites.
  unfold responseOf in *. rewrite HpathsOf in Haddr. rewrite Hpaths'. simpl.
  destruct (Hsites _ _ _ _ _ _ Haddr) as (resp' & Haddr' & r1 & r2 & ch & Hstep & H01 & H2F).
  destruct (H01 Hs0) as [Hs1 _].
  apply processResponseSchema_settles in Hstep as [H12 Hsite].
  destruct (H12 Hs1) as [Hs2 _]. destruct (H2F Hs2) as [(HOKF & HndF & _) [added Hadded]].
  destruct (Hsite Hs1 _ Hs Hr) as (name & c0 & Hs' & Hin & Hfp).
  exists resp', name, c0. split; [done|]. split; [done|]. split; [|done].
  unfold component. rewrite Hschemas'. simpl.
  destruct HOKF as (HmF & HevenF & _). unfold getMapValue. rewrite HmF.
  apply lookupPairs_NoDup; [done..|].
  destruct Hs2 as ((_ & Heven2 & _) & _).
  rewrite Hadded, entriesOf_app by done. apply in_or_app. by left.
Qed.

End References.

Lemma references_resolve_witness :
  exists root' resp' name c,
    Sample.run Cases.reuseDoc = Val (root', true)
    /\ responseOf root' (0, 0, 0)%nat
       = Some ("/airports/{id}", "get", "get_airport", "200", resp')
    /\ responseSchema resp' = Some (makeRefOnlySchema Cases.commentedAirport name)
    /\ component root' name = Val (Some c)
    /\ (~ takesAlternativesRewrite "get_airport" Cases.commentedAirport ->
        schemaFingerprint (Some c) = schemaFingerprint (Some Cases.commentedAirport)).
Proof.
  eassert (Hrun : Sample.run Cases.reuseDoc = Val (_, true)) by (vm_compute; reflexivity).
  edestruct (fun Hm Hn => references_resolve (FM := gmap string string) (NS := gmap string unit)
                            Cases.reuseDoc Sample.opts0 _ _ Hrun Hm Hn (0, 0, 0)%nat)
    as (resp' & name & c & H1 & H2 & H3 & H4).
  - intros schemas Hs. vm_compute in Hs. by injection Hs as <-.
  - vm_compute. apply NoDup_cons; [by intros []|constructor].
  - vm_compute. reflexivity.
  - vm_compute. reflexivity.
  - reflexivity.
  - eexists _, resp', name, c. split; [exact Hrun|].
    repeat split; [exact H1|exact H2|exact H3|exact H4].
Defined.

(** ** What the pass leaves in the responses *)

(** A property of the value that every round leaves holds of every value
    of the list that the loop leaves. *)
Lemma walkPairs_all {S : Type} (Q : Node -> Node -> Prop)
    (body : Node -> Node -> S -> res (Node * S)) c :
  (forall k v s v' s', body k v s = Val (v', s') -> Q k v') ->
  forall s c' s', walkPairs body c s = Val (c', s') ->
    forall i k v', pairAt c' i = Some (k, v') -> Q k v'.
Proof.
  intros Hbody. pairs_induction c; intros s c' s'; simpl; try done.
  - intros [= <- <-]. by intros [|i].
  - destruct (body k v s) as [[v1 s1]| |] eqn:E; simpl; try done.
    destruct (walkPairs body rest s1) as [[rest1 s2]| |] eqn:E2; simpl; try done.
    intros [= <- <-] [|i] k0 v0; simpl.
    + intros [= <- <-]. by eapply Hbody.
    + by eapply IH.
Qed.

Section Left.
Context {FM NS : Type} `{!GoMap string FM} `{!GoMap unit NS}.
Local Abbreviation registry := (@schemaRegistry FM NS).

(** The JSON schema of the response, when it is a mapping, is a bare
    reference. *)
Local Abbreviation referenced :=
  (fun resp : Node => forall s, responseSchema resp = Some s -> isRefOnlySchema s = true).

Lemma walkResponse_referenced path method operationID opts k v (st : registry * bool) v' st' :
  walkResponse path method operationID opts k v st = Val (v', st') -> referenced v'.
Proof.
  destruct st as [reg ch]. unfold walkResponse.
  destruct (processResponseSchema _ _ _ _ _ _ _) as [[[v1 reg1] ch1]| |] eqn:E;
    simpl; try done.
  intros [= <- <-].
  apply processResponseSchema_result in E
    as [(_ & -> & _ & Hall)|(_ & s & name & _ & Hm & _ & Hs')]; [done|].
  intros s' Hs. rewrite Hs' in Hs. injection Hs as <-.
  by apply isRefOnlySchema_makeRefOnlySchema.
Qed.

Lemma walkOperation_referenced pathKey opts k v (st : registry * bool) v' st' :
  walkOperation pathKey opts k v st = Val (v', st') ->
  forall method operationID respNode,
    operationResponses k v' = Some (method, operationID, respNode) ->
    forall i codeKey codeVal,
      pairAt (Content respNode) i = Some (codeKey, codeVal) -> referenced codeVal.
Proof.
  unfold walkOperation, operationResponses.
  destruct (isHTTPMethod (Value k)) eqn:Hmethod; simpl; [|by intros [= <- <-]].
  destruct (isMapping v) eqn:Hm; simpl; [|by intros [= <- <-]; rewrite Hm].
  destruct (getMapValue (Some v) "operationId") as [opIDNode| |] eqn:Hop; simpl; try done.
  destruct (getMapValue (Some v) "responses") as [[respNode|]| |] eqn:Hresp; simpl; try done.
  2:{ intros [= <- <-]. by rewrite Hm, Hop, Hresp. }
  destruct (isMapping respNode) eqn:Hrm; simpl.
  2:{ intros [= <- <-]. by rewrite Hm, Hop, Hresp, Hrm. }
  destruct (walkPairs _ _ st) as [[c st1]| |] eqn:Hw; simpl; try done.
  intros [= <- <-]. rewrite isMapping_setMapValue, Hm.
  rewrite getMapValue_setMapValue_ne, Hop by done.
  rewrite (getMapValue_setMapValue_eq _ _ _ _ Hresp), isMapping_setContent, Hrm.
  intros method operationID respNode' [= <- <- <-] i codeKey codeVal Hi.
  eapply (walkPairs_all (fun _ v => referenced v)); [|exact Hw|exact Hi].
  intros. by eapply walkResponse_referenced.
Qed.

Lemma walkPath_referenced opts k v (st : registry * bool) v' st' :
  walkPath opts k v st = Val (v', st') ->
  forall j i path method operationID status resp,
    responseAt [k; v'] (0%nat, j, i) = Some (path, method, operationID, status, resp) ->
    referenced resp.
Proof.
  unfold walkPath, responseAt, pairAt at 1.
  destruct (isMapping v) eqn:Hm; simpl.
  2:{ intros [= <- <-]. by rewrite Hm. }
  destruct (walkPairs _ _ st) as [[c st1]| |] eqn:Hw; simpl; try done.
  intros [= <- <-] j i path method operationID status resp.
  rewrite isMapping_setContent, Hm, Content_setContent.
  destruct (pairAt c j) as [[methodKey methodVal]|] eqn:Hj; [|done].
  destruct (operationResponses methodKey methodVal) as [[[m o] respNode]|] eqn:Hor; [|done].
  destruct (pairAt (Content respNode) i) as [[codeKey codeVal]|] eqn:Hi; [|done].
  intros [= <- <- <- <- <-].
  pose proof (walkPairs_all
                (fun k v => forall method operationID respNode,
                     operationResponses k v = Some (method, operationID, respNode) ->
                     forall i codeKey codeVal,
                       pairAt (Content respNode) i = Some (codeKey, codeVal) ->
                       referenced codeVal)
                (walkOperation k opts) (Content v)) as Hall.
  eapply Hall; [|exact Hw|exact Hj|exact Hor|exact Hi].
  intros. by eapply walkOperation_referenced.
Qed.

(** X7.  When the pass returns without error, no response that the walk
    reaches in the tree returned has an inline JSON schema left: the
    schema of the media type selected, when it is a mapping, is a bare
    reference. *)
Theorem no_inline_schema_left root opts root' changed :
  RefactorInlineResponseSchemas (FM := FM) (NS := NS) root opts = Val (root', changed) ->
  forall addr path method operationID status resp s,
    responseOf root' addr = Some (path, method, operationID, status, resp) ->
    responseSchema resp = Some s ->
    isRefOnlySchema s = true.
Proof.
  intros Hrun [[i j] k] p m o st resp s Haddr Hs.
  apply refactor_run in Hrun
    as (top & others & paths & schemas0 & reg0 & c & regF &
        Hroot & Htop & Hpaths & Hpm & Hinit & Hkind & Hreg0 & Hwalk & Hschemas' & Hpaths').
  unfold responseOf in Haddr. rewrite Hpaths' in Haddr. simpl in Haddr.
  destruct (pairAt c i) as [[pk pv]|] eqn:Hi; [|done].
  pose proof (walkPairs_all
                (fun k v => forall j i path method operationID status resp,
                     responseAt [k; v] (0%nat, j, i)
                     = Some (path, method, operationID, status, resp) ->
                     referenced resp)
                (walkPath opts) (Content paths)) as Hall.
  eapply Hall; [|exact Hwalk|exact Hi| |exact Hs].
  - intros. by eapply walkPath_referenced.
  - simpl. exact Haddr.
Qed.

End Left.

Lemma no_inline_schema_left_witness :
  exists root' resp s,
    Sample.run Sample.inlineDoc = Val (root', true)
    /\ responseOf root' (0, 0, 0)%nat
       = Some ("/airports/{id}", "get", "get_airport", "200", resp)
    /\ responseSchema resp = Some s
    /\ isRefOnlySchema s = true.
Proof.
  eassert (Hrun : Sample.run Sample.inlineDoc = Val (_, true)) by (vm_compute; reflexivity).
  eexists _, _, _. split; [exact Hrun|].
  split; [vm_compute; reflexivity|]. split; [vm_compute; reflexivity|].
  eapply (no_inline_schema_left (FM := gmap string string) (NS := gmap string unit)
            Sample.inlineDoc Sample.opts0 _ _ Hrun (0, 0, 0)%nat);
    vm_compute; reflexivity.
Defined.

(** ** What the pass does not touch *)

Lemma entryNames_updatePairs key v c : entryNames (updatePairs key v c) = entryNames c.
Proof.
  unfold entryNames. pairs_induction c; simpl; try done.
  destruct (String.eqb (Value k) key); simpl; [done|]. by rewrite IH.
Qed.

Lemma entryNames_setMapValue m key v :
  entryNames (Content (setMapValue m key v)) = entryNames (Content m).
Proof. apply entryNames_updatePairs. Qed.

(** The keys of the node after [ensureMapValue]: those it had, and the new
    key behind them when it was missing. *)
Lemma ensureMapValue_names m key m1 v :
  ensureMapValue m key = Val (m1, v) -> isMapping m = true ->
  entryNames (Content m1) = entryNames (Content m)
  \/ entryNames (Content m1) = (entryNames (Content m) ++ [key])%list.
Proof.
  unfold ensureMapValue. intros Hrun Hm. rewrite Hm in Hrun.
  destruct (getMapValue (Some m) key) as [[v0|]| |] eqn:E; simpl in Hrun; try done.
  - injection Hrun as <- <-. by left.
  - injection Hrun as <- <-. right. simpl. rewrite entryNames_app; [done|].
    unfold getMapValue in E. rewrite Hm in E. by eapply lookupPairs_Val_even.
Qed.

Section Frame.
Context {FM NS : Type} `{!GoMap string FM} `{!GoMap unit NS}.

(** X8.  The pass works inside [paths] and [components] only.  The root
    keeps its kind, tag, value and position, and the documents after the
    first; the top-level mapping keeps its keys in their order, with
    [components] added behind them when it was missing, and the value of
    every key other than [paths] and [components]; a [components] mapping
    keeps the value of every key other than [schemas]. *)
Theorem refactor_frame root opts root' changed :
  RefactorInlineResponseSchemas (FM := FM) (NS := NS) root opts = Val (root', changed) ->
  setContent root' (Content root) = root
  /\ exists top top' others,
       Content root = top :: others
       /\ Content root' = top' :: others
       /\ (entryNames (Content top') = entryNames (Content top)
           \/ entryNames (Content top') = (entryNames (Content top) ++ ["components"])%list)
       /\ (forall key, key <> "components" -> key <> "paths" ->
             getMapValue (Some top') key = getMapValue (Some top) key)
       /\ (forall comp,
             getMapValue (Some top) "components" = Val (Some comp) ->
             isMapping comp = true ->
             exists comp',
               getMapValue (Some top') "components" = Val (Some comp')
               /\ forall key, key <> "schemas" ->
                    getMapValue (Some comp') key = getMapValue (Some comp) key).
Proof.
  unfold RefactorInlineResponseSchemas. intros Hrun.
  destruct (negb (isKind DocumentNode root) || _) eqn:Hdoc; [done|].
  destruct (Content root) as [|top others] eqn:Hroot; [done|].
  destruct (isMapping top) eqn:Htop; simpl in Hrun; [|done].
  destruct (ensureMapValue top "components") as [[top1 comp0]| |] eqn:H1;
    simpl in Hrun; try done.
  destruct (ensureMapValue comp0 "schemas") as [[comp1 schemas0]| |] eqn:H2;
    simpl in Hrun; try done.
  destruct (newSchemaRegistry schemas0) as [reg0| |] eqn:H3; simpl in Hrun; try done.
  destruct (getMapValue (Some (setMapValue top1 "components" comp1)) "paths")
    as [[paths|]| |] eqn:H4; simpl in Hrun; try done.
  destruct (isMapping paths) eqn:Hpaths; simpl in Hrun; [|done].
  destruct (walkPairs (walkPath opts) (Content paths) (reg0, false))
    as [[c [regF chF]]| |] eqn:H5; simpl in Hrun; try done.
  injection Hrun as <- <-.
  split; [by rewrite setContent_setContent, <- Hroot, setContent_Content|].
  eexists top, _, others. split; [done|]. split; [done|].
  pose proof (ensureMapValue_spec _ _ _ _ H1) as [Htop1 Hcomp0].
  pose proof (ensureMapValue_spec _ _ _ _ H2) as [Hcomp1 Hschemas0].
  split; [|split].
  - rewrite !entryNames_setMapValue. by eapply ensureMapValue_names.
  - intros key Hc Hp. rewrite !getMapValue_setMapValue_ne by done.
    by rewrite (ensureMapValue_other _ _ _ _ key H1 Htop).
  - intros comp Hcomp Hcm.
    destruct (ensureMapValue_cases _ _ _ _ H1) as [[Hc0 ->]|[Hc0 _]]; [|congruence].
    assert (comp0 = comp) as -> by congruence.
    eexists. split.
    + rewrite getMapValue_setMapValue_ne by done.
      eapply getMapValue_setMapValue_eq. by eapply getMapValue_setMapValue_eq.
    + intros key Hk. rewrite getMapValue_setMapValue_ne by done.
      by rewrite (ensureMapValue_other _ _ _ _ key H2 Hcm).
Qed.

End Frame.

Lemma refactor_frame_witness :
  exists root',
    Sample.run Cases.fullDoc = Val (root', true)
    /\ setContent root' (Content Cases.fullDoc) = Cases.fullDoc
    /\ exists top top' others,
         Content Cases.fullDoc = top :: others
         /\ Content root' = top' :: others
         /\ (entryNames (Content top') = entryNames (Content top)
             \/ entryNames (Content top') = (entryNames (Content top) ++ ["components"])%list)
         /\ (forall key, key <> "components" -> key <> "paths" ->
               getMapValue (Some top') key = getMapValue (Some top) key)
         /\ (forall comp,
               getMapValue (Some top) "components" = Val (Some comp) ->
               isMapping comp = true ->
               exists comp',
                 getMapValue (Some top') "components" = Val (Some comp')
                 /\ forall key, key <> "schemas" ->
                      getMapValue (Some comp') key = getMapValue (Some comp) key).
Proof.
  eassert (Hrun : Sample.run Cases.fullDoc = Val (_, true)) by (vm_compute; reflexivity).
  eexists. split; [exact Hrun|].
  exact (refactor_frame (FM := gmap string string) (NS := gmap string unit)
           Cases.fullDoc Sample.opts0 _ _ Hrun).
Defined.

(** ** The names derived *)

Lemma append_empty_r (a : string) : a +:+ "" = a.
Proof. induction a as [|x a IH]; [done|]. by rewrite append_cons, IH. Qed.

Lemma mapBytes_app f (a b : string) : mapBytes f (a +:+ b) = mapBytes f a +:+ mapBytes f b.
Proof. induction a as [|x a IH]; [done|]. rewrite append_cons. simpl. by rewrite IH. Qed.

Lemma mapBytes_length f (a : string) : String.length (mapBytes f a) = String.length a.
Proof. induction a as [|x a IH]; [done|]. simpl. by rewrite IH. Qed.

Lemma Split_nonempty s sep : Split s sep <> [].
Proof.
  destruct s as [|c s]; [done|]. simpl. destruct (Ascii.eqb c sep); [done|].
  by destruct (Split s sep).
Qed.

(** [strings.Split] cuts at every separator: the parts of a text with a
    separator in it are the parts before and the parts after. *)
Lemma Split_app a b sep :
  Split (a +:+ String sep b) sep = (Split a sep ++ Split b sep)%list.
Proof.
  induction a as [|c a IH].
  - rewrite append_empty_l. simpl. by rewrite Ascii.eqb_refl.
  - rewrite append_cons. simpl. rewrite IH. destruct (Ascii.eqb c sep); [done|].
    pose proof (Split_nonempty a sep). by destruct (Split a sep).
Qed.

Lemma Split_lacks w sep : lacksByte sep w = true -> Split w sep = [w].
Proof.
  induction w as [|c w IH]; [done|]. simpl. intros [Hc Hw]%andb_true_iff.
  apply negb_true_iff in Hc. by rewrite Hc, (IH Hw).
Qed.

Lemma ReplaceAll_lacks w old new : lacksByte old w = true -> ReplaceAll w old new = w.
Proof.
  unfold ReplaceAll. induction w as [|c w IH]; [done|]. simpl.
  intros [Hc Hw]%andb_true_iff. apply negb_true_iff in Hc. by rewrite Hc, (IH Hw).
Qed.

Lemma Split_parts_lack_sep s sep : Forall (fun p => lacksByte sep p = true) (Split s sep).
Proof.
  induction s as [|c s IH]; simpl; [by repeat constructor|].
  destruct (Ascii.eqb c sep) eqn:Hc; [by constructor|].
  pose proof (Split_nonempty s sep). destruct (Split s sep) as [|x xs]; [done|].
  inversion IH as [|? ? Hx Hxs]; subst. constructor; [|done]. simpl. by rewrite Hc, Hx.
Qed.

Lemma Split_parts_lack s sep c :
  lacksByte c s = true -> Forall (fun p => lacksByte c p = true) (Split s sep).
Proof.
  induction s as [|d s IH]; simpl; [by repeat constructor|].
  intros [Hd Hs]%andb_true_iff. specialize (IH Hs).
  destruct (Ascii.eqb d sep); [by constructor|].
  pose proof (Split_nonempty s sep). destruct (Split s sep) as [|x xs]; [done|].
  inversion IH as [|? ? Hx Hxs]; subst. constructor; [|done]. simpl. by rewrite Hd, Hx.
Qed.

Lemma Join_cons x l : Join (x :: l) = x +:+ Join l.
Proof.
  unfold Join. destruct l as [|y l]; simpl; [by rewrite append_empty_r|done].
Qed.

Lemma Join_app l1 l2 : Join (l1 ++ l2) = Join l1 +:+ Join l2.
Proof.
  induction l1 as [|x l1 IH]; [done|].
  change ((x :: l1) ++ l2)%list with (x :: (l1 ++ l2))%list.
  by rewrite !Join_cons, IH, append_assoc.
Qed.

Lemma Join_lacks c l : Forall (fun p => lacksByte c p = true) l -> lacksByte c (Join l) = true.
Proof.
  induction 1 as [|x l Hx _ IH]; [done|]. by rewrite Join_cons, lacksByte_app, Hx, IH.
Qed.

Lemma toUpperByte_idem c : toUpperByte (toUpperByte c) = toUpperByte c.
Proof. destruct c as [[] [] [] [] [] [] [] []]; reflexivity. Qed.

Lemma toUpperByte_underscore c : Ascii.eqb (toUpperByte c) "_" = Ascii.eqb c "_".
Proof. destruct c as [[] [] [] [] [] [] [] []]; reflexivity. Qed.

Lemma toUpperByte_hyphen c : Ascii.eqb (toUpperByte c) "-" = Ascii.eqb c "-".
Proof. destruct c as [[] [] [] [] [] [] [] []]; reflexivity. Qed.

Lemma upperFirst_idem s : upperFirst (upperFirst s) = upperFirst s.
Proof. destruct s as [|c s]; [done|]. simpl. by rewrite toUpperByte_idem. Qed.

Lemma upperFirst_lacks_underscore s : lacksByte "_" (upperFirst s) = lacksByte "_" s.
Proof. destruct s as [|c s]; [done|]. simpl. by rewrite toUpperByte_underscore. Qed.

Lemma upperFirst_lacks_hyphen s : lacksByte "-" (upperFirst s) = lacksByte "-" s.
Proof. destruct s as [|c s]; [done|]. simpl. by rewrite toUpperByte_hyphen. Qed.

Lemma upperFirst_app a b : a <> "" -> upperFirst (a +:+ b) = upperFirst a +:+ b.
Proof. by destruct a. Qed.

(** The parts of a text that [toPascalCase] keeps, each with its first
    byte in upper case. *)
Lemma toPascalCase_parts s :
  toPascalCase s
  = Join (List.map upperFirst
            (List.filter (fun part => negb (String.eqb part ""))
                         (Split (ReplaceAll s "-" "_") "_"))).
Proof. done. Qed.

Lemma ReplaceAll_hyphen_lacks s : lacksByte "-" (ReplaceAll s "-" "_") = true.
Proof.
  unfold ReplaceAll. induction s as [|c s IH]; [done|]. simpl. rewrite IH.
  by destruct (Ascii.eqb_spec c "-") as [->|Hne]; [|apply Ascii.eqb_neq in Hne; rewrite Hne].
Qed.

(** A text with no separator is one part. *)
Lemma toPascalCase_word w :
  lacksByte "_" w = true -> lacksByte "-" w = true -> toPascalCase w = upperFirst w.
Proof.
  intros Hu Hh. rewrite toPascalCase_parts, ReplaceAll_lacks, Split_lacks by done.
  destruct w as [|c w]; [done|]. simpl. unfold Join. done.
Qed.

Lemma toPascalCase_underscore a b :
  toPascalCase (a +:+ "_" +:+ b) = toPascalCase a +:+ toPascalCase b.
Proof.
  rewrite !toPascalCase_parts. unfold ReplaceAll. rewrite mapBytes_app.
  change (mapBytes _ ("_" +:+ b)) with (String "_" (mapBytes (fun c => if Ascii.eqb c "-" then "_"%char else c) b)).
  by rewrite Split_app, filter_app, map_app, Join_app.
Qed.

Lemma toPascalCase_hyphen a b :
  toPascalCase (a +:+ "-" +:+ b) = toPascalCase a +:+ toPascalCase b.
Proof.
  rewrite !toPascalCase_parts. unfold ReplaceAll. rewrite mapBytes_app.
  change (mapBytes _ ("-" +:+ b)) with (String "_" (mapBytes (fun c => if Ascii.eqb c "-" then "_"%char else c) b)).
  by rewrite Split_app, filter_app, map_app, Join_app.
Qed.

Lemma toPascalCase_lacks s :
  lacksByte "_" (toPascalCase s) = true /\ lacksByte "-" (toPascalCase s) = true.
Proof.
  rewrite toPascalCase_parts. split; apply Join_lacks.
  - apply Forall_forall. intros p [q [<- Hq]]%in_map_iff.
    apply filter_In in Hq as [Hq _]. rewrite upperFirst_lacks_underscore.
    pose proof (Split_parts_lack_sep (ReplaceAll s "-" "_") "_") as Hall.
    rewrite Forall_forall in Hall. auto.
  - apply Forall_forall. intros p [q [<- Hq]]%in_map_iff.
    apply filter_In in Hq as [Hq _]. rewrite upperFirst_lacks_hyphen.
    pose proof (Split_parts_lack (ReplaceAll s "-" "_") "_" "-"
                  (ReplaceAll_hyphen_lacks s)) as Hall.
    rewrite Forall_forall in Hall. auto.
Qed.

Lemma upperFirst_toPascalCase s : upperFirst (toPascalCase s) = toPascalCase s.
Proof.
  rewrite toPascalCase_parts.
  destruct (List.filter _ _) as [|p ps] eqn:Hf; [done|].
  assert (Hp : p <> "").
  { assert (Hin : In p (p :: ps)) by (by left). rewrite <- Hf in Hin.
    apply filter_In in Hin as [_ Hp]. by destruct (String.eqb_spec p ""). }
  change (List.map upperFirst (p :: ps)) with (upperFirst p :: List.map upperFirst ps).
  rewrite Join_cons, upperFirst_app, upperFirst_idem; [done|]. by destruct p.
Qed.

(** X9.  [toPascalCase] reads [_] and [-] as separators and nothing else:
    the name of a text with a separator in it is the name of what is
    before followed by the name of what is after; the result holds no
    separator, starts in the upper case of its first byte, and is left as
    it is by a second application. *)
Theorem toPascalCase_laws :
  (forall a b, toPascalCase (a +:+ "_" +:+ b) = toPascalCase a +:+ toPascalCase b)
  /\ (forall a b, toPascalCase (a +:+ "-" +:+ b) = toPascalCase a +:+ toPascalCase b)
  /\ (forall s, lacksByte "_" (toPascalCase s) = true /\ lacksByte "-" (toPascalCase s) = true)
  /\ (forall s, upperFirst (toPascalCase s) = toPascalCase s)
  /\ (forall s, toPascalCase (toPascalCase s) = toPascalCase s).
Proof.
  split; [apply toPascalCase_underscore|]. split; [apply toPascalCase_hyphen|].
  split; [apply toPascalCase_lacks|]. split; [apply upperFirst_toPascalCase|].
  intros s. destruct (toPascalCase_lacks s) as [Hu Hh].
  by rewrite toPascalCase_word, upperFirst_toPascalCase.
Qed.

(** *** The operation identifier *)

Lemma substring_all s : substring 0 (String.length s) s = s.
Proof. induction s as [|c s IH]; [done|]. simpl. by rewrite IH. Qed.

(** The slice of a text from the end of a prefix of it to its end. *)
Lemma slice_after_prefix P s :
  slice (P +:+ s) (String.length P) (String.length (P +:+ s)) = s.
Proof.
  unfold slice. rewrite length_append.
  replace (String.length P + String.length s - String.length P)%nat
    with (String.length s) by lia.
  induction P as [|c P IH]; [apply substring_all|]. rewrite append_cons. exact IH.
Qed.

Lemma ToLower_app a b : ToLower (a +:+ b) = ToLower a +:+ ToLower b.
Proof. apply mapBytes_app. Qed.

Lemma ToLower_length a : String.length (ToLower a) = String.length a.
Proof. apply mapBytes_length. Qed.

Lemma HasPrefix_app p rest : HasPrefix (p +:+ rest) p = true.
Proof.
  unfold HasPrefix. induction p as [|c p IH]; [by destruct rest|].
  rewrite append_cons. simpl. by destruct (ascii_dec c c).
Qed.

(** The loop over the prefixes stops at a prefix of the list that the text
    in lower case starts with, whatever follows: no prefix of the list is
    the start of another. *)
Lemma stripVerbPrefix_prefix p rest operationID :
  In p verbPrefixes ->
  stripVerbPrefix (p +:+ rest) operationID verbPrefixes
  = slice operationID (String.length p) (String.length operationID).
Proof.
  unfold verbPrefixes. intros Hp. cbn [In] in Hp.
  repeat (destruct Hp as [<-|Hp];
          [cbn [stripVerbPrefix]; rewrite HasPrefix_app; reflexivity|]).
  done.
Qed.

(** X10.  [deriveSchemaName] cuts one leading verb, in any letter case,
    from the operation identifier and gives the rest to [toPascalCase]:
    for each of the eleven prefixes [get_], [post_], [put_], [delete_],
    [patch_], [options_], [head_], [list_], [create_], [update_] and
    [remove_], an identifier made of the prefix and a rest has the name
    of the rest, the empty name when there is no rest. *)
Theorem deriveSchemaName_strips_verb prefix rest :
  In (ToLower prefix) verbPrefixes ->
  deriveSchemaName (prefix +:+ rest) = toPascalCase rest.
Proof.
  intros Hp. unfold deriveSchemaName.
  assert (Hlen : String.length (ToLower prefix) = String.length prefix)
    by apply ToLower_length.
  assert (Hne : prefix <> "").
  { intros ->. simpl in Hp. unfold verbPrefixes in Hp.
    repeat (destruct Hp as [Hp|Hp]; [done|]). done. }
  destruct (String.eqb_spec (prefix +:+ rest) "") as [E|_]; [by destruct prefix|].
  rewrite ToLower_app, stripVerbPrefix_prefix, Hlen, slice_after_prefix by done.
  by destruct (String.eqb_spec rest "") as [->|_].
Qed.

Lemma deriveSchemaName_strips_verb_witness :
  deriveSchemaName ("Get_" +:+ "airport_info") = toPascalCase "airport_info"
  /\ toPascalCase "airport_info" = "AirportInfo".
Proof.
  split; [|reflexivity].
  apply (deriveSchemaName_strips_verb "Get_" "airport_info").
  vm_compute. tauto.
Defined.

(** *** The name hint of a response *)

Lemma substring_skip a b n :
  substring (String.length a) n (a +:+ b) = substring 0 n b.
Proof. induction a as [|c a IH]; [done|]. rewrite append_cons. exact IH. Qed.

Lemma substring_prefix a b : substring 0 (String.length a) (a +:+ b) = a.
Proof.
  induction a as [|c a IH]; [by destruct b|]. rewrite append_cons. simpl. by rewrite IH.
Qed.

Lemma HasSuffix_app a b : HasSuffix (a +:+ b) b = true.
Proof.
  unfold HasSuffix. rewrite length_append. apply andb_true_iff. split.
  - apply Nat.leb_le. lia.
  - replace (String.length a + String.length b - String.length b)%nat
      with (String.length a) by lia.
    rewrite substring_skip, substring_all. apply String.eqb_refl.
Qed.

Lemma append_eq_empty (a b : string) : a +:+ b = "" -> a = "" /\ b = "".
Proof. destruct a; [by rewrite append_empty_l|done]. Qed.

(** X11.  The name hint of a response is never empty and always ends in
    [Response]: it is a base that is not empty, followed by the status in
    Pascal case ([Default] for an empty status) and by [Response].  So the
    walker never calls [componentizeSchema] with an empty hint. *)
Theorem nameHint_shape path method operationID status :
  deriveResponseSchemaNameHint path method operationID status <> ""
  /\ HasSuffix (deriveResponseSchemaNameHint path method operationID status) "Response" = true
  /\ exists base,
       base <> ""
       /\ deriveResponseSchemaNameHint path method operationID status
          = base +:+ toPascalCase (if String.eqb status "" then "Default" else status)
                 +:+ "Response".
Proof.
  unfold deriveResponseSchemaNameHint.
  set (base0 := if String.eqb (deriveSchemaName operationID) "" then _ else _).
  set (base := if String.eqb base0 "" then "Response" else base0).
  set (suffix := toPascalCase _).
  assert (Hbase : base <> "").
  { unfold base. by destruct (String.eqb_spec base0 ""). }
  split; [|split].
  - intros E. by apply append_eq_empty in E as [? _].
  - rewrite <- append_assoc. apply HasSuffix_app.
  - by exists base.
Qed.

(** *** The name of a path *)

Lemma deriveNameFromPathAndMethod_parts path method :
  deriveNameFromPathAndMethod path method
  = Join (List.map (fun p => toPascalCase
                               (if HasPrefix p "{" && HasSuffix p "}"
                                then slice p 1 (String.length p - 1) else p))
                   (List.filter (fun p => negb (String.eqb p "")) (Split path "/")))
    +:+ toPascalCase (ToLower method).
Proof.
  unfold deriveNameFromPathAndMethod. by rewrite Join_app.
Qed.

Lemma toLowerByte_idem c : toLowerByte (toLowerByte c) = toLowerByte c.
Proof. destruct c as [[] [] [] [] [] [] [] []]; reflexivity. Qed.

Lemma ToLower_idem s : ToLower (ToLower s) = ToLower s.
Proof.
  unfold ToLower. induction s as [|c s IH]; [done|]. simpl. by rewrite toLowerByte_idem, IH.
Qed.

Lemma unbrace x :
  slice ("{" +:+ x +:+ "}") 1 (String.length ("{" +:+ x +:+ "}") - 1) = x.
Proof.
  unfold slice. rewrite append_cons, append_empty_l. simpl.
  rewrite length_append. simpl.
  replace (String.length x + 1 - 0 - 1)%nat with (String.length x) by lia.
  apply substring_prefix.
Qed.

(** X12.  In the name derived from a path and a method, a slash that
    opens or closes the path or follows another slash counts for nothing,
    the braces around a parameter count for nothing, and the method is
    read in lower case: two paths that differ in these ways only get the
    same name. *)
Theorem deriveNameFromPathAndMethod_blind_spots :
  (forall a m, deriveNameFromPathAndMethod (a +:+ "/") m = deriveNameFromPathAndMethod a m)
  /\ (forall a m, deriveNameFromPathAndMethod ("/" +:+ a) m = deriveNameFromPathAndMethod a m)
  /\ (forall a b m, deriveNameFromPathAndMethod (a +:+ "//" +:+ b) m
                    = deriveNameFromPathAndMethod (a +:+ "/" +:+ b) m)
  /\ (forall a x b m,
        lacksByte "/" x = true -> HasPrefix x "{" && HasSuffix x "}" = false ->
        deriveNameFromPathAndMethod (a +:+ "/" +:+ ("{" +:+ x +:+ "}") +:+ "/" +:+ b) m
        = deriveNameFromPathAndMethod (a +:+ "/" +:+ x +:+ "/" +:+ b) m)
  /\ (forall a m, deriveNameFromPathAndMethod a (ToLower m) = deriveNameFromPathAndMethod a m).
Proof.
  split; [|split; [|split; [|split]]].
  - intros a m. rewrite !deriveNameFromPathAndMethod_parts.
    change (a +:+ "/") with (a +:+ String "/" ""). rewrite Split_app, filter_app.
    simpl. by rewrite app_nil_r.
  - intros a m. rewrite !deriveNameFromPathAndMethod_parts.
    change ("/" +:+ a) with ("" +:+ String "/" a). by rewrite Split_app.
  - intros a b m. rewrite !deriveNameFromPathAndMethod_parts.
    change (a +:+ "//" +:+ b) with (a +:+ String "/" ("" +:+ String "/" b)).
    change (a +:+ "/" +:+ b) with (a +:+ String "/" b).
    by rewrite !Split_app, !filter_app.
  - intros a x b m Hx Hbrace. rewrite !deriveNameFromPathAndMethod_parts.
    change (a +:+ "/" +:+ ("{" +:+ x +:+ "}") +:+ "/" +:+ b)
      with (a +:+ String "/" (("{" +:+ x +:+ "}") +:+ String "/" b)).
    change (a +:+ "/" +:+ x +:+ "/" +:+ b) with (a +:+ String "/" (x +:+ String "/" b)).
    rewrite !Split_app, !filter_app, !map_app, !Join_app.
    rewrite (Split_lacks x) by done.
    rewrite (Split_lacks ("{" +:+ x +:+ "}")).
    2:{ rewrite append_cons, append_empty_l. simpl. by rewrite lacksByte_app, Hx. }
    do 2 f_equal. f_equal.
    change (List.filter _ ["{" +:+ x +:+ "}"]) with ["{" +:+ x +:+ "}"].
    cbn [List.map].
    change (HasPrefix ("{" +:+ x +:+ "}") "{") with (HasPrefix ("{" +:+ (x +:+ "}")) "{").
    rewrite HasPrefix_app.
    replace (HasSuffix ("{" +:+ x +:+ "}") "}") with true
      by (symmetry; rewrite <- append_assoc; apply HasSuffix_app).
    cbn [andb]. rewrite unbrace.
    destruct x as [|c x]; [done|].
    change (List.filter _ [String c x]) with [String c x]. cbn [List.map].
    by rewrite Hbrace.
  - intros a m. rewrite !deriveNameFromPathAndMethod_parts. by rewrite ToLower_idem.
Qed.

Lemma deriveNameFromPathAndMethod_blind_spots_witness :
  deriveNameFromPathAndMethod ("/flights" +:+ "/" +:+ ("{" +:+ "id" +:+ "}") +:+ "/" +:+ "track") "get"
  = deriveNameFromPathAndMethod ("/flights" +:+ "/" +:+ "id" +:+ "/" +:+ "track") "get".
Proof.
  destruct deriveNameFromPathAndMethod_blind_spots as (_ & _ & _ & H & _).
  apply (H "/flights" "id" "track" "get"); reflexivity.
Defined.

(** ** The helpers on mappings *)

Lemma lookupPairs_app key c d :
  Nat.even (List.length c) = true ->
  lookupPairs key (c ++ d)
  = match lookupPairs key c with
    | Val None => lookupPairs key d
    | found => found
    end.
Proof.
  pairs_induction c; simpl; try done.
  intros Heven. destruct (String.eqb (Value k) key); [done|]. auto.
Qed.

(** X13.  In a mapping with an even number of children the first entry
    of a key wins: after [appendMapEntry], a lookup finds what it found
    before when it found something, and the value appended when it found
    nothing and the key is the key appended.  An entry appended under a
    key that the mapping has is never read. *)
Theorem appendMapEntry_lookup m key value key' :
  isMapping m = true -> Nat.even (List.length (Content m)) = true ->
  getMapValue (Some (appendMapEntry m key value)) key'
  = match getMapValue (Some m) key' with
    | Val None => if String.eqb key key' then Val (Some value) else Val None
    | found => found
    end.
Proof.
  intros Hm Heven. unfold getMapValue, appendMapEntry.
  rewrite isMapping_setContent, Hm. simpl. rewrite lookupPairs_app by done.
  destruct (lookupPairs key' (Content m)) as [[x|]| |]; try done.
Qed.

Lemma appendMapEntry_lookup_witness :
  getMapValue (Some (appendMapEntry (Sample.ymap [Sample.ystr "Pet"; Sample.airport])
                                    "Pet" Sample.operator)) "Pet"
  = Val (Some Sample.airport).
Proof.
  apply (appendMapEntry_lookup (Sample.ymap [Sample.ystr "Pet"; Sample.airport])
           "Pet" Sample.operator "Pet"); reflexivity.
Defined.

(** X14.  [ensureMapValue] leaves a mapping that has the key, with the
    value it returns; a second call finds that value and changes nothing.
    On a mapping the other keys are read as before.  A node that is not a
    mapping becomes one, and what it held is dropped: it is left with the
    new entry only. *)
Theorem ensureMapValue_laws m key m' v :
  ensureMapValue m key = Val (m', v) ->
  isMapping m' = true
  /\ getMapValue (Some m') key = Val (Some v)
  /\ ensureMapValue m' key = Val (m', v)
  /\ (isMapping m = true ->
      forall key', key <> key' -> getMapValue (Some m') key' = getMapValue (Some m) key')
  /\ (isMapping m = false ->
      v = mappingOf []
      /\ m' = mkNode MappingNode (Tag m) (Value m) [scalarNode key; v] (Meta m)).
Proof.
  intros Hrun. pose proof (ensureMapValue_spec _ _ _ _ Hrun) as [Hm' Hget].
  split; [done|]. split; [done|]. split; [|split].
  - unfold ensureMapValue. rewrite Hm', Hget. done.
  - intros Hm key' Hne. by eapply ensureMapValue_other.
  - intros Hm. unfold ensureMapValue in Hrun. rewrite Hm in Hrun.
    unfold getMapValue in Hrun. simpl in Hrun. by injection Hrun as <- <-.
Qed.

Lemma ensureMapValue_laws_witness :
  isMapping (mkNode MappingNode "!!null" "" [scalarNode "schemas"; mappingOf []] zeroMeta) = true
  /\ ensureMapValue Sample.ynull "schemas"
     = Val (mkNode MappingNode "!!null" "" [scalarNode "schemas"; mappingOf []] zeroMeta,
            mappingOf []).
Proof.
  split; [|reflexivity].
  apply (ensureMapValue_laws Sample.ynull "schemas" _ (mappingOf [])). reflexivity.
Defined.

(** ** The search for a name *)

Section UniqueNameContract.
Context {FM NS : Type} `{!GoMap string FM} `{!GoMap unit NS}.
Local Abbreviation registry := (@schemaRegistry FM NS).

(** X15.  [ensureUniqueName] returns whenever the lookup of the base in
    [components.schemas] does: its loop ends, whatever the registry.  It
    returns the base when [components.schemas] has, under the base, a
    schema with the fingerprint asked for; otherwise the first of [base],
    [base2], [base3], ... that [existingNames] does not hold. *)
Theorem ensureUniqueName_contract (reg : registry) base fp found :
  getMapValue (Some (schemasNode reg)) base = Val found ->
  exists name,
    ensureUniqueName reg base fp = Val name
    /\ ((exists existing,
           found = Some existing /\ schemaFingerprint (Some existing) = fp /\ name = base)
        \/ ((forall existing, found = Some existing -> schemaFingerprint (Some existing) <> fp)
            /\ exists j, name = candidateName base j
                 /\ gm_get (existingNames reg) name = None
                 /\ forall j', (j' < j)%nat ->
                      gm_get (existingNames reg) (candidateName base j') <> None)).
Proof.
  intros Hfound. unfold ensureUniqueName. rewrite Hfound. cbn [rbind].
  destruct (uniqueNameLoop_fuel (existingNames reg) base) as (d & -> & Hfree & Htaken).
  destruct found as [existing|].
  - destruct (String.eqb_spec (schemaFingerprint (Some existing)) fp) as [E|Hne].
    + exists base. split; [done|]. left. by exists existing.
    + eexists. split; [done|]. right. split; [by intros ? [= <-]|]. eauto.
  - eexists. split; [done|]. right. split; [done|]. eauto.
Qed.

End UniqueNameContract.

Lemma ensureUniqueName_contract_witness :
  exists name,
    ensureUniqueName
      (mkRegistry ([] : list (string * string)) [("Pet", tt); ("Pet2", tt)]
                  (Sample.ymap [Sample.ystr "Pet"; Sample.airport;
                                Sample.ystr "Pet2"; Sample.airport]))
      "Pet" (schemaFingerprint (Some Sample.operator)) = Val name
    /\ name = "Pet3".
Proof.
  edestruct (ensureUniqueName_contract
               (mkRegistry ([] : list (string * string)) [("Pet", tt); ("Pet2", tt)]
                           (Sample.ymap [Sample.ystr "Pet"; Sample.airport;
                                         Sample.ystr "Pet2"; Sample.airport]))
               "Pet" (schemaFingerprint (Some Sample.operator)))
    as (name & Hname & _); [reflexivity|].
  exists name. split; [exact Hname|].
  vm_compute in Hname. by injection Hname as <-.
Defined.

(** ** Components that are there already *)

Section Reuse.
Context {FM NS : Type} `{!GoMap string FM} `{!GoMap unit NS}.
Local Abbreviation registry := (@schemaRegistry FM NS).

Lemma seedRegistry_app c d : forall (r : registry),
  Nat.even (List.length c) = true ->
  seedRegistry (c ++ d) r = rbind (seedRegistry c r) (seedRegistry d).
Proof.
  pairs_induction c; intros r; simpl; try done. auto.
Qed.

(** Entries with other fingerprints leave the name registered for a
    fingerprint as it is. *)
Lemma seedRegistry_other c fp : forall (r r' : registry),
  seedRegistry c r = Val r' ->
  (forall name s, In (name, s) (entriesOf c) -> schemaFingerprint (Some s) <> fp) ->
  gm_get (byFingerprint r') fp = gm_get (byFingerprint r) fp.
Proof.
  pairs_induction c; intros r r'; simpl; try done.
  - by intros [= <-].
  - intros Hseed Hother. rewrite (IH _ _ Hseed) by (intros; eapply Hother; eauto).
    destruct (negb (String.eqb (schemaFingerprint (Some v)) "")); [|done]. simpl.
    rewrite gm_get_set.
    destruct (String.eqb_spec (schemaFingerprint (Some v)) fp) as [E|_]; [|done].
    exfalso. eapply Hother; [by left|done].
Qed.

(** X16.  An inline schema that has the fingerprint of an entry that
    [components.schemas] held when the registry was built is not stored
    again: [componentizeSchema] turns it into a reference to that entry and
    leaves the registry as it is.  Of several entries with that
    fingerprint the last one is referred to. *)
Theorem existing_component_reused schemas (reg : registry) before nameNode schema after
    node nameHint opts :
  newSchemaRegistry schemas = Val reg ->
  isMapping schemas = true ->
  Content schemas = (before ++ nameNode :: schema :: after)%list ->
  Nat.even (List.length before) = true ->
  schemaFingerprint (Some schema) = schemaFingerprint (Some node) ->
  (forall name s, In (name, s) (entriesOf after) ->
                  schemaFingerprint (Some s) <> schemaFingerprint (Some node)) ->
  isMapping node = true -> isRefOnlySchema node = false ->
  componentizeSchema reg (Some node) nameHint opts
  = Val (Some (makeRefOnlySchema node (Value nameNode)), reg, (Value nameNode, true)).
Proof.
  intros Hnew Hm Hc Heven Hfp Hafter Hnm Hnr.
  unfold newSchemaRegistry in Hnew. rewrite Hm, Hc, seedRegistry_app in Hnew by done.
  destruct (seedRegistry before _) as [r1| |]; simpl in Hnew; try done.
  assert (Hget : gm_get (byFingerprint reg) (schemaFingerprint (Some node))
                 = Some (Value nameNode)).
  { rewrite (seedRegistry_other _ _ _ _ Hnew Hafter).
    destruct (String.eqb_spec (schemaFingerprint (Some schema)) "") as [E|_];
      [by apply schemaFingerprint_nonempty in E|].
    simpl. by rewrite Hfp, gm_get_set_eq. }
  unfold componentizeSchema. by rewrite Hnm, Hnr, Hget.
Qed.

End Reuse.

Lemma existing_component_reused_witness :
  exists reg : @schemaRegistry (gmap string string) (gmap string unit),
    newSchemaRegistry (Sample.ymap [Sample.ystr "Pet"; Sample.airport;
                                    Sample.ystr "Airport"; Cases.commentedAirport;
                                    Sample.ystr "Operator"; Sample.operator]) = Val reg
    /\ componentizeSchema reg (Some Sample.airport) "AirportResponse" Sample.opts0
       = Val (Some (makeRefOnlySchema Sample.airport "Airport"), reg, ("Airport", true)).
Proof.
  eexists. split; [reflexivity|].
  apply (existing_component_reused (FM := gmap string string) (NS := gmap string unit)
           (Sample.ymap [Sample.ystr "Pet"; Sample.airport;
                         Sample.ystr "Airport"; Cases.commentedAirport;
                         Sample.ystr "Operator"; Sample.operator])
           _ [Sample.ystr "Pet"; Sample.airport] (Sample.ystr "Airport")
           Cases.commentedAirport [Sample.ystr "Operator"; Sample.operator]);
    try reflexivity.
  intros name s [[= <- <-]|[]]. vm_compute. discriminate.
Defined.

(** ** The alternatives rewrite, for any operation *)

Section Alternatives.
Context {FM NS : Type} `{!GoMap string FM} `{!GoMap unit NS}.
Local Abbreviation registry := (@schemaRegistry FM NS).

(** X17.  For a schema with the alternatives idiom in an operation whose
    identifier gives a name, the rewrite depends on the first element of
    the [allOf] and on that name only.  It appends the first element under
    the name when [components.schemas] has no entry of that name, then the
    composite under the name followed by [WithAlternatives] when there is
    no entry of that name, and makes the schema a reference to the
    composite.  An entry found under either name is kept and not compared
    with the schema, and the second element of the [allOf] is stored
    nowhere. *)
Theorem alternatives_rewrite_any path method operationID status schemaNode (reg : registry) opts
    allOfNode baseNode extNode haveBase haveComposite :
  getMapValue (Some schemaNode) "allOf" = Val (Some allOfNode) ->
  Kind allOfNode = SequenceNode ->
  Content allOfNode = [baseNode; extNode] ->
  AlternativesShape baseNode extNode ->
  deriveSchemaName operationID <> "" ->
  let name := deriveSchemaName operationID in
  let withBase :=
    match haveBase with
    | Some _ => schemasNode reg
    | None => appendMapEntry (schemasNode reg) name baseNode
    end in
  getMapValue (Some (schemasNode reg)) name = Val haveBase ->
  getMapValue (Some withBase) (name +:+ "WithAlternatives") = Val haveComposite ->
  exists reg',
    rewriteSchema path method operationID status schemaNode reg opts
    = Val (makeRefOnlySchema schemaNode (name +:+ "WithAlternatives"), reg', true)
    /\ schemasNode reg'
       = match haveComposite with
         | Some _ => withBase
         | None => appendMapEntry withBase (name +:+ "WithAlternatives")
                                  (buildCompositeSchema name)
         end.
Proof.
  intros HallOf Hkind Hcontent Hshape Hname name withBase Hbase Hcomposite.
  unfold rewriteSchema. rewrite HallOf. simpl.
  unfold isKind. rewrite Hkind, Hcontent. simpl.
  apply isInlineObjectWithAlternatives_iff in Hshape. rewrite Hshape. simpl.
  unfold handleAlternativesPattern.
  destruct (String.eqb_spec (deriveSchemaName operationID) "") as [E|_]; [done|].
  unfold getMapValueExists. fold name. rewrite Hbase. simpl.
  destruct haveBase as [b|]; simpl.
  - subst withBase. rewrite Hcomposite. simpl.
    destruct haveComposite; simpl; eexists; split; reflexivity.
  - rewrite cloneNode_id. subst withBase. rewrite Hcomposite. simpl.
    destruct haveComposite; simpl; eexists; split; reflexivity.
Qed.

End Alternatives.

Lemma alternatives_rewrite_any_witness :
  exists reg',
    rewriteSchema "/airports/{id}" "get" "get_airport" "200"
      (Sample.alternativesOf Sample.airport)
      (mkRegistry ([] : list (string * string)) ([] : list (string * unit))
                  (Sample.ymap [Sample.ystr "Airport"; Sample.stringProp]))
      Sample.opts0
    = Val (makeRefOnlySchema (Sample.alternativesOf Sample.airport) "AirportWithAlternatives",
           reg', true)
    /\ schemasNode reg'
       = appendMapEntry (Sample.ymap [Sample.ystr "Airport"; Sample.stringProp])
                        "AirportWithAlternatives" (buildCompositeSchema "Airport").
Proof.
  apply (alternatives_rewrite_any
           "/airports/{id}" "get" "get_airport" "200"
           (Sample.alternativesOf Sample.airport)
           (mkRegistry ([] : list (string * string)) ([] : list (string * unit))
                       (Sample.ymap [Sample.ystr "Airport"; Sample.stringProp]))
           Sample.opts0
           (Sample.yseq [Sample.airport;
                         Sample.objectOf
                           [Sample.ystr "alternatives";
                            Sample.ymap [Sample.ystr "type"; Sample.ystr "array";
                                         Sample.ystr "items"; Sample.airport]]])
           Sample.airport
           (Sample.objectOf
              [Sample.ystr "alternatives";
               Sample.ymap [Sample.ystr "type"; Sample.ystr "array";
                            Sample.ystr "items"; Sample.airport]])
           (Some Sample.stringProp) None);
    try reflexivity.
  - apply isInlineObjectWithAlternatives_iff. reflexivity.
  - discriminate.
Defined.

(** ** What the walk leaves alone in the paths *)

Section Operations.
Context {FM NS : Type} `{!GoMap string FM} `{!GoMap unit NS}.
Local Abbreviation registry := (@schemaRegistry FM NS).

Local Abbreviation anyState := (fun _ _ : registry * bool => True).

Lemma walkOperation_frame pathKey opts k v (st : registry * bool) v' st' :
  walkOperation pathKey opts k v st = Val (v', st') ->
  (isHTTPMethod (Value k) = false -> v' = v)
  /\ forall key, key <> "responses" -> getMapValue (Some v') key = getMapValue (Some v) key.
Proof.
  unfold walkOperation.
  destruct (isHTTPMethod (Value k)); simpl; [|by intros [= <- <-]].
  destruct (negb (isMapping v)); [by intros [= <- <-]|].
  destruct (getMapValue _ "operationId"); simpl; try done.
  destruct (getMapValue _ "responses") as [[respNode|]| |]; simpl; try done;
    [|by intros [= <- <-]].
  destruct (negb (isMapping respNode)); [by intros [= <- <-]|].
  destruct (walkPairs _ _ st) as [[c st1]| |]; simpl; try done.
  intros [= <- <-]. split; [done|]. intros key Hkey.
  by rewrite getMapValue_setMapValue_ne.
Qed.

(** X18.  The walk keeps every path and, in a path item, every entry,
    in their order.  An entry of a path item whose key is not one of
    [get], [post], [put], [delete], [patch], [options] and [head], spelled
    so, is returned as it was ([parameters], [trace] or [GET], say), and
    an operation keeps the value of every key other than [responses]: its
    parameters and its request body are never rewritten. *)
Theorem operations_frame root opts root' changed paths :
  RefactorInlineResponseSchemas (FM := FM) (NS := NS) root opts = Val (root', changed) ->
  pathsOf root = Val (Some paths) ->
  exists paths',
    pathsOf root' = Val (Some paths')
    /\ setContent paths' (Content paths) = paths
    /\ forall i pathKey pathVal,
         pairAt (Content paths) i = Some (pathKey, pathVal) ->
         exists pathVal',
           pairAt (Content paths') i = Some (pathKey, pathVal')
           /\ setContent pathVal' (Content pathVal) = pathVal
           /\ (isMapping pathVal = false -> pathVal' = pathVal)
           /\ forall j methodKey methodVal,
                isMapping pathVal = true ->
                pairAt (Content pathVal) j = Some (methodKey, methodVal) ->
                exists methodVal',
                  pairAt (Content pathVal') j = Some (methodKey, methodVal')
                  /\ (isHTTPMethod (Value methodKey) = false -> methodVal' = methodVal)
                  /\ forall key, key <> "responses" ->
                       getMapValue (Some methodVal') key = getMapValue (Some methodVal) key.
Proof.
  intros Hrun HpathsOf.
  apply refactor_run in Hrun
    as (top & others & paths0 & schemas0 & reg0 & c & regF &
        Hroot & Htop & Hpaths & Hpm & Hinit & Hkind & Hreg0 & Hwalk & Hschemas' & Hpaths').
  assert (paths0 = paths) as ->.
  { unfold pathsOf in HpathsOf. rewrite Hroot, Hpaths in HpathsOf. by injection HpathsOf. }
  exists (setContent paths c). split; [done|].
  split; [by rewrite setContent_setContent, setContent_Content|].
  destruct (walkPairs_at anyState (walkPath opts) (Content paths)
              (fun _ => I) (fun _ _ _ _ _ => I) (fun _ _ _ _ _ _ _ _ => I) _ _ _ Hwalk)
    as [_ Hat].
  intros i pathKey pathVal Hi.
  destruct (Hat _ _ _ Hi) as (pathVal' & s1 & s2 & Hi' & Hbody & _).
  exists pathVal'. split; [done|]. unfold walkPath in Hbody.
  destruct (isMapping pathVal) eqn:Hm; simpl in Hbody.
  - destruct (walkPairs _ _ s1) as [[c1 t1]| |] eqn:Hw1; simpl in Hbody; try done.
    injection Hbody as <- <-.
    split; [by rewrite setContent_setContent, setContent_Content|]. split; [done|].
    intros j methodKey methodVal _ Hj.
    destruct (walkPairs_at anyState (walkOperation pathKey opts) (Content pathVal)
                (fun _ => I) (fun _ _ _ _ _ => I) (fun _ _ _ _ _ _ _ _ => I) _ _ _ Hw1)
      as [_ Hat1].
    destruct (Hat1 _ _ _ Hj) as (methodVal' & u1 & u2 & Hj' & Hop & _).
    exists methodVal'. split; [done|]. by eapply walkOperation_frame.
  - injection Hbody as <- <-. split; [apply setContent_Content|]. split; [done|]. done.
Qed.

End Operations.

Lemma operations_frame_witness :
  exists root' paths',
    Sample.run Cases.fullDoc = Val (root', true)
    /\ pathsOf root' = Val (Some paths')
    /\ exists pathVal',
         pairAt (Content paths') 0 = Some (Sample.ystr "/airports/{id}", pathVal')
         /\ pairAt (Content pathVal') 0 = Some (Sample.ystr "parameters", Sample.yseq []).
Proof.
  eassert (Hrun : Sample.run Cases.fullDoc = Val (_, true)) by (vm_compute; reflexivity).
  eassert (Hpaths : pathsOf Cases.fullDoc = Val (Some _)) by (vm_compute; reflexivity).
  destruct (operations_frame (FM := gmap string string) (NS := gmap string unit)
              Cases.fullDoc Sample.opts0 _ _ _ Hrun Hpaths)
    as (paths' & Hp' & _ & Hat).
  edestruct (Hat 0%nat) as (pathVal' & Hi & _ & _ & Hops); [vm_compute; reflexivity|].
  edestruct (Hops 0%nat) as (methodVal' & Hj & Hskip & _);
    [reflexivity|vm_compute; reflexivity|].
  eexists _, paths'. split; [exact Hrun|]. split; [exact Hp'|].
  exists pathVal'. split; [exact Hi|]. rewrite Hj. by rewrite Hskip.
Defined.

(** ** The files that a run touches *)

Section Files.
Context {FM NS : Type} `{!GoMap string FM} `{!GoMap unit NS}.
Variable env : Env.


(** The pass on the tree that a first pass returned. *)
Lemma refactor_second_pass root opts root' changed :
  RefactorInlineResponseSchemas (FM := FM) (NS := NS) root opts = Val (root', changed) ->
  forall opts2,
    RefactorInlineResponseSchemas (FM := FM) (NS := NS) root' opts2 = Val (root', false).
Proof.
  unfold RefactorInlineResponseSchemas. intros Hrun opts2.
  destruct (negb (isKind DocumentNode root) || _) eqn:Hdoc; [done|].
  destruct (Content root) as [|top others] eqn:Hroot; [done|].
  destruct (isMapping top) eqn:Htop; simpl in Hrun; [|done].
  destruct (ensureMapValue top "components") as [[top1 comp0]| |] eqn:H1;
    simpl in Hrun; try done.
  destruct (ensureMapValue comp0 "schemas") as [[comp1 schemas0]| |] eqn:H2;
    simpl in Hrun; try done.
  destruct (newSchemaRegistry schemas0) as [reg0| |] eqn:H3; simpl in Hrun; try done.
  destruct (getMapValue (Some (setMapValue top1 "components" comp1)) "paths")
    as [[paths|]| |] eqn:H4; simpl in Hrun; try done.
  destruct (isMapping paths) eqn:Hpaths; simpl in Hrun; [|done].
  destruct (walkPairs (walkPath opts) (Content paths) (reg0, false))
    as [[c [regF chF]]| |] eqn:H5; simpl in Hrun; try done.
  injection Hrun as <- <-.
  apply ensureMapValue_spec in H1 as [Htop1 Hcomp0].
  apply ensureMapValue_spec in H2 as [Hcomp1 Hschemas0].
  apply newSchemaRegistry_Val in H3 as [Hreg0 Heven0].
  pose proof (walkPaths_Appends _ _ _ _ _ _ _ H5) as (added & Hadded & HregF).
  rewrite Hreg0 in HregF.
  set (compF := setMapValue comp1 "schemas" (schemasNode regF)).
  set (top2 := setMapValue top1 "components" comp1) in *.
  set (top3 := setMapValue (setMapValue top2 "components" compF) "paths"
                 (setContent paths c)).
  assert (HcompF : getMapValue (Some top3) "components" = Val (Some compF)).
  { unfold top3. rewrite getMapValue_setMapValue_ne by done.
    eapply getMapValue_setMapValue_eq. unfold top2.
    by eapply getMapValue_setMapValue_eq. }
  assert (HschemasF : getMapValue (Some compF) "schemas" = Val (Some (schemasNode regF))).
  { unfold compF. by eapply getMapValue_setMapValue_eq. }
  assert (HpathsF : getMapValue (Some top3) "paths" = Val (Some (setContent paths c))).
  { unfold top3. eapply getMapValue_setMapValue_eq.
    rewrite getMapValue_setMapValue_ne by done. exact H4. }
  assert (HregB : exists regB : @schemaRegistry FM NS,
             newSchemaRegistry (schemasNode regF) = Val regB).
  { apply newSchemaRegistry_total. rewrite HregF. rewrite isMapping_setContent.
    intros Hm. simpl. rewrite length_app, Nat.even_add, Hadded, (Heven0 Hm). done. }
  destruct HregB as [regB HregB].
  pose proof (newSchemaRegistry_Val _ _ HregB) as [HregB_node _].
  simpl. unfold isKind in *. simpl in *.
  rewrite orb_false_r in Hdoc. rewrite Hdoc. simpl.
  change (isMapping top3) with (isMapping top1). rewrite Htop1. simpl.
  rewrite (ensureMapValue_present _ _ _ HcompF). simpl.
  rewrite (ensureMapValue_present _ _ _ HschemasF). simpl.
  rewrite (setMapValue_same _ _ _ HcompF).
  rewrite HregB. simpl. rewrite HpathsF. simpl.
  rewrite isMapping_setContent, Hpaths. simpl.
  erewrite (walkPairs_quiescent _ _ _ _ _ _ _ H5). simpl.
  rewrite HregB_node, !setContent_setContent.
  rewrite (setMapValue_same _ _ _ HschemasF), (setMapValue_same _ _ _ HcompF).
  by rewrite (setMapValue_same _ _ _ HpathsF).
  Unshelve. intros; by eapply walkPath_quiescent.
Qed.


End Files.



(** ** What a response keeps *)

Section Response.
Context {FM NS : Type} `{!GoMap string FM} `{!GoMap unit NS}.
Local Abbreviation registry := (@schemaRegistry FM NS).

(** X21.  [processResponseSchema] rewrites the children of one node, the
    schema it reached.  The response keeps its keys and the value of every
    key other than [content]; the media type chosen keeps its keys and the
    value of every key other than [schema]; the schema node keeps its
    kind, tag, style, anchor, comments and position, whatever becomes of
    its children. *)
Theorem response_frame path method operationID status resp (reg : registry) opts
    resp' reg' changed :
  processResponseSchema path method operationID status resp reg opts
    = Val (resp', reg', changed) ->
  setContent resp' (Content resp) = resp
  /\ entryNames (Content resp') = entryNames (Content resp)
  /\ (forall key, key <> "content" ->
        getMapValue (Some resp') key = getMapValue (Some resp) key)
  /\ forall c t a s,
       locateSchema resp = Val (Some (c, t, a, s)) ->
       exists c' a' s',
         locateSchema resp' = Val (Some (c', t, a', s'))
         /\ entryNames (Content c') = entryNames (Content c)
         /\ entryNames (Content a') = entryNames (Content a)
         /\ (forall key, key <> "schema" ->
               getMapValue (Some a') key = getMapValue (Some a) key)
         /\ setContent s' (Content s) = s.
Proof.
  rewrite processResponseSchema_locate.
  assert (Hsame : resp' = resp ->
            setContent resp' (Content resp) = resp
            /\ entryNames (Content resp') = entryNames (Content resp)
            /\ (forall key, key <> "content" ->
                  getMapValue (Some resp') key = getMapValue (Some resp) key)
            /\ forall c t a s,
                 locateSchema resp = Val (Some (c, t, a, s)) ->
                 exists c' a' s',
                   locateSchema resp' = Val (Some (c', t, a', s'))
                   /\ entryNames (Content c') = entryNames (Content c)
                   /\ entryNames (Content a') = entryNames (Content a)
                   /\ (forall key, key <> "schema" ->
                         getMapValue (Some a') key = getMapValue (Some a) key)
                   /\ setContent s' (Content s) = s).
  { intros ->. split; [apply setContent_Content|]. split; [done|]. split; [done|].
    intros c t a s Hloc. exists c, a, s. split; [done|]. repeat split; try done.
    apply setContent_Content. }
  destruct (locateSchema resp) as [[[[[c t] a] s]|]| |] eqn:Hloc; simpl; try done.
  2:{ intros [= <- <- <-]. by apply Hsame. }
  destruct (isRefOnlySchema s) eqn:Hr; [intros [= <- <- <-]; by apply Hsame|].
  assert (Hm : isMapping s = true).
  { destruct (responseSchema_locate resp s) as (? & ? & ? & _ & Hm); [|done].
    unfold responseSchema. by rewrite Hloc. }
  destruct (rewriteSchema _ _ _ _ _ _ _) as [[[s' r'] ch]| |] eqn:E; simpl; try done.
  intros [= <- <- <-]. clear Hsame.
  apply rewriteSchema_inline in E as [-> [name ->]]; [|done..].
  unfold putSchema. split; [|split; [|split]].
  - unfold setMapValue. by rewrite setContent_setContent, setContent_Content.
  - apply entryNames_setMapValue.
  - intros key Hkey. by rewrite getMapValue_setMapValue_ne.
  - intros c0 t0 a0 s0 [= <- <- <- <-].
    eexists _, _, _. split.
    + apply (locateSchema_putSchema _ _ _ _ _ _ Hloc).
      by rewrite isMapping_makeRefOnlySchema.
    + split; [apply entryNames_setMapValue|]. split; [apply entryNames_setMapValue|].
      split; [intros key Hkey; by rewrite getMapValue_setMapValue_ne|].
      unfold makeRefOnlySchema. by rewrite setContent_setContent, setContent_Content.
Qed.

(** ** A [schemas] node that is not a mapping *)

(** The run on a document that has a [components.schemas] node: the
    registry is built on that node. *)
Lemma refactor_run_schemas root opts root' changed schemas :
  RefactorInlineResponseSchemas (FM := FM) (NS := NS) root opts = Val (root', changed) ->
  schemasOf root = Val (Some schemas) ->
  exists paths (reg0 : registry) c (regF : registry),
    newSchemaRegistry schemas = Val reg0
    /\ walkPairs (walkPath opts) (Content paths) (reg0, false) = Val (c, (regF, changed))
    /\ schemasOf root' = Val (Some (schemasNode regF)).
Proof.
  intros Hrun Hs. pose proof Hrun as Hrun0.
  unfold RefactorInlineResponseSchemas in Hrun.
  destruct (negb (isKind DocumentNode root) || _) eqn:Hdoc; [done|].
  unfold schemasOf in Hs.
  destruct (Content root) as [|top others] eqn:Hroot; [done|].
  destruct (isMapping top) eqn:Htop; simpl in Hrun; [|done].
  destruct (getMapValue (Some top) "components") as [[comp|]| |] eqn:Hcomp;
    simpl in Hs; try done.
  destruct (ensureMapValue top "components") as [[top1 comp0]| |] eqn:H1;
    simpl in Hrun; try done.
  destruct (ensureMapValue_cases _ _ _ _ H1) as [[Hc0 ->]|[Hc0 _]]; [|congruence].
  assert (comp0 = comp) as -> by congruence.
  destruct (ensureMapValue comp "schemas") as [[comp1 schemas0]| |] eqn:H2;
    simpl in Hrun; try done.
  destruct (ensureMapValue_cases _ _ _ _ H2) as [[Hs0 ->]|[Hs0 _]]; [|congruence].
  assert (schemas0 = schemas) as -> by congruence.
  destruct (newSchemaRegistry schemas) as [reg0| |] eqn:H3; simpl in Hrun; try done.
  destruct (getMapValue (Some (setMapValue top "components" comp)) "paths")
    as [[paths|]| |] eqn:H4; simpl in Hrun; try done.
  destruct (isMapping paths) eqn:Hpaths; simpl in Hrun; [|done].
  destruct (walkPairs (walkPath opts) (Content paths) (reg0, false))
    as [[c [regF chF]]| |] eqn:H5; simpl in Hrun; try done.
  injection Hrun as <- <-.
  exists paths, reg0, c, regF. split; [done|]. split; [done|].
  unfold schemasOf. simpl.
  rewrite getMapValue_setMapValue_ne by done.
  erewrite getMapValue_setMapValue_eq; [|by eapply getMapValue_setMapValue_eq].
  simpl. by eapply getMapValue_setMapValue_eq.
Qed.

(** X22.  When the document has a [components.schemas] node that is not
    a mapping, an empty [schemas:] key for one, the pass does not make it a
    mapping: it appends the entries to the children of the node as it is.
    A lookup in such a node finds nothing, so no name resolves in the
    tree returned, those that the rewritten responses refer to among
    them. *)
Theorem references_dangle root opts root' changed schemas :
  RefactorInlineResponseSchemas (FM := FM) (NS := NS) root opts = Val (root', changed) ->
  schemasOf root = Val (Some schemas) ->
  isMapping schemas = false ->
  (exists added,
     schemasOf root' = Val (Some (setContent schemas (Content schemas ++ added)%list)))
  /\ forall name, component root' name = Val None.
Proof.
  intros Hrun Hschemas Hm.
  destruct (refactor_run_schemas _ _ _ _ _ Hrun Hschemas)
    as (paths & reg0 & c & regF & Hreg0 & Hwalk & Hschemas').
  pose proof (walkPaths_Appends _ _ _ _ _ _ _ Hwalk) as (added & _ & HregF).
  apply newSchemaRegistry_Val in Hreg0 as [Hnode0 _]. rewrite Hnode0 in HregF.
  split.
  - exists added. by rewrite Hschemas', HregF.
  - intros name. unfold component. rewrite Hschemas'. simpl.
    unfold getMapValue. by rewrite HregF, isMapping_setContent, Hm.
Qed.

End Response.

Lemma response_frame_witness :
  exists resp' reg',
    processResponseSchema "/airports/{id}" "get" "get_airport" "200"
      (Sample.jsonResponse Sample.airport) Sample.emptyRegistry Sample.opts0
    = Val (resp', reg', true)
    /\ getMapValue (Some resp') "description"
       = getMapValue (Some (Sample.jsonResponse Sample.airport)) "description".
Proof.
  eassert (Hrun : processResponseSchema "/airports/{id}" "get" "get_airport" "200"
                    (Sample.jsonResponse Sample.airport) Sample.emptyRegistry Sample.opts0
                  = Val (_, _, true)) by (vm_compute; reflexivity).
  eexists _, _. split; [exact Hrun|].
  destruct (response_frame _ _ _ _ _ _ _ _ _ _ Hrun) as (_ & _ & Hkeys & _).
  apply Hkeys. discriminate.
Defined.

Lemma references_dangle_witness :
  exists root',
    Sample.run Sample.nullSchemasDoc = Val (root', true)
    /\ component root' "AirportWithAlternatives" = Val None.
Proof.
  eassert (Hrun : Sample.run Sample.nullSchemasDoc = Val (_, true))
    by (vm_compute; reflexivity).
  eexists. split; [exact Hrun|].
  eapply (references_dangle (FM := gmap string string) (NS := gmap string unit)
            Sample.nullSchemasDoc Sample.opts0 _ _ Sample.ynull Hrun); reflexivity.
Defined.

(** ** A schema stored for the first time *)

Section Stores.
Context {FM NS : Type} `{!GoMap string FM} `{!GoMap unit NS}.
Local Abbreviation registry := (@schemaRegistry FM NS).

(** X23.  On an inline schema whose fingerprint the registry does not
    know, [componentizeSchema] appends to [components.schemas] a copy of
    the schema that is the schema node for node, with its tags, styles,
    anchors and comments, under the first name among the candidate,
    [candidate2], [candidate3], ... that [existingNames] does not hold;
    the candidate is the name hint, [InlineSchema] for an empty hint.  It
    registers the name and the fingerprint, and the schema becomes a
    reference to the name. *)
Theorem componentizeSchema_stores (reg : registry) node nameHint opts :
  RegistryOK reg ->
  isMapping node = true -> isRefOnlySchema node = false ->
  gm_get (byFingerprint reg) (schemaFingerprint (Some node)) = None ->
  exists j,
    let candidate := if String.eqb nameHint "" then "InlineSchema" else nameHint in
    let name := candidateName candidate j in
    componentizeSchema reg (Some node) nameHint opts
    = Val (Some (makeRefOnlySchema node name),
           registerFingerprint
             (registerName
                (withSchemasNode reg (appendMapEntry (schemasNode reg) name node)) name)
             (schemaFingerprint (Some node)) name,
           (name, true))
    /\ gm_get (existingNames reg) name = None
    /\ forall j', (j' < j)%nat ->
         gm_get (existingNames reg) (candidateName candidate j') <> None.
Proof.
  intros HOK Hm Hr Hfp. unfold componentizeSchema. rewrite Hm, Hr, Hfp. cbn [negb].
  set (candidate := if String.eqb nameHint "" then "InlineSchema" else nameHint).
  destruct HOK as (Hsm & Heven & Hin).
  assert (Hname : exists j,
             ensureUniqueName reg candidate (schemaFingerprint (Some node))
             = Val (candidateName candidate j)
             /\ gm_get (existingNames reg) (candidateName candidate j) = None
             /\ forall j', (j' < j)%nat ->
                  gm_get (existingNames reg) (candidateName candidate j') <> None).
  { unfold ensureUniqueName, getMapValue. rewrite Hsm.
    destruct (lookupPairs_even candidate (Content (schemasNode reg)) Heven) as (o & Ho & _).
    rewrite Ho. cbn [rbind].
    destruct (uniqueNameLoop_fuel (existingNames reg) candidate) as (d & Hloop & Hfree & Htaken).
    rewrite Hloop. exists d. split; [|done].
    destruct o as [existing|]; [|done].
    destruct (String.eqb_spec (schemaFingerprint (Some existing))
                              (schemaFingerprint (Some node))) as [E|_]; [|done].
    exfalso. apply lookupPairs_Some_In, Hin in Ho as [_ Ho]. by rewrite E in Ho. }
  destruct Hname as (j & Hname & Hfree & Htaken).
  exists j. cbn zeta. rewrite Hname. cbn [rbind]. by rewrite cloneNode_id.
Qed.

End Stores.

Lemma componentizeSchema_stores_witness :
  exists j,
    componentizeSchema Sample.emptyRegistry (Some Cases.commentedAirport) "" Sample.opts0
    = Val (Some (makeRefOnlySchema Cases.commentedAirport (candidateName "InlineSchema" j)),
           registerFingerprint
             (registerName
                (withSchemasNode Sample.emptyRegistry
                   (appendMapEntry (schemasNode Sample.emptyRegistry)
                                   (candidateName "InlineSchema" j) Cases.commentedAirport))
                (candidateName "InlineSchema" j))
             (schemaFingerprint (Some Cases.commentedAirport)) (candidateName "InlineSchema" j),
           (candidateName "InlineSchema" j, true))
    /\ j = 0%nat.
Proof.
  destruct (componentizeSchema_stores Sample.emptyRegistry Cases.commentedAirport ""
              Sample.opts0) as (j & Hrun & _ & Htaken).
  - split; [reflexivity|]. split; [reflexivity|]. by intros name schema [].
  - reflexivity.
  - reflexivity.
  - reflexivity.
  - exists j. split; [exact Hrun|].
    destruct j as [|j]; [reflexivity|]. exfalso. apply (Htaken 0%nat); [lia|reflexivity].
Defined.
